(** * lambo/optimizers/eo_direct.py: the sequential genetic optimizer

    A shallow embedding of [pareto_frontier] and of
    [SequentialGeneticOptimizer.optimize], followed by the properties of the
    round loop, of the active-set augmentation and of the Pareto archive.

    Conventions of the embedding.
    - A NumPy array is a [list]; the candidate, target and sequence arrays
      stay separate (parallel) lists, as in the source, and a boolean-mask or
      integer-array index that NumPy would reject raises [IndexError].
    - An objective value is an integer ([Z]): the code only compares, negates
      and takes minima of objective values.
    - Python exceptions are the left summand of [result].
    - What the collaborators return is an input of the model: the feasibility
      oracle is a predicate on candidates, and each round receives the two
      draws of [np.random.choice] and the arrays parsed from the inner
      optimizer's result ([RoundInput]).
    - The resampling weights, the indicator values (hv, r2, hsri), the
      elapsed time and console printing (other than the message
      'no new candidates') are not part of the model; a metrics record is
      identified by its round index, by the objective matrix it was computed
      from and by the evaluation count.
    - A run leaves a [trace]: the records sent to the experiment tracker,
      the calls of the inner optimizer and the 'no new candidates'
      messages, in order. *)

From Stdlib Require Import String Ascii ZArith Bool Arith PeanoNat Lia List.
From Stdlib Require Import Sorting.Mergesort Sorting.Permutation Orders.
Import ListNotations.

Set Implicit Arguments.

(** ** Exceptions *)

Inductive error : Type :=
| AssertionError
| IndexError
| ValueError
| InsufficientPopulationError.

Definition result (A : Type) : Type := (error + A)%type.

Definition ret {A : Type} (a : A) : result A := inr a.
Definition raise {A : Type} (e : error) : result A := inl e.
Definition bind {A B : Type} (m : result A) (k : A -> result B) : result B :=
  match m with
  | inl e => inl e
  | inr a => k a
  end.

Declare Scope result_scope.
Delimit Scope result_scope with result.
Notation "x <- m ;; k" := (bind m (fun x => k))
  (at level 61, m at next level, right associativity) : result_scope.
Notation "' p <- m ;; k" := (bind m (fun p => k))
  (at level 61, p pattern, m at next level, right associativity) : result_scope.
Open Scope result_scope.

Fixpoint mapM {A B : Type} (f : A -> result B) (l : list A) : result (list B) :=
  match l with
  | [] => ret []
  | a :: l' => b <- f a ;; bs <- mapM f l' ;; ret (b :: bs)
  end.

(** ** The NumPy operations used by the optimizer *)

Module StringOrder <: TotalLeBool.
Definition t := string.
Definition leb := String.leb.
Theorem leb_total : forall s1 s2, leb s1 s2 = true \/ leb s2 s1 = true.
Proof. exact String.leb_total. Qed.
End StringOrder.

Module StringSort := Sort StringOrder.

Module np.

(** [mask_filter mask xs]: the elements of [xs] at the [true] positions. *)
Fixpoint mask_filter {A : Type} (mask : list bool) (xs : list A) : list A :=
  match mask, xs with
  | b :: mask', x :: xs' =>
      if b then x :: mask_filter mask' xs' else mask_filter mask' xs'
  | _, _ => []
  end.

(** [xs[mask]] for a boolean array [mask]. *)
Definition mask_index {A : Type} (xs : list A) (mask : list bool)
  : result (list A) :=
  if length mask =? length xs then ret (mask_filter mask xs)
  else raise IndexError.

(** [xs[idxs]] for an array [idxs] of non-negative integers. *)
Definition fancy_index {A : Type} (xs : list A) (idxs : list nat)
  : result (list A) :=
  mapM (fun i => match nth_error xs i with
                 | Some x => ret x
                 | None => raise IndexError
                 end) idxs.

(** [np.in1d(ar1, ar2, invert=invert)]. *)
Definition in1d (ar1 ar2 : list string) (invert : bool) : list bool :=
  map (fun s => xorb invert (existsb (String.eqb s) ar2)) ar1.

(** Position of the first occurrence of [s] in [ar]. *)
Fixpoint first_index (s : string) (ar : list string) : nat :=
  match ar with
  | [] => 0
  | x :: ar' => if String.eqb s x then 0 else S (first_index s ar')
  end.

(** [np.unique(ar, return_index=True)]: the sorted distinct values and,
    for each, the index of its first occurrence in [ar]. *)
Definition unique (ar : list string) : list string * list nat :=
  let u := StringSort.sort (nodup string_dec ar) in
  (u, map (fun s => first_index s ar) u).

(** [np.random.choice(np.arange(n), size, p=weights, replace=False)].
    [draw] is the array the generator produces; asking for more indices
    than the population holds is an error (a [ValueError] of NumPy, the
    InsufficientPopulationError of the design). *)
Definition random_choice (n size : nat) (draw : list nat)
  : result (list nat) :=
  if n <? size then raise InsufficientPopulationError else ret draw.

(** What a without-replacement draw of [size] indices below [n] is. *)
Definition valid_draw (n size : nat) (draw : list nat) : Prop :=
  length draw = size /\ NoDup draw /\ Forall (fun i => i < n) draw.

(** [xs.min()]. *)
Definition min (xs : list Z) : result Z :=
  match xs with
  | [] => raise ValueError
  | x :: xs' => ret (fold_left Z.min xs' x)
  end.

(** [targets[:, i]]. *)
Definition column (targets : list (list Z)) (i : nat) : result (list Z) :=
  mapM (fun row => match nth_error row i with
                   | Some z => ret z
                   | None => raise IndexError
                   end) targets.

End np.

(** Modelled from the spec: [lambo.utils.safe_np_cat] is not part of the
    sources at hand; the history merge "appends" the selected frontier
    entries to the history, so the helper is the concatenation of its two
    arguments. *)
Definition safe_np_cat {A : Type} (a b : list A) : list A := a ++ b.

(** ** Objective vectors and the non-dominated mask *)

Definition ObjVec : Type := list Z.

Definition neg (obj_vals : list ObjVec) : list ObjVec :=
  map (map Z.opp) obj_vals.

Module pareto.

(** Modelled from the spec: the dominance test of the Pareto utility
    ([botorch.utils.multi_objective.pareto], not part of the sources at
    hand).  The utility assumes maximization (line 29 of the source):
    [y1] dominates [y2] when it is at least as large in every coordinate
    and larger in one. *)
Definition dominates (y1 y2 : ObjVec) : bool :=
  forallb (fun p => (fst p >=? snd p)%Z) (combine y1 y2)
  && existsb (fun p => (fst p >? snd p)%Z) (combine y1 y2).

(** Modelled from the spec: a row is non-dominated in [Y] when no row of
    [Y] dominates it. *)
Definition non_dominated_in (Y : list ObjVec) (y : ObjVec) : bool :=
  negb (existsb (fun y1 => dominates y1 y) Y).

(** Modelled from the spec: [is_non_dominated Y] is the mask of the rows
    of [Y] that are non-dominated in [Y]; identical rows get the same mark,
    so tied non-dominated rows are all kept. *)
Definition is_non_dominated (Y : list ObjVec) : list bool :=
  map (non_dominated_in Y) Y.

End pareto.

(** ** [pareto_frontier] *)

Definition pareto_frontier {A : Type}
  (candidate_pool : list A) (obj_vals : list ObjVec) (maximize : bool)
  : result (list A * list ObjVec) :=
  if negb (length candidate_pool =? length obj_vals) then raise AssertionError
  else if length candidate_pool =? 1 then ret (candidate_pool, obj_vals)
  else
    let pareto_mask :=
      if maximize then pareto.is_non_dominated obj_vals
      else pareto.is_non_dominated (neg obj_vals) in
    c <- np.mask_index candidate_pool pareto_mask ;;
    o <- np.mask_index obj_vals pareto_mask ;;
    ret (c, o).

(** ** Dominance in the words of the design

    A point is dominated if some other point is weakly better in every
    coordinate and strictly better in at least one, per the direction. *)

Definition better_or_equal (maximize : bool) (a b : Z) : bool :=
  if maximize then (a >=? b)%Z else (a <=? b)%Z.

Definition strictly_better (maximize : bool) (a b : Z) : bool :=
  if maximize then (a >? b)%Z else (a <? b)%Z.

Definition spec_dominates (maximize : bool) (w v : ObjVec) : bool :=
  forallb (fun p => better_or_equal maximize (fst p) (snd p)) (combine w v)
  && existsb (fun p => strictly_better maximize (fst p) (snd p)) (combine w v).

Definition spec_non_dominated (maximize : bool) (vals : list ObjVec)
  (v : ObjVec) : bool :=
  negb (existsb (fun w => spec_dominates maximize w v) vals).

(** The non-dominated subset of [vals], in the order of [vals]. *)
Definition spec_frontier (maximize : bool) (vals : list ObjVec)
  : list ObjVec :=
  filter (spec_non_dominated maximize vals) vals.

Definition ObjVec_eq_dec : forall v w : ObjVec, {v = w} + {v <> w} :=
  list_eq_dec Z.eq_dec.

(** ** Data of the optimizer *)

Record Candidate : Type := mkCandidate {
  uuid : nat;
  wild_name : string;
  mutant_residue_seq : string
}.

(** The configured values [optimize] reads: [bb_task.batch_size],
    [num_rounds], [concentrate_pool] and [bb_task.obj_dim]. *)
Record Config : Type := mkConfig {
  batch_size : nat;
  num_rounds : nat;
  concentrate_pool : nat;
  obj_dim : nat
}.

(** What one round receives from outside: the two draws of
    [np.random.choice] (used only if the corresponding augmentation step
    runs) and the tuple returned by [_evaluate_result]. *)
Record RoundInput : Type := mkRoundInput {
  hist_draw : list nat;
  rand_draw : list nat;
  X_cand : list Candidate;
  F : list ObjVec;
  X_seq : list string;
  bb_evals : nat
}.

(** The record built by [_log_optimizer_metrics]. *)
Record Metrics : Type := mkMetrics {
  m_round_idx : nat;
  m_normed_targets : list ObjVec;
  m_num_bb_evals : nat
}.

(** What a run emits: the record of [wandb.log] for a candidate, the record
    of [wandb.log] for the metrics of a round, the call of [minimize], and
    the message [print('no new candidates')]. *)
Inductive Event : Type :=
| LogCandidate (round_idx : nat) (cand : Candidate) (obj : ObjVec)
| LogMetrics (m : Metrics)
| InnerOptimize (round_idx : nat)
| PrintNoNewCandidates (round_idx : nat).

(** The variables of [optimize] that live across rounds. *)
Record State : Type := mkState {
  pool_candidates : list Candidate;
  pool_targets : list ObjVec;
  pool_seqs : list string;
  all_seqs : list string;
  all_targets : list ObjVec;
  active_candidates : list Candidate;
  active_targets : list ObjVec;
  active_seqs : list string;
  pareto_candidates : list Candidate;
  pareto_targets : list ObjVec;
  pareto_seqs : list string;
  pareto_cand_history : list Candidate;
  pareto_seq_history : list string;
  pareto_target_history : list ObjVec;
  norm_pareto_targets : list ObjVec;
  total_bb_evals : nat;
  metrics : Metrics;
  trace : list Event
}.

Definition set_pool (c : list Candidate) (t : list ObjVec) (s : list string)
  (st : State) : State :=
  mkState c t s (all_seqs st) (all_targets st)
    (active_candidates st) (active_targets st) (active_seqs st)
    (pareto_candidates st) (pareto_targets st) (pareto_seqs st)
    (pareto_cand_history st) (pareto_seq_history st) (pareto_target_history st)
    (norm_pareto_targets st) (total_bb_evals st) (metrics st) (trace st).

Definition set_all (s : list string) (t : list ObjVec) (st : State) : State :=
  mkState (pool_candidates st) (pool_targets st) (pool_seqs st) s t
    (active_candidates st) (active_targets st) (active_seqs st)
    (pareto_candidates st) (pareto_targets st) (pareto_seqs st)
    (pareto_cand_history st) (pareto_seq_history st) (pareto_target_history st)
    (norm_pareto_targets st) (total_bb_evals st) (metrics st) (trace st).

Definition set_active (c : list Candidate) (t : list ObjVec) (s : list string)
  (st : State) : State :=
  mkState (pool_candidates st) (pool_targets st) (pool_seqs st)
    (all_seqs st) (all_targets st) c t s
    (pareto_candidates st) (pareto_targets st) (pareto_seqs st)
    (pareto_cand_history st) (pareto_seq_history st) (pareto_target_history st)
    (norm_pareto_targets st) (total_bb_evals st) (metrics st) (trace st).

Definition set_pareto (c : list Candidate) (t : list ObjVec) (s : list string)
  (st : State) : State :=
  mkState (pool_candidates st) (pool_targets st) (pool_seqs st)
    (all_seqs st) (all_targets st)
    (active_candidates st) (active_targets st) (active_seqs st) c t s
    (pareto_cand_history st) (pareto_seq_history st) (pareto_target_history st)
    (norm_pareto_targets st) (total_bb_evals st) (metrics st) (trace st).

Definition set_history (c : list Candidate) (s : list string) (t : list ObjVec)
  (st : State) : State :=
  mkState (pool_candidates st) (pool_targets st) (pool_seqs st)
    (all_seqs st) (all_targets st)
    (active_candidates st) (active_targets st) (active_seqs st)
    (pareto_candidates st) (pareto_targets st) (pareto_seqs st) c s t
    (norm_pareto_targets st) (total_bb_evals st) (metrics st) (trace st).

Definition set_norm_pareto_targets (t : list ObjVec) (st : State) : State :=
  mkState (pool_candidates st) (pool_targets st) (pool_seqs st)
    (all_seqs st) (all_targets st)
    (active_candidates st) (active_targets st) (active_seqs st)
    (pareto_candidates st) (pareto_targets st) (pareto_seqs st)
    (pareto_cand_history st) (pareto_seq_history st) (pareto_target_history st)
    t (total_bb_evals st) (metrics st) (trace st).

Definition set_total_bb_evals (n : nat) (st : State) : State :=
  mkState (pool_candidates st) (pool_targets st) (pool_seqs st)
    (all_seqs st) (all_targets st)
    (active_candidates st) (active_targets st) (active_seqs st)
    (pareto_candidates st) (pareto_targets st) (pareto_seqs st)
    (pareto_cand_history st) (pareto_seq_history st) (pareto_target_history st)
    (norm_pareto_targets st) n (metrics st) (trace st).

Definition set_metrics (m : Metrics) (st : State) : State :=
  mkState (pool_candidates st) (pool_targets st) (pool_seqs st)
    (all_seqs st) (all_targets st)
    (active_candidates st) (active_targets st) (active_seqs st)
    (pareto_candidates st) (pareto_targets st) (pareto_seqs st)
    (pareto_cand_history st) (pareto_seq_history st) (pareto_target_history st)
    (norm_pareto_targets st) (total_bb_evals st) m (trace st).

(** Appends the events [evs] to the trace. *)
Definition emit (evs : list Event) (st : State) : State :=
  mkState (pool_candidates st) (pool_targets st) (pool_seqs st)
    (all_seqs st) (all_targets st)
    (active_candidates st) (active_targets st) (active_seqs st)
    (pareto_candidates st) (pareto_targets st) (pareto_seqs st)
    (pareto_cand_history st) (pareto_seq_history st) (pareto_target_history st)
    (norm_pareto_targets st) (total_bb_evals st) (metrics st)
    (trace st ++ evs).

(** ** Logging *)

(** [_log_candidates]: one record per pair of [zip(candidates, targets)]. *)
Definition _log_candidates (candidates : list Candidate)
  (targets : list ObjVec) (round_idx : nat) : list Event :=
  map (fun p => LogCandidate round_idx (fst p) (snd p))
      (combine candidates targets).

(** [_log_optimizer_metrics]: builds the record, logs it and returns it. *)
Definition _log_optimizer_metrics (normed_targets : list ObjVec)
  (round_idx num_bb_evals : nat) (st : State) : Metrics * State :=
  let m := mkMetrics round_idx normed_targets num_bb_evals in
  (m, emit [LogMetrics m] st).

(** [{f'obj_val_{i}': targets[:, i].min() for i in range(obj_dim)}], the
    table printed under "best candidates" and "new candidates". *)
Definition obj_vals_table (cfg : Config) (targets : list ObjVec)
  : result (list Z) :=
  mapM (fun i => col <- np.column targets i ;; np.min col)
       (seq 0 (obj_dim cfg)).

(** ** [SequentialGeneticOptimizer.optimize] *)

Section Optimizer.

(** [bb_task.is_feasible], applied to each candidate. *)
Variable is_feasible : Candidate -> bool.
Variable cfg : Config.

(** Lines 94-125: the state before the first round. *)
Definition init (candidate_pool : list Candidate) (pool_targets0 : list ObjVec)
  (all_seqs0 : list string) (all_targets0 : list ObjVec) : result State :=
  let feasible := map is_feasible candidate_pool in
  pool_c <- np.mask_index candidate_pool feasible ;;
  pool_t <- np.mask_index pool_targets0 feasible ;;
  let pool_s := map mutant_residue_seq pool_c in
  ' (pareto_c, pareto_t) <- pareto_frontier pool_c pool_t true ;;
  let pareto_s := map mutant_residue_seq pareto_c in
  let st :=
    mkState pool_c pool_t pool_s all_seqs0 all_targets0
      pool_c pool_t pool_s
      pareto_c pareto_t pareto_s
      pareto_c pareto_s pareto_t
      pareto_t 0 (mkMetrics 0 pareto_t 0) [] in
  let st := emit (_log_candidates pareto_c pareto_t 0) st in
  let (m, st) := _log_optimizer_metrics pareto_t 0 0 st in
  let st := set_metrics m st in
  _ <- obj_vals_table cfg pareto_t ;;
  ret st.

(** Lines 141-145: contract the active pool to its Pareto frontier. *)
Definition contract (round_idx : nat) (st : State) : result State :=
  if (0 <? concentrate_pool cfg)
     && (round_idx mod concentrate_pool cfg =? 0)
  then
    ' (c, t) <- pareto_frontier (active_candidates st) (active_targets st)
                  false ;;
    ret (set_active c t (map mutant_residue_seq c) st)
  else ret st.

(** Lines 146-164: augment the active set with old Pareto points. *)
Definition backtrack_augment (draw : list nat) (st : State) : result State :=
  if length (active_candidates st) <? batch_size cfg then
    let num_samples :=
      Nat.min (batch_size cfg) (length (pareto_cand_history st)) in
    let num_backtrack :=
      Nat.min num_samples (batch_size cfg - length (active_candidates st)) in
    hist_idxs <- np.random_choice (length (pareto_cand_history st))
                   num_samples draw ;;
    drawn_seqs <- np.fancy_index (pareto_seq_history st) hist_idxs ;;
    let is_active := np.in1d drawn_seqs (active_seqs st) false in
    hist_idxs <- np.mask_index hist_idxs (map negb is_active) ;;
    if 0 <? length hist_idxs then
      let hist_idxs := firstn num_backtrack hist_idxs in
      backtrack_candidates <-
        np.fancy_index (pareto_cand_history st) hist_idxs ;;
      backtrack_targets <-
        np.fancy_index (pareto_target_history st) hist_idxs ;;
      backtrack_seqs <- np.fancy_index (pareto_seq_history st) hist_idxs ;;
      ret (set_active (active_candidates st ++ backtrack_candidates)
                      (active_targets st ++ backtrack_targets)
                      (active_seqs st ++ backtrack_seqs) st)
    else ret st
  else ret st.

(** Lines 165-181: augment the active set with random pool points. *)
Definition random_augment (draw : list nat) (st : State) : result State :=
  if length (active_candidates st) <? batch_size cfg then
    let num_samples :=
      Nat.min (batch_size cfg) (length (pool_candidates st)) in
    let num_rand :=
      Nat.min num_samples (batch_size cfg - length (active_candidates st)) in
    rand_idxs <- np.random_choice (length (pool_candidates st))
                   num_samples draw ;;
    drawn_seqs <- np.fancy_index (pool_seqs st) rand_idxs ;;
    let is_active := np.in1d drawn_seqs (active_seqs st) false in
    rand_idxs <- np.mask_index rand_idxs (map negb is_active) ;;
    let rand_idxs := firstn num_rand rand_idxs in
    rand_candidates <- np.fancy_index (pool_candidates st) rand_idxs ;;
    rand_targets <- np.fancy_index (pool_targets st) rand_idxs ;;
    rand_seqs <- np.fancy_index (pool_seqs st) rand_idxs ;;
    ret (set_active (active_candidates st ++ rand_candidates)
                    (active_targets st ++ rand_targets)
                    (active_seqs st ++ rand_seqs) st)
  else ret st.

(** The two augmentation steps, in the order of the source. *)
Definition augment (inp : RoundInput) (st : State) : result State :=
  st <- backtrack_augment (hist_draw inp) st ;;
  random_augment (rand_draw inp) st.

(** The per-round preparation of the active set, lines 141-181. *)
Definition prepare_active (round_idx : nat) (inp : RoundInput) (st : State)
  : result State :=
  st <- contract round_idx st ;;
  augment inp st.

(** Lines 222-296: what the round does with the proposals. *)
Definition absorb (round_idx : nat) (inp : RoundInput) (st : State)
  : result State :=
  let st := set_total_bb_evals (total_bb_evals st + bb_evals inp) st in
  (* filter infeasible candidates *)
  let feasible := map is_feasible (X_cand inp) in
  new_seqs <- np.mask_index (X_seq inp) feasible ;;
  new_candidates <- np.mask_index (X_cand inp) feasible ;;
  new_targets <- np.mask_index (F inp) feasible ;;
  if length new_candidates =? 0 then
    ret (emit [PrintNoNewCandidates round_idx] st)
  else
    (* filter duplicate candidates *)
    let (new_seqs, unique_idxs) := np.unique new_seqs in
    new_candidates <- np.fancy_index new_candidates unique_idxs ;;
    new_targets <- np.fancy_index new_targets unique_idxs ;;
    (* filter redundant candidates *)
    let is_new := np.in1d new_seqs (all_seqs st) true in
    new_seqs <- np.mask_index new_seqs is_new ;;
    new_candidates <- np.mask_index new_candidates is_new ;;
    new_targets <- np.mask_index new_targets is_new ;;
    if length new_candidates =? 0 then
      let st := emit [PrintNoNewCandidates round_idx] st in
      let (_, st) :=
        _log_optimizer_metrics (norm_pareto_targets st) round_idx
          (total_bb_evals st) st in
      ret st
    else
      let st := set_pool (pool_candidates st ++ new_candidates)
                         (pool_targets st ++ new_targets)
                         (pool_seqs st ++ new_seqs) st in
      let st := set_all (all_seqs st ++ new_seqs)
                        (all_targets st ++ new_targets) st in
      (* augment active pool with candidates that can be mutated again *)
      let st := set_active (active_candidates st ++ new_candidates)
                           (active_targets st ++ new_targets)
                           (active_seqs st ++ new_seqs) st in
      (* overall Pareto frontier including terminal candidates *)
      ' (pareto_c, pareto_t) <-
        pareto_frontier (pareto_candidates st ++ new_candidates)
                        (pareto_targets st ++ new_targets) false ;;
      let pareto_s := map mutant_residue_seq pareto_c in
      let st := set_pareto pareto_c pareto_t pareto_s st in
      _ <- obj_vals_table cfg new_targets ;;
      _ <- obj_vals_table cfg pareto_t ;;
      let par_is_new := np.in1d pareto_s (pareto_seq_history st) true in
      hist_c <- np.mask_index pareto_c par_is_new ;;
      hist_s <- np.mask_index pareto_s par_is_new ;;
      hist_t <- np.mask_index pareto_t par_is_new ;;
      let st := set_history (safe_np_cat (pareto_cand_history st) hist_c)
                            (safe_np_cat (pareto_seq_history st) hist_s)
                            (safe_np_cat (pareto_target_history st) hist_t)
                            st in
      (* logging *)
      let st := set_norm_pareto_targets pareto_t st in
      let st := emit (_log_candidates new_candidates new_targets round_idx)
                  st in
      let (m, st) :=
        _log_optimizer_metrics (norm_pareto_targets st) round_idx
          (total_bb_evals st) st in
      ret (set_metrics m st).

(** One iteration of the loop of line 140. *)
Definition round (round_idx : nat) (inp : RoundInput) (st : State)
  : result State :=
  st <- prepare_active round_idx inp st ;;
  let st := emit [InnerOptimize round_idx] st in
  absorb round_idx inp st.

(** [for round_idx in range(first, first + n)]. *)
Fixpoint rounds (env : nat -> RoundInput) (n first : nat) (st : State)
  : result State :=
  match n with
  | 0 => ret st
  | S n' => st' <- round first (env first) st ;; rounds env n' (S first) st'
  end.

(** The state after initialization and the rounds [1 .. k]. *)
Definition state_after (env : nat -> RoundInput)
  (candidate_pool : list Candidate) (pool_targets0 : list ObjVec)
  (all_seqs0 : list string) (all_targets0 : list ObjVec) (k : nat)
  : result State :=
  st <- init candidate_pool pool_targets0 all_seqs0 all_targets0 ;;
  rounds env k 1 st.

(** The state when the loop of [optimize] ends:
    [for round_idx in range(1, self.num_rounds + 1)]. *)
Definition run (env : nat -> RoundInput)
  (candidate_pool : list Candidate) (pool_targets0 : list ObjVec)
  (all_seqs0 : list string) (all_targets0 : list ObjVec) : result State :=
  state_after env candidate_pool pool_targets0 all_seqs0 all_targets0
    (num_rounds cfg).

Definition optimize (env : nat -> RoundInput)
  (candidate_pool : list Candidate) (pool_targets0 : list ObjVec)
  (all_seqs0 : list string) (all_targets0 : list ObjVec) : result Metrics :=
  st <- run env candidate_pool pool_targets0 all_seqs0 all_targets0 ;;
  ret (metrics st).

End Optimizer.

(** ** [ModelFreeGeneticOptimizer] *)

(** The final population of the inner optimizer, [result.pop]: the
    attributes [X_cand] and [X_seq] are two-dimensional arrays, [F] is the
    objective matrix. *)
Record Population : Type := mkPopulation {
  pop_X_cand : list (list Candidate);
  pop_X_seq : list (list string);
  pop_F : list ObjVec
}.

Module ModelFreeGeneticOptimizer.

(** Lines 357-362.  [reshape(-1)] lays the rows of an array end to end;
    [num_gens] and [pop_size] are the configured [self.num_gens] and
    [self.algorithm.pop_size]. *)
Definition _evaluate_result (num_gens pop_size : nat) (pop : Population)
  : list Candidate * list ObjVec * list string * nat :=
  let new_candidates := concat (pop_X_cand pop) in
  let new_seqs := concat (pop_X_seq pop) in
  let new_targets := pop_F pop in
  let bb_evals := num_gens * pop_size in
  (new_candidates, new_targets, new_seqs, bb_evals).

(** What a round of [optimize] receives when [_evaluate_result] is the
    one of this class. *)
Definition round_input (num_gens pop_size : nat) (draws : list nat * list nat)
  (pop : Population) : RoundInput :=
  let '(new_candidates, new_targets, new_seqs, bb_evals) :=
    _evaluate_result num_gens pop_size pop in
  mkRoundInput (fst draws) (snd draws) new_candidates new_targets new_seqs
    bb_evals.

End ModelFreeGeneticOptimizer.

(** ** Auxiliary notions used to state the properties *)

Definition no_candidate : Candidate := mkCandidate 0 "" "".

(** The drawn indices whose sequence (in [seqs]) is not active, in the
    order of the draw: [idxs[~np.in1d(seqs[idxs], active)]]. *)
Definition not_active (seqs active : list string) (draw : list nat)
  : list nat :=
  filter (fun i => negb (existsb (String.eqb (nth i seqs ""%string)) active))
         draw.

(** The three parallel arrays of a state have one length each. *)
Definition aligned (st : State) : Prop :=
  length (pool_targets st) = length (pool_candidates st)
  /\ length (pool_seqs st) = length (pool_candidates st)
  /\ length (active_targets st) = length (active_candidates st)
  /\ length (active_seqs st) = length (active_candidates st)
  /\ length (pareto_targets st) = length (pareto_candidates st)
  /\ length (pareto_target_history st) = length (pareto_cand_history st)
  /\ length (pareto_seq_history st) = length (pareto_cand_history st).

(** The state a round ends in when the proposals [new_c], [new_t], [new_s]
    survive the filters and the recomputed frontier is [pareto_c],
    [pareto_t]; [st] is the state when the proposals are absorbed. *)
Definition accepted (round_idx : nat) (new_c : list Candidate)
  (new_t : list ObjVec) (new_s : list string) (pareto_c : list Candidate)
  (pareto_t : list ObjVec) (st : State) : State :=
  let pareto_s := map mutant_residue_seq pareto_c in
  let par_is_new := np.in1d pareto_s (pareto_seq_history st) true in
  let m := mkMetrics round_idx pareto_t (total_bb_evals st) in
  mkState
    (pool_candidates st ++ new_c) (pool_targets st ++ new_t)
    (pool_seqs st ++ new_s)
    (all_seqs st ++ new_s) (all_targets st ++ new_t)
    (active_candidates st ++ new_c) (active_targets st ++ new_t)
    (active_seqs st ++ new_s)
    pareto_c pareto_t pareto_s
    (pareto_cand_history st ++ np.mask_filter par_is_new pareto_c)
    (pareto_seq_history st ++ np.mask_filter par_is_new pareto_s)
    (pareto_target_history st ++ np.mask_filter par_is_new pareto_t)
    pareto_t (total_bb_evals st) m
    ((trace st ++ _log_candidates new_c new_t round_idx)
     ++ [LogMetrics m]).

(** The invariant of the history: its sequences are distinct, and the
    sequence of every candidate of the current frontier is among them. *)
Definition history_invariant (st : State) : Prop :=
  NoDup (pareto_seq_history st)
  /\ incl (map mutant_residue_seq (pareto_candidates st))
          (pareto_seq_history st).

(** The sequence array returned with the proposals holds the sequences of
    the proposed candidates. *)
Definition proposals_consistent (inp : RoundInput) : Prop :=
  X_seq inp = map mutant_residue_seq (X_cand inp).

(** A computation that does not end in the sampler's error. *)
Definition never_insufficient {A : Type} (m : result A) : Prop :=
  m <> inl InsufficientPopulationError.

(** The sum of the coordinates, signed so that a dominating vector scores
    higher whichever the direction. *)
Definition score (maximize : bool) (v : ObjVec) : Z :=
  let total := fold_right Z.add 0%Z v in
  if maximize then total else (- total)%Z.

(** The rounds in which the inner optimizer ran, in the order of the
    trace. *)
Definition inner_rounds (events : list Event) : list nat :=
  flat_map (fun e => match e with
                     | InnerOptimize r => [r]
                     | _ => []
                     end) events.

(** ** Example runs *)

Definition cand (n : nat) (s : string) : Candidate := mkCandidate n "wt" s.

Definition all_feasible (c : Candidate) : bool := true.

(** A feasibility oracle that rejects sequences of more than three
    residues. *)
Definition short_feasible (c : Candidate) : bool :=
  String.length (mutant_residue_seq c) <=? 3.

Definition empty_state : State :=
  mkState [] [] [] [] [] [] [] [] [] [] [] [] [] [] [] 0 (mkMetrics 0 [] 0) [].

Definition state_of (r : result State) : State :=
  match r with
  | inr st => st
  | inl _ => empty_state
  end.

(** Two candidates, one dominating the other whichever the direction. *)
Definition ex_pool : list Candidate := [cand 1 "A"; cand 2 "B"].
Definition ex_targets : list ObjVec := [[1; 1]; [2; 2]]%Z.
Definition ex_seqs : list string := ["A"; "B"]%string.

(** One round, batch size 2, contraction every round, two objectives. *)
Definition ex_cfg : Config := mkConfig 2 1 1 2.

(** The round proposes one new candidate, worse than both under
    minimization and better than both under maximization. *)
Definition ex_new (r : nat) : RoundInput :=
  mkRoundInput [0] [0] [cand 3 "C"] [[3; 3]]%Z ["C"%string] 7.

(** The round proposes a candidate whose sequence was already observed. *)
Definition ex_seen (r : nat) : RoundInput :=
  mkRoundInput [0] [0] [cand 3 "A"] [[1; 1]]%Z ["A"%string] 7.

(** The round proposes a candidate the oracle rejects. *)
Definition ex_long (r : nat) : RoundInput :=
  mkRoundInput [0] [0] [cand 3 "LONG"] [[0; 0]]%Z ["LONG"%string] 7.

(** Two mutually non-dominated candidates and a batch size of 1. *)
Definition ex2_targets : list ObjVec := [[1; 5]; [5; 1]]%Z.
Definition ex2_cfg : Config := mkConfig 1 1 1 2.
Definition ex2_input : RoundInput := mkRoundInput [] [] [] [] [] 0.

Definition ex2_st0 : State :=
  Eval vm_compute in
    state_of (init all_feasible ex2_cfg ex_pool ex2_targets ex_seqs
                ex2_targets).

Definition ex2_st1 : State :=
  Eval vm_compute in state_of (prepare_active ex2_cfg 1 ex2_input ex2_st0).

(** The state before and after the round of the run on [ex_new]. *)
Definition ex_st0 : State :=
  Eval vm_compute in
    state_of (state_after all_feasible ex_cfg ex_new ex_pool ex_targets
                ex_seqs ex_targets 0).

Definition ex_st1 : State :=
  Eval vm_compute in
    state_of (state_after all_feasible ex_cfg ex_new ex_pool ex_targets
                ex_seqs ex_targets 1).

(** The scenario of the augmentation example: a pool of fifty candidates
    with distinct sequences, a history made of the first ten, and two active
    candidates, one of them in the history. *)
Definition seq_of (n : nat) : string :=
  String (ascii_of_nat (48 + n)) EmptyString.

Definition sc_pool : list Candidate :=
  map (fun n => cand n (seq_of n)) (seq 0 50).

Definition sc_pool_targets : list ObjVec :=
  map (fun n => [Z.of_nat n; Z.of_nat (50 - n)]) (seq 0 50).

Definition sc_cfg : Config := mkConfig 5 1 0 2.

Definition sc_input : RoundInput :=
  mkRoundInput [0; 1; 2; 3; 4] [] [] [] [] 0.

Definition sc_state : State :=
  Eval vm_compute in
    mkState sc_pool sc_pool_targets (map mutant_residue_seq sc_pool)
      (map mutant_residue_seq sc_pool) sc_pool_targets
      [cand 1 (seq_of 1); cand 20 (seq_of 20)] [[1; 49]; [20; 30]]%Z
      [seq_of 1; seq_of 20]
      (firstn 10 sc_pool) (firstn 10 sc_pool_targets)
      (map mutant_residue_seq (firstn 10 sc_pool))
      (firstn 10 sc_pool) (map mutant_residue_seq (firstn 10 sc_pool))
      (firstn 10 sc_pool_targets)
      (firstn 10 sc_pool_targets) 0
      (mkMetrics 0 (firstn 10 sc_pool_targets) 0) [].

(** Four candidates on a chain, a batch size of 3 and contraction in every
    round: round 1 starts with four active candidates, contraction leaves
    one, the history draw supplies one and the pool draw one. *)
Definition chain_pool : list Candidate :=
  [cand 1 "A"; cand 2 "B"; cand 3 "C"; cand 4 "D"].
Definition chain_targets : list ObjVec :=
  [[1; 1]; [2; 2]; [3; 3]; [4; 4]]%Z.
Definition chain_seqs : list string := ["A"; "B"; "C"; "D"]%string.
Definition chain_cfg : Config := mkConfig 3 1 1 2.
Definition chain_input : RoundInput :=
  mkRoundInput [0] [0; 3; 1] [] [] [] 0.

Definition chain_st0 : State :=
  Eval vm_compute in
    state_of (init all_feasible chain_cfg chain_pool chain_targets
                chain_seqs chain_targets).

Definition chain_st_c : State :=
  Eval vm_compute in state_of (contract chain_cfg 1 chain_st0).

Definition chain_st1 : State :=
  Eval vm_compute in
    state_of (prepare_active chain_cfg 1 chain_input chain_st0).

(** The two-candidate pool with a batch size of 3: the pool cannot supply
    three distinct sequences. *)
Definition short_cfg : Config := mkConfig 3 1 1 2.
Definition short_input : RoundInput := mkRoundInput [0] [0; 1] [] [] [] 0.

Definition short_st0 : State :=
  Eval vm_compute in
    state_of (init all_feasible short_cfg ex_pool ex_targets ex_seqs
                ex_targets).

Definition short_st_c : State :=
  Eval vm_compute in state_of (contract short_cfg 1 short_st0).

Definition short_st1 : State :=
  Eval vm_compute in
    state_of (prepare_active short_cfg 1 short_input short_st0).

(** ** Example data of the further properties *)

(** An oracle that rejects every candidate. *)
Definition none_feasible (c : Candidate) : bool := false.

(** The round of [ex_new] with draws of the sizes the round requests. *)
Definition ex_drawn (r : nat) : RoundInput :=
  mkRoundInput [0] [1; 0] [cand 3 "C"] [[3; 3]]%Z ["C"%string] 7.

(** The state after the round of the run on [ex_seen]. *)
Definition ex_seen_st1 : State :=
  Eval vm_compute in
    state_of (round all_feasible ex_cfg 1 (ex_seen 1) ex_st0).

(** The active set of the augmentation scenario after augmentation. *)
Definition sc_state1 : State :=
  Eval vm_compute in state_of (augment sc_cfg sc_input sc_state).

(** A final population of two generations of one individual, and the run
    of the model-free optimizer on it with 2 generations of size 3. *)
Definition mf_pop (r : nat) : Population :=
  mkPopulation [[cand 3 "C"]; [cand 4 "D"]] [["C"]; ["D"]]%string
    [[3; 3]; [0; 4]]%Z.

Definition mf_draws (r : nat) : list nat * list nat := ([0], [0]).

Definition mf_st1 : State :=
  Eval vm_compute in
    state_of (state_after all_feasible ex_cfg
                (fun r => ModelFreeGeneticOptimizer.round_input 2 3
                            (mf_draws r) (mf_pop r))
                ex_pool ex_targets ex_seqs ex_targets 1).

(** A round on the mutually non-dominated pool that proposes a candidate
    better than both under minimization. *)
Definition ag_env (r : nat) : RoundInput :=
  mkRoundInput [0] [0] [cand 3 "C"] [[0; 0]]%Z ["C"%string] 7.

Definition ag_st1 : State :=
  Eval vm_compute in
    state_of (state_after all_feasible ex2_cfg ag_env ex_pool ex2_targets
                ex_seqs ex2_targets 1).

(** ** Notions used by the further properties *)

(** No vector of [vals] dominates another one, whichever the direction. *)
Definition mutually_non_dominated (vals : list ObjVec) : Prop :=
  forall maximize v w,
    In v vals -> In w vals -> spec_dominates maximize w v = false.

(** All rows of an objective matrix have [m] columns. *)
Definition rectangular (m : nat) (vals : list ObjVec) : Prop :=
  Forall (fun v => length v = m) vals.

(** The history indices whose entries the backtrack step appends, in
    order: none if the active set is full, else the first
    [num_backtrack] drawn indices whose sequence is not active. *)
Definition backtrack_indices (cfg : Config) (draw : list nat) (st : State)
  : list nat :=
  if length (active_candidates st) <? batch_size cfg then
    firstn (Nat.min (Nat.min (batch_size cfg)
                       (length (pareto_cand_history st)))
                    (batch_size cfg - length (active_candidates st)))
           (not_active (pareto_seq_history st) (active_seqs st) draw)
  else [].

(** The pool indices whose entries the random step appends, in order. *)
Definition random_indices (cfg : Config) (draw : list nat) (st : State)
  : list nat :=
  if length (active_candidates st) <? batch_size cfg then
    firstn (Nat.min (Nat.min (batch_size cfg) (length (pool_candidates st)))
                    (batch_size cfg - length (active_candidates st)))
           (not_active (pool_seqs st) (active_seqs st) draw)
  else [].

(** The rows (candidate, objective vector) of [cs], [ts] are rows of the
    pool of [st]. *)
Definition paired_in_pool (st : State) (cs : list Candidate)
  (ts : list ObjVec) : Prop :=
  incl (combine cs ts) (combine (pool_candidates st) (pool_targets st)).

(** What every state of a run satisfies, whatever the input. *)
Definition coherent (st : State) : Prop :=
  aligned st
  /\ pareto_seqs st = map mutant_residue_seq (pareto_candidates st)
  /\ pareto_seq_history st
     = map mutant_residue_seq (pareto_cand_history st)
  /\ paired_in_pool st (active_candidates st) (active_targets st)
  /\ paired_in_pool st (pareto_candidates st) (pareto_targets st)
  /\ paired_in_pool st (pareto_cand_history st) (pareto_target_history st)
  /\ incl (pareto_seqs st) (pareto_seq_history st)
  /\ norm_pareto_targets st = pareto_targets st
  /\ m_normed_targets (metrics st) = pareto_targets st
  /\ m_num_bb_evals (metrics st) <= total_bb_evals st
  /\ In (LogMetrics (metrics st)) (trace st)
  /\ mutually_non_dominated (pareto_targets st).

(** The sequence arrays of pool and active set hold the sequences of their
    candidates, no sequence occurs twice in the pool, in the active set or
    in the history, and every pool sequence is in the all-time set. *)
Definition sequences_distinct (st : State) : Prop :=
  pool_seqs st = map mutant_residue_seq (pool_candidates st)
  /\ active_seqs st = map mutant_residue_seq (active_candidates st)
  /\ NoDup (pool_seqs st)
  /\ incl (pool_seqs st) (all_seqs st)
  /\ NoDup (active_seqs st)
  /\ incl (active_seqs st) (pool_seqs st)
  /\ NoDup (pareto_seq_history st)
  /\ incl (pareto_seq_history st) (pool_seqs st).


(** The draws of a round hold no index twice. *)
Definition draws_distinct (inp : RoundInput) : Prop :=
  NoDup (hist_draw inp) /\ NoDup (rand_draw inp).

(** The arrays parsed from the inner optimizer's result agree in length and
    the objective matrix has [obj_dim] columns. *)
Definition proposals_well_formed (cfg : Config) (inp : RoundInput) : Prop :=
  length (X_seq inp) = length (X_cand inp)
  /\ length (F inp) = length (X_cand inp)
  /\ rectangular (obj_dim cfg) (F inp).

(** The two draws of a round are without-replacement draws of the size the
    round requests, from the history and from the pool of [st]. *)
Definition draws_valid (cfg : Config) (inp : RoundInput) (st : State)
  : Prop :=
  np.valid_draw (length (pareto_cand_history st))
    (Nat.min (batch_size cfg) (length (pareto_cand_history st)))
    (hist_draw inp)
  /\ np.valid_draw (length (pool_candidates st))
       (Nat.min (batch_size cfg) (length (pool_candidates st)))
       (rand_draw inp).

(** * Properties *)

(** ** The exception monad *)

Lemma bind_inr {A B : Type} (m : result A) (k : A -> result B) (b : B) :
  bind m k = inr b -> exists a, m = inr a /\ k a = inr b.
Proof.
  destruct m as [e | a]; simpl; intro H; [discriminate | eauto].
Qed.

Lemma mapM_inr {A B : Type} (f : A -> result B) (l : list A) (bs : list B) :
  mapM f l = inr bs -> Forall2 (fun a b => f a = inr b) l bs.
Proof.
  revert bs; induction l as [| a l IH]; simpl; intros bs H.
  - inversion H; constructor.
  - apply bind_inr in H; destruct H as (b & Hb & H).
    apply bind_inr in H; destruct H as (bs' & Hbs & H).
    inversion H; subst; constructor; auto.
Qed.

Lemma mapM_total {A B : Type} (f : A -> result B) (g : A -> B) (l : list A) :
  Forall (fun a => f a = inr (g a)) l -> mapM f l = inr (map g l).
Proof.
  induction 1 as [| a l Ha _ IH]; simpl; [reflexivity |].
  rewrite Ha; simpl; rewrite IH; reflexivity.
Qed.

(** Destructs the outermost [bind] of a hypothesis [H : _ = inr _]. *)
Ltac bind_inv H :=
  let x := fresh "x" in
  let Hx := fresh "Hx" in
  apply bind_inr in H; destruct H as (x & Hx & H).

(** ** Boolean masks and index arrays *)

Section Masks.

Context {A : Type}.

Lemma mask_filter_map_pred (p : A -> bool) (xs : list A) :
  np.mask_filter (map p xs) xs = filter p xs.
Proof.
  induction xs as [| x xs IH]; simpl; [reflexivity |].
  rewrite IH; reflexivity.
Qed.

Lemma mask_filter_length_le (mask : list bool) (xs : list A) :
  length (np.mask_filter mask xs) <= length xs.
Proof.
  revert xs; induction mask as [| b mask IH]; intros [| x xs]; simpl; try lia.
  specialize (IH xs); destruct b; simpl; lia.
Qed.

Lemma mask_filter_length (mask : list bool) (xs : list A) :
  length mask = length xs ->
  length (np.mask_filter mask xs) = length (filter (fun b => b) mask).
Proof.
  revert xs; induction mask as [| b mask IH]; intros [| x xs]; simpl;
    try discriminate; auto.
  intro H; injection H as H; destruct b; simpl; auto.
Qed.

Lemma mask_filter_all_true (mask : list bool) (xs : list A) :
  length mask = length xs -> Forall (fun b => b = true) mask ->
  np.mask_filter mask xs = xs.
Proof.
  revert xs; induction mask as [| b mask IH]; intros [| x xs]; simpl;
    try discriminate; auto.
  intros H Hall; injection H as H; inversion Hall; subst.
  rewrite IH; auto.
Qed.

Lemma mask_filter_In (mask : list bool) (xs : list A) (x : A) :
  In x (np.mask_filter mask xs) -> In x xs.
Proof.
  revert xs; induction mask as [| b mask IH]; intros [| y xs]; simpl;
    try tauto.
  destruct b; simpl; intros H; [destruct H |]; auto.
Qed.

Lemma mask_index_inr (xs : list A) (mask : list bool) (ys : list A) :
  np.mask_index xs mask = inr ys ->
  length mask = length xs /\ ys = np.mask_filter mask xs.
Proof.
  unfold np.mask_index.
  destruct (length mask =? length xs) eqn:E; [| discriminate].
  apply Nat.eqb_eq in E; intro H; inversion H; auto.
Qed.

Lemma mask_index_ok (xs : list A) (mask : list bool) :
  length mask = length xs ->
  np.mask_index xs mask = inr (np.mask_filter mask xs).
Proof.
  intro H; unfold np.mask_index; rewrite H, Nat.eqb_refl; reflexivity.
Qed.

Lemma fancy_index_inr (xs : list A) (idxs : list nat) (ys : list A) :
  np.fancy_index xs idxs = inr ys ->
  Forall2 (fun i y => nth_error xs i = Some y) idxs ys.
Proof.
  intro H; apply mapM_inr in H.
  induction H as [| i y idxs ys Hi _ IH]; constructor; auto.
  destruct (nth_error xs i); [inversion Hi; reflexivity | discriminate].
Qed.

Lemma fancy_index_length (xs : list A) (idxs : list nat) (ys : list A) :
  np.fancy_index xs idxs = inr ys -> length ys = length idxs.
Proof.
  intro H; apply fancy_index_inr in H.
  induction H; simpl; auto.
Qed.

Lemma fancy_index_ok (d : A) (xs : list A) (idxs : list nat) :
  Forall (fun i => i < length xs) idxs ->
  np.fancy_index xs idxs = inr (map (fun i => nth i xs d) idxs).
Proof.
  intro H; apply mapM_total.
  induction H as [| i idxs Hi _ IH]; constructor; auto.
  rewrite (nth_error_nth' xs d Hi); reflexivity.
Qed.

End Masks.

Lemma mask_filter_map {A B : Type} (f : A -> B) (mask : list bool)
  (xs : list A) :
  np.mask_filter mask (map f xs) = map f (np.mask_filter mask xs).
Proof.
  revert xs; induction mask as [| b mask IH]; intros [| x xs]; simpl; auto.
  destruct b; simpl; rewrite IH; reflexivity.
Qed.

(** ** The non-dominated mask against the dominance of the design *)

Lemma existsb_map_compose {A B : Type} (f : A -> B) (p : B -> bool)
  (l : list A) :
  existsb p (map f l) = existsb (fun a => p (f a)) l.
Proof.
  induction l as [| a l IH]; simpl; [reflexivity | rewrite IH; reflexivity].
Qed.

Lemma opp_geb (a b : Z) : (- a >=? - b)%Z = (a <=? b)%Z.
Proof.
  rewrite Z.geb_leb.
  destruct (Z.leb_spec (- b) (- a)), (Z.leb_spec a b); auto; lia.
Qed.

Lemma opp_gtb (a b : Z) : (- a >? - b)%Z = (a <? b)%Z.
Proof.
  rewrite Z.gtb_ltb.
  destruct (Z.ltb_spec (- b) (- a)), (Z.ltb_spec a b); auto; lia.
Qed.

Lemma combine_opp_forallb (w v : ObjVec) :
  forallb (fun p => (fst p >=? snd p)%Z) (combine (map Z.opp w) (map Z.opp v))
  = forallb (fun p => (fst p <=? snd p)%Z) (combine w v).
Proof.
  revert v; induction w as [| a w IH]; intros [| b v]; simpl; auto.
  rewrite opp_geb, IH; reflexivity.
Qed.

Lemma combine_opp_existsb (w v : ObjVec) :
  existsb (fun p => (fst p >? snd p)%Z) (combine (map Z.opp w) (map Z.opp v))
  = existsb (fun p => (fst p <? snd p)%Z) (combine w v).
Proof.
  revert v; induction w as [| a w IH]; intros [| b v]; simpl; auto.
  rewrite opp_gtb, IH; reflexivity.
Qed.

(** Negating both vectors turns the maximizing test of the utility into
    the minimizing test of the design. *)
Lemma dominates_negated (w v : ObjVec) :
  pareto.dominates (map Z.opp w) (map Z.opp v) = spec_dominates false w v.
Proof.
  unfold pareto.dominates, spec_dominates; simpl.
  rewrite combine_opp_forallb, combine_opp_existsb; reflexivity.
Qed.

Lemma spec_dominates_irrefl (maximize : bool) (v : ObjVec) :
  spec_dominates maximize v v = false.
Proof.
  unfold spec_dominates.
  assert (H : existsb (fun p => strictly_better maximize (fst p) (snd p))
                (combine v v) = false).
  { induction v as [| a v IH]; simpl; [reflexivity |].
    rewrite IH, orb_false_r.
    destruct maximize; simpl;
      [rewrite Z.gtb_ltb |]; apply Z.ltb_irrefl. }
  rewrite H; apply andb_false_r.
Qed.

(** The mask [pareto_frontier] computes marks the rows that are
    non-dominated in the sense of the design. *)
Lemma pareto_mask_spec (maximize : bool) (obj_vals : list ObjVec) :
  (if maximize then pareto.is_non_dominated obj_vals
   else pareto.is_non_dominated (neg obj_vals))
  = map (spec_non_dominated maximize obj_vals) obj_vals.
Proof.
  destruct maximize; [reflexivity |].
  unfold pareto.is_non_dominated, neg; rewrite map_map.
  apply map_ext; intro v.
  unfold pareto.non_dominated_in, spec_non_dominated.
  rewrite existsb_map_compose; f_equal.
  induction obj_vals as [| w l IH]; simpl; [reflexivity |].
  rewrite dominates_negated, IH; reflexivity.
Qed.

Lemma spec_non_dominated_incl (maximize : bool) (vals vals' : list ObjVec)
  (v : ObjVec) :
  incl vals' vals ->
  spec_non_dominated maximize vals v = true ->
  spec_non_dominated maximize vals' v = true.
Proof.
  unfold spec_non_dominated; intros Hincl H.
  apply negb_true_iff in H; apply negb_true_iff.
  destruct (existsb (fun w => spec_dominates maximize w v) vals') eqn:E; auto.
  apply existsb_exists in E; destruct E as (w & Hw & Hd).
  rewrite <- H; symmetry; apply existsb_exists; exists w; auto.
Qed.

(** ** What [pareto_frontier] returns *)

Section Frontier.

Context {A : Type}.

Lemma pareto_frontier_inr (pool : list A) (vals : list ObjVec)
  (maximize : bool) (c : list A) (o : list ObjVec) :
  pareto_frontier pool vals maximize = inr (c, o) ->
  let mask := map (spec_non_dominated maximize vals) vals in
  length pool = length vals
  /\ c = np.mask_filter mask pool
  /\ o = spec_frontier maximize vals.
Proof.
  unfold pareto_frontier.
  destruct (length pool =? length vals) eqn:Elen; simpl; [| discriminate].
  apply Nat.eqb_eq in Elen.
  destruct (length pool =? 1) eqn:E1.
  - apply Nat.eqb_eq in E1; intro H; inversion H; subst c o; clear H.
    destruct pool as [| a [| ? ?]]; try discriminate.
    destruct vals as [| v [| ? ?]]; try discriminate.
    unfold spec_frontier; simpl.
    unfold spec_non_dominated; simpl.
    rewrite spec_dominates_irrefl; simpl; auto.
  - rewrite pareto_mask_spec; intro H.
    bind_inv H; bind_inv H; inversion H; subst; clear H.
    apply mask_index_inr in Hx, Hx0.
    destruct Hx as [_ ->], Hx0 as [_ ->].
    unfold spec_frontier; rewrite mask_filter_map_pred; auto.
Qed.

Lemma pareto_frontier_total (pool : list A) (vals : list ObjVec)
  (maximize : bool) :
  length pool = length vals ->
  exists c o, pareto_frontier pool vals maximize = inr (c, o).
Proof.
  intro Hlen; unfold pareto_frontier.
  rewrite Hlen, Nat.eqb_refl; simpl.
  destruct (length vals =? 1); [eauto |].
  rewrite pareto_mask_spec.
  rewrite !mask_index_ok by (rewrite length_map; auto).
  simpl; eauto.
Qed.

Lemma pareto_frontier_lengths (pool : list A) (vals : list ObjVec)
  (maximize : bool) (c : list A) (o : list ObjVec) :
  pareto_frontier pool vals maximize = inr (c, o) ->
  length c = length o /\ length c <= length pool.
Proof.
  intro H; apply pareto_frontier_inr in H; simpl in H.
  destruct H as (Hlen & -> & ->); split.
  - unfold spec_frontier; rewrite <- mask_filter_map_pred.
    rewrite !mask_filter_length by (rewrite length_map; auto).
    reflexivity.
  - apply mask_filter_length_le.
Qed.

End Frontier.

Lemma count_occ_filter_kept (p : ObjVec -> bool) (l : list ObjVec)
  (v : ObjVec) :
  p v = true ->
  count_occ ObjVec_eq_dec (filter p l) v = count_occ ObjVec_eq_dec l v.
Proof.
  intro Hp; induction l as [| w l IH]; simpl; [reflexivity |].
  destruct (ObjVec_eq_dec w v) as [-> | Hne].
  - rewrite Hp; simpl.
    destruct (ObjVec_eq_dec v v); [congruence | contradiction].
  - destruct (p w); simpl; auto.
    destruct (ObjVec_eq_dec w v); [contradiction | auto].
Qed.

Lemma mask_filter_keeps {A B : Type} (mask : list bool) (xs : list A)
  (ys : list B) (i : nat) (x : A) (y : B) :
  nth_error mask i = Some true ->
  nth_error xs i = Some x ->
  nth_error ys i = Some y ->
  In (x, y) (combine (np.mask_filter mask xs) (np.mask_filter mask ys)).
Proof.
  revert xs ys i.
  induction mask as [| b mask IH]; intros [| x' xs] [| y' ys] [| i]; simpl;
    try discriminate.
  - intros Hb Hx Hy; inversion Hb; inversion Hx; inversion Hy; subst.
    left; reflexivity.
  - intros Hb Hx Hy; destruct b; simpl; eauto.
Qed.

(** C8.  [pareto_frontier] returns a pool of size 1 and its objective
    vector unchanged; and in any pool, every copy of an objective vector
    that no vector of the pool dominates is retained: the returned
    objectives hold the vector as many times as the pool does, each with
    its own candidate. *)
Theorem pareto_frontier_singleton_and_ties
  (A : Type) (pool : list A) (vals : list ObjVec) (maximize : bool) :
  length pool = length vals ->
  exists c o,
    pareto_frontier pool vals maximize = inr (c, o)
    /\ (length pool = 1 -> c = pool /\ o = vals)
    /\ (forall v, spec_non_dominated maximize vals v = true ->
          count_occ ObjVec_eq_dec o v = count_occ ObjVec_eq_dec vals v
          /\ (forall i cand, nth_error pool i = Some cand ->
                nth_error vals i = Some v -> In (cand, v) (combine c o))).
Proof.
  intro Hlen.
  destruct (pareto_frontier_total pool vals maximize Hlen) as (c & o & H).
  exists c, o; split; [exact H |]; split.
  - intro H1; unfold pareto_frontier in H.
    rewrite Hlen, Nat.eqb_refl in H; simpl in H.
    rewrite <- Hlen, H1 in H; simpl in H.
    inversion H; auto.
  - intros v Hv.
    apply pareto_frontier_inr in H; simpl in H.
    destruct H as (_ & -> & ->); split.
    + apply count_occ_filter_kept; exact Hv.
    + intros i cand Hc Hi.
      unfold spec_frontier; rewrite <- mask_filter_map_pred.
      apply mask_filter_keeps with (i := i); auto.
      rewrite nth_error_map, Hi; simpl; rewrite Hv; reflexivity.
Qed.

(** C9.  Applying [pareto_frontier] to its own output returns that
    output: the frontier operation is idempotent. *)
Theorem pareto_frontier_idempotent
  (A : Type) (pool : list A) (vals : list ObjVec) (maximize : bool) :
  length pool = length vals ->
  exists c o,
    pareto_frontier pool vals maximize = inr (c, o)
    /\ pareto_frontier c o maximize = inr (c, o).
Proof.
  intro Hlen.
  destruct (pareto_frontier_total pool vals maximize Hlen) as (c & o & H).
  exists c, o; split; [exact H |].
  destruct (pareto_frontier_lengths _ _ _ H) as [Hco _].
  apply pareto_frontier_inr in H; simpl in H; destruct H as (_ & _ & Ho).
  unfold pareto_frontier.
  rewrite Hco, Nat.eqb_refl; simpl.
  destruct (length o =? 1); [reflexivity |].
  rewrite pareto_mask_spec.
  assert (Hall : Forall (fun b => b = true)
                   (map (spec_non_dominated maximize o) o)).
  { apply Forall_forall; intros b Hb.
    apply in_map_iff in Hb; destruct Hb as (v & <- & Hv).
    rewrite Ho in Hv |- *.
    unfold spec_frontier in Hv; apply filter_In in Hv.
    apply spec_non_dominated_incl with (vals := vals); [| tauto].
    unfold spec_frontier; apply incl_filter. }
  rewrite !mask_index_ok by (rewrite length_map; auto).
  simpl.
  rewrite !mask_filter_all_true by (rewrite ?length_map; auto).
  reflexivity.
Qed.

(** ** Membership masks and [np.unique] *)

Lemma existsb_eqb_In (s : string) (l : list string) :
  existsb (String.eqb s) l = true <-> In s l.
Proof.
  rewrite existsb_exists; split.
  - intros (x & Hx & E); apply String.eqb_eq in E; subst; exact Hx.
  - intro H; exists s; split; [exact H | apply String.eqb_refl].
Qed.

Lemma in1d_invert_filter {A : Type} (f : A -> string) (xs : list A)
  (ar2 : list string) :
  np.mask_filter (np.in1d (map f xs) ar2 true) xs
  = filter (fun x => negb (existsb (String.eqb (f x)) ar2)) xs.
Proof.
  unfold np.in1d; rewrite map_map.
  apply (mask_filter_map_pred
           (fun x => xorb true (existsb (String.eqb (f x)) ar2))).
Qed.

Lemma in1d_length (ar1 ar2 : list string) (invert : bool) :
  length (np.in1d ar1 ar2 invert) = length ar1.
Proof. unfold np.in1d; apply length_map. Qed.

Lemma unique_NoDup (ar : list string) : NoDup (fst (np.unique ar)).
Proof.
  simpl.
  apply (Permutation_NoDup (StringSort.Permuted_sort _)).
  apply NoDup_nodup.
Qed.

Lemma unique_In (ar : list string) (s : string) :
  In s (fst (np.unique ar)) <-> In s ar.
Proof.
  simpl; rewrite <- (nodup_In string_dec ar s); split; intro H.
  - eapply Permutation_in; [| exact H].
    apply Permutation_sym, StringSort.Permuted_sort.
  - eapply Permutation_in; [| exact H]. apply StringSort.Permuted_sort.
Qed.

Lemma first_index_nth_error (s : string) (ar : list string) :
  In s ar -> nth_error ar (np.first_index s ar) = Some s.
Proof.
  induction ar as [| x ar IH]; simpl; [tauto |].
  intro H; destruct (String.eqb_spec s x) as [-> | Hne]; [reflexivity |].
  simpl; apply IH; destruct H; [congruence | assumption].
Qed.

Lemma unique_indices (ar : list string) :
  Forall2 (fun i s => nth_error ar i = Some s)
    (snd (np.unique ar)) (fst (np.unique ar)).
Proof.
  assert (H : forall u, incl u ar ->
            Forall2 (fun i s => nth_error ar i = Some s)
              (map (fun s => np.first_index s ar) u) u).
  { induction u as [| s u IH]; simpl; intro Hincl; constructor.
    - apply first_index_nth_error, Hincl; left; reflexivity.
    - apply IH; intros x Hx; apply Hincl; right; exact Hx. }
  apply H; intros s Hs; apply (unique_In ar s); exact Hs.
Qed.

Lemma unique_nonempty (ar : list string) :
  ar <> [] -> fst (np.unique ar) <> [].
Proof.
  destruct ar as [| s ar]; [congruence |]; intros _ E.
  assert (H : In s (fst (np.unique (s :: ar))))
    by (apply unique_In; left; reflexivity).
  rewrite E in H; exact H.
Qed.

(** ** The preparation of the active set *)

Lemma set_active_same (st : State) :
  set_active (active_candidates st) (active_targets st) (active_seqs st) st
  = st.
Proof. destruct st; reflexivity. Qed.

Section ActiveSet.

Variable is_feasible : Candidate -> bool.
Variable cfg : Config.

Lemma contract_inr (round_idx : nat) (st st' : State) :
  contract cfg round_idx st = inr st' ->
  exists c t s,
    st' = set_active c t s st
    /\ length c <= length (active_candidates st).
Proof.
  unfold contract.
  destruct (_ && _).
  - intro H; bind_inv H; destruct x as [c t]; inversion H; subst.
    exists c, t, (map mutant_residue_seq c); split; [reflexivity |].
    apply (pareto_frontier_lengths _ _ _ Hx).
  - intro H; inversion H; subst.
    exists (active_candidates st'), (active_targets st'), (active_seqs st').
    rewrite set_active_same; auto.
Qed.

Lemma backtrack_augment_inr (draw : list nat) (st st' : State) :
  backtrack_augment cfg draw st = inr st' ->
  exists c t s,
    st' = set_active (active_candidates st ++ c) (active_targets st ++ t)
            (active_seqs st ++ s) st
    /\ length (active_candidates st ++ c)
       <= Nat.max (batch_size cfg) (length (active_candidates st)).
Proof.
  unfold backtrack_augment.
  destruct (length (active_candidates st) <? batch_size cfg) eqn:Elt.
  - apply Nat.ltb_lt in Elt.
    intro H; bind_inv H; bind_inv H; bind_inv H.
    destruct (0 <? length x1).
    + bind_inv H; bind_inv H; bind_inv H; inversion H; subst; clear H.
      exists x2, x3, x4; split; [reflexivity |].
      apply fancy_index_length in Hx2.
      rewrite length_app, Hx2, length_firstn; lia.
    + inversion H; subst.
      exists [], [], []; rewrite !app_nil_r, set_active_same; split; auto; lia.
  - intro H; inversion H; subst.
    exists [], [], []; rewrite !app_nil_r, set_active_same; split; auto; lia.
Qed.

Lemma random_augment_inr (draw : list nat) (st st' : State) :
  random_augment cfg draw st = inr st' ->
  exists c t s,
    st' = set_active (active_candidates st ++ c) (active_targets st ++ t)
            (active_seqs st ++ s) st
    /\ length (active_candidates st ++ c)
       <= Nat.max (batch_size cfg) (length (active_candidates st)).
Proof.
  unfold random_augment.
  destruct (length (active_candidates st) <? batch_size cfg) eqn:Elt.
  - apply Nat.ltb_lt in Elt.
    intro H; bind_inv H; bind_inv H; bind_inv H.
    bind_inv H; bind_inv H; bind_inv H; inversion H; subst; clear H.
    exists x2, x3, x4; split; [reflexivity |].
    apply fancy_index_length in Hx2.
    rewrite length_app, Hx2, length_firstn; lia.
  - intro H; inversion H; subst.
    exists [], [], []; rewrite !app_nil_r, set_active_same; split; auto; lia.
Qed.

Lemma prepare_active_inr (round_idx : nat) (inp : RoundInput)
  (st st' : State) :
  prepare_active cfg round_idx inp st = inr st' ->
  exists c t s,
    st' = set_active c t s st
    /\ length c <= Nat.max (batch_size cfg) (length (active_candidates st)).
Proof.
  unfold prepare_active, augment; intro H.
  bind_inv H; bind_inv H.
  apply contract_inr in Hx; destruct Hx as (c1 & t1 & s1 & -> & L1).
  apply backtrack_augment_inr in Hx0;
    destruct Hx0 as (c2 & t2 & s2 & -> & L2).
  apply random_augment_inr in H; destruct H as (c3 & t3 & s3 & -> & L3).
  simpl in *.
  eexists _, _, _; split; [reflexivity |]; lia.
Qed.

End ActiveSet.

(** ** Prefixes *)

Lemma firstn_incl {A : Type} (n : nat) (l : list A) : incl (firstn n l) l.
Proof.
  intros x Hx; rewrite <- (firstn_skipn n l).
  apply in_or_app; left; exact Hx.
Qed.

Lemma firstn_NoDup {A : Type} (n : nat) (l : list A) :
  NoDup l -> NoDup (firstn n l).
Proof.
  intro H; rewrite <- (firstn_skipn n l) in H.
  exact (NoDup_app_remove_r _ _ H).
Qed.

(** ** Augmentation under a without-replacement draw *)

Lemma not_active_mask (seqs active : list string) (draw : list nat) :
  np.mask_filter
    (map negb
       (np.in1d (map (fun i => nth i seqs ""%string) draw) active false))
    draw
  = not_active seqs active draw.
Proof.
  unfold np.in1d, not_active; rewrite !map_map.
  rewrite (mask_filter_map_pred
             (fun i => negb (xorb false
                (existsb (String.eqb (nth i seqs ""%string)) active)))).
  apply filter_ext; intro i; rewrite xorb_false_l; reflexivity.
Qed.

Lemma not_active_incl (seqs active : list string) (draw : list nat) :
  incl (not_active seqs active draw) draw.
Proof. apply incl_filter. Qed.

Lemma not_active_spec (seqs active : list string) (draw : list nat) (i : nat) :
  In i (not_active seqs active draw)
  <-> In i draw /\ ~ In (nth i seqs ""%string) active.
Proof.
  unfold not_active; rewrite filter_In, negb_true_iff.
  rewrite <- existsb_eqb_In, not_true_iff_false; reflexivity.
Qed.

(** Distinct indices into an array of distinct sequences can hit at most
    [length active] active sequences. *)
Lemma not_active_length (seqs active : list string) (draw : list nat) :
  NoDup seqs -> NoDup draw -> Forall (fun i => i < length seqs) draw ->
  length draw <= length (not_active seqs active draw) + length active.
Proof.
  intros Hseqs Hdraw Hlt.
  set (f := fun i => negb (existsb (String.eqb (nth i seqs ""%string)) active)).
  pose proof (filter_length f draw) as Hlen.
  change (not_active seqs active draw) with (filter f draw).
  set (hit := filter (fun i => negb (f i)) draw) in *.
  assert (Hhit : length hit <= length active).
  { rewrite <- (length_map (fun i => nth i seqs ""%string) hit).
    apply NoDup_incl_length.
    - apply NoDup_map_NoDup_ForallPairs; [| apply NoDup_filter, Hdraw].
      intros i j Hi Hj E.
      apply filter_In in Hi, Hj.
      rewrite Forall_forall in Hlt.
      apply (proj1 (NoDup_nth seqs ""%string) Hseqs); auto; apply Hlt; tauto.
    - intros s Hs; apply in_map_iff in Hs; destruct Hs as (i & <- & Hi).
      apply filter_In in Hi; destruct Hi as [_ Hi].
      unfold f in Hi; rewrite negb_involutive in Hi.
      apply existsb_eqb_In; exact Hi. }
  lia.
Qed.

Section Augmentation.

Variable cfg : Config.

Lemma random_choice_capped (n : nat) (draw : list nat) :
  np.random_choice n (Nat.min (batch_size cfg) n) draw = inr draw.
Proof.
  unfold np.random_choice.
  destruct (n <? Nat.min (batch_size cfg) n) eqn:E; [| reflexivity].
  apply Nat.ltb_lt in E; lia.
Qed.

Lemma backtrack_augment_valid (draw : list nat) (st : State) :
  length (active_candidates st) < batch_size cfg ->
  length (pareto_seq_history st) = length (pareto_cand_history st) ->
  length (pareto_target_history st) = length (pareto_cand_history st) ->
  np.valid_draw (length (pareto_cand_history st))
    (Nat.min (batch_size cfg) (length (pareto_cand_history st))) draw ->
  let fresh := not_active (pareto_seq_history st) (active_seqs st) draw in
  let idxs :=
    firstn (Nat.min (Nat.min (batch_size cfg) (length (pareto_cand_history st)))
                    (batch_size cfg - length (active_candidates st))) fresh in
  backtrack_augment cfg draw st
  = inr (if 0 <? length fresh then
           set_active
             (active_candidates st
              ++ map (fun i => nth i (pareto_cand_history st) no_candidate) idxs)
             (active_targets st
              ++ map (fun i => nth i (pareto_target_history st) ([] : ObjVec))
                     idxs)
             (active_seqs st
              ++ map (fun i => nth i (pareto_seq_history st) ""%string) idxs)
             st
         else st).
Proof.
  intros Hlt Hs Ht (Hlen & Hnd & Hrange) fresh idxs.
  unfold backtrack_augment.
  apply Nat.ltb_lt in Hlt; rewrite Hlt.
  rewrite random_choice_capped; simpl.
  rewrite (fancy_index_ok ""%string) by (rewrite Hs; exact Hrange); simpl.
  rewrite mask_index_ok
    by (rewrite length_map, in1d_length, length_map; reflexivity).
  simpl; rewrite not_active_mask; fold fresh.
  destruct (0 <? length fresh); [| reflexivity].
  fold idxs.
  assert (Hidx : Forall (fun i => i < length (pareto_cand_history st)) idxs).
  { apply Forall_forall; intros i Hi.
    rewrite Forall_forall in Hrange; apply Hrange.
    apply (not_active_incl (pareto_seq_history st) (active_seqs st)).
    exact (firstn_incl _ _ i Hi). }
  rewrite (fancy_index_ok no_candidate) by exact Hidx; simpl.
  rewrite (fancy_index_ok ([] : ObjVec)) by (rewrite Ht; exact Hidx); simpl.
  rewrite (fancy_index_ok ""%string) by (rewrite Hs; exact Hidx); simpl.
  reflexivity.
Qed.

End Augmentation.

(** C4.  With [batch_size = 5], two active candidates, a history of ten
    entries with distinct sequences and a pool of fifty, augmentation always
    succeeds and leaves exactly five active candidates: the two it started
    from followed by three history entries, taken in the order of the draw
    among those whose sequence is not active; nothing is drawn from the
    pool. *)
Theorem augmentation_scenario (cfg : Config) (inp : RoundInput) (st : State) :
  batch_size cfg = 5 ->
  length (active_candidates st) = 2 ->
  length (active_seqs st) = 2 ->
  length (pareto_cand_history st) = 10 ->
  length (pareto_seq_history st) = 10 ->
  length (pareto_target_history st) = 10 ->
  NoDup (pareto_seq_history st) ->
  length (pool_candidates st) = 50 ->
  np.valid_draw 10 5 (hist_draw inp) ->
  exists idxs st',
    augment cfg inp st = inr st'
    /\ length (active_candidates st') = 5
    /\ idxs = firstn 3 (not_active (pareto_seq_history st) (active_seqs st)
                          (hist_draw inp))
    /\ length idxs = 3
    /\ NoDup idxs
    /\ Forall (fun i => i < 10
                 /\ ~ In (nth i (pareto_seq_history st) ""%string)
                         (active_seqs st)) idxs
    /\ active_candidates st'
       = active_candidates st
         ++ map (fun i => nth i (pareto_cand_history st) no_candidate) idxs
    /\ active_targets st'
       = active_targets st
         ++ map (fun i => nth i (pareto_target_history st) ([] : ObjVec)) idxs
    /\ active_seqs st'
       = active_seqs st
         ++ map (fun i => nth i (pareto_seq_history st) ""%string) idxs.
Proof.
  intros Hbs Hac Has Hhc Hhs Hht Hnd _ Hdraw.
  set (fresh := not_active (pareto_seq_history st) (active_seqs st)
                  (hist_draw inp)).
  assert (Hfresh : 3 <= length fresh).
  { destruct Hdraw as (Hlen & Hnd' & Hrange).
    pose proof (@not_active_length (pareto_seq_history st) (active_seqs st)
                  (hist_draw inp) Hnd Hnd') as H.
    rewrite Hhs in H; specialize (H Hrange).
    fold fresh in H; lia. }
  assert (Hlen3 : length (firstn 3 fresh) = 3)
    by (rewrite length_firstn; lia).
  pose proof (@backtrack_augment_valid cfg (hist_draw inp) st) as Hb.
  rewrite Hbs, Hac, Hhc in Hb.
  specialize (Hb ltac:(lia) Hhs Hht Hdraw).
  cbv zeta in Hb; fold fresh in Hb.
  change (Nat.min (Nat.min 5 10) (5 - 2)) with 3 in Hb.
  destruct (0 <? length fresh) eqn:E; [| apply Nat.ltb_ge in E; lia].
  assert (Hnd3 : NoDup (firstn 3 fresh))
    by (apply firstn_NoDup, NoDup_filter; apply Hdraw).
  assert (Hin3 : incl (firstn 3 fresh) fresh) by apply firstn_incl.
  remember (firstn 3 fresh) as idxs eqn:Hidxs.
  exists idxs; eexists; split.
  { unfold augment; rewrite Hb; simpl.
    unfold random_augment; simpl.
    rewrite length_app, length_map, Hac, Hlen3, Hbs; reflexivity. }
  simpl.
  split; [rewrite length_app, length_map, Hac, Hlen3; reflexivity |].
  split; [reflexivity |].
  split; [exact Hlen3 |].
  split; [exact Hnd3 |].
  split; [| auto].
  apply Forall_forall; intros i Hi.
  apply Hin3, not_active_spec in Hi.
  destruct Hi as [Hi Hna]; split; [| exact Hna].
  destruct Hdraw as (_ & _ & Hrange).
  rewrite Forall_forall in Hrange; auto.
Qed.

(** ** The sampler's error is never raised *)

Create HintDb never discriminated.

Lemma never_ret {A : Type} (a : A) : never_insufficient (ret a).
Proof. discriminate. Qed.

Lemma never_bind {A B : Type} (m : result A) (k : A -> result B) :
  never_insufficient m -> (forall a, never_insufficient (k a)) ->
  never_insufficient (bind m k).
Proof.
  unfold never_insufficient; destruct m as [e | a]; simpl; auto.
  intros H _ E; apply H; inversion E; reflexivity.
Qed.

Lemma never_mapM {A B : Type} (f : A -> result B) (l : list A) :
  (forall a, never_insufficient (f a)) -> never_insufficient (mapM f l).
Proof.
  intro Hf; induction l as [| a l IH]; simpl.
  - apply never_ret.
  - apply never_bind; [apply Hf | intro b].
    apply never_bind; [exact IH | intro bs; apply never_ret].
Qed.

Lemma never_mask_index {A : Type} (xs : list A) (mask : list bool) :
  never_insufficient (np.mask_index xs mask).
Proof.
  unfold np.mask_index; destruct (_ =? _); discriminate.
Qed.

Lemma never_fancy_index {A : Type} (xs : list A) (idxs : list nat) :
  never_insufficient (np.fancy_index xs idxs).
Proof.
  apply never_mapM; intro i; destruct (nth_error xs i); discriminate.
Qed.

Lemma never_random_choice_capped (cfg : Config) (n : nat) (draw : list nat) :
  never_insufficient
    (np.random_choice n (Nat.min (batch_size cfg) n) draw).
Proof. rewrite random_choice_capped; discriminate. Qed.

Lemma never_pareto_frontier {A : Type} (pool : list A) (vals : list ObjVec)
  (maximize : bool) :
  never_insufficient (pareto_frontier pool vals maximize).
Proof.
  unfold pareto_frontier.
  destruct (negb _); [discriminate |].
  destruct (_ =? 1); [discriminate |].
  apply never_bind; [apply never_mask_index | intro c].
  apply never_bind; [apply never_mask_index | intro o; apply never_ret].
Qed.

Lemma never_obj_vals_table (cfg : Config) (targets : list ObjVec) :
  never_insufficient (obj_vals_table cfg targets).
Proof.
  apply never_mapM; intro i.
  apply never_bind.
  - apply never_mapM; intro row; destruct (nth_error row i); discriminate.
  - intros [| z col]; discriminate.
Qed.

#[local] Hint Resolve never_ret never_mask_index never_fancy_index
  never_random_choice_capped never_pareto_frontier never_obj_vals_table
  : never.

(** One step through a computation: a [bind], a branch or a pattern. *)
Ltac never_step :=
  match goal with
  | |- never_insufficient (bind _ _) => apply never_bind; [| intro]
  | |- never_insufficient (if ?b then _ else _) => destruct b
  | |- never_insufficient (match ?p with (_, _) => _ end) => destruct p
  | |- never_insufficient (inr _) => discriminate
  | |- never_insufficient _ => solve [auto with never]
  end.

Section NeverInsufficient.

Variable is_feasible : Candidate -> bool.
Variable cfg : Config.

Lemma never_contract (round_idx : nat) (st : State) :
  never_insufficient (contract cfg round_idx st).
Proof. unfold contract; repeat never_step. Qed.

Lemma never_backtrack_augment (draw : list nat) (st : State) :
  never_insufficient (backtrack_augment cfg draw st).
Proof. unfold backtrack_augment; repeat never_step. Qed.

Lemma never_random_augment (draw : list nat) (st : State) :
  never_insufficient (random_augment cfg draw st).
Proof. unfold random_augment; repeat never_step. Qed.

Lemma never_absorb (round_idx : nat) (inp : RoundInput) (st : State) :
  never_insufficient (absorb is_feasible cfg round_idx inp st).
Proof. unfold absorb, _log_optimizer_metrics; repeat never_step. Qed.

Lemma never_round (round_idx : nat) (inp : RoundInput) (st : State) :
  never_insufficient (round is_feasible cfg round_idx inp st).
Proof.
  unfold round, prepare_active, augment.
  repeat never_step;
    auto using never_contract, never_backtrack_augment,
      never_random_augment, never_absorb.
Qed.

Lemma never_rounds (env : nat -> RoundInput) (n first : nat) (st : State) :
  never_insufficient (rounds is_feasible cfg env n first st).
Proof.
  revert first st; induction n as [| n IH]; intros first st; simpl.
  - apply never_ret.
  - apply never_bind; [apply never_round | intro st'; apply IH].
Qed.

Lemma never_init (candidate_pool : list Candidate) (pool_targets0 : list ObjVec)
  (all_seqs0 : list string) (all_targets0 : list ObjVec) :
  never_insufficient
    (init is_feasible cfg candidate_pool pool_targets0 all_seqs0 all_targets0).
Proof. unfold init, _log_optimizer_metrics; repeat never_step. Qed.

End NeverInsufficient.

(** C10.  Both augmentation steps ask the sampler for
    [min batch_size n] indices out of a population of [n], a request the
    sampler always serves; hence neither step, nor any run of [optimize],
    ends in the sampler's error. *)
Theorem sampler_error_unreachable (is_feasible : Candidate -> bool)
  (cfg : Config) :
  (forall n draw,
      Nat.min (batch_size cfg) n <= n
      /\ np.random_choice n (Nat.min (batch_size cfg) n) draw = inr draw)
  /\ (forall draw st,
         backtrack_augment cfg draw st <> inl InsufficientPopulationError)
  /\ (forall draw st,
         random_augment cfg draw st <> inl InsufficientPopulationError)
  /\ (forall env candidate_pool pool_targets0 all_seqs0 all_targets0,
         optimize is_feasible cfg env candidate_pool pool_targets0 all_seqs0
           all_targets0
         <> inl InsufficientPopulationError).
Proof.
  split; [intros n draw; split; [lia | apply random_choice_capped] |].
  split; [exact (never_backtrack_augment cfg) |].
  split; [exact (never_random_augment cfg) |].
  intros env candidate_pool pool_targets0 all_seqs0 all_targets0.
  unfold optimize, run, state_after.
  apply never_bind; [| intro st; apply never_ret].
  apply never_bind; [apply never_init | intro st; apply never_rounds].
Qed.

(** ** What a round does with the proposals *)

Ltac bind_inv_as H x Hx :=
  apply bind_inr in H; destruct H as (x & Hx & H).

Lemma fancy_index_seqs (cands : list Candidate) (idxs : list nat)
  (sel : list Candidate) (u : list string) :
  np.fancy_index cands idxs = inr sel ->
  Forall2 (fun i s => nth_error (map mutant_residue_seq cands) i = Some s)
    idxs u ->
  map mutant_residue_seq sel = u.
Proof.
  intro H; apply fancy_index_inr in H.
  revert u; induction H as [| i c idxs sel Hi _ IH]; intros u Hu;
    inversion Hu; subst; simpl; [reflexivity |].
  f_equal; [| apply IH; assumption].
  match goal with
  | E : nth_error (map _ _) i = Some _ |- _ =>
      rewrite nth_error_map, Hi in E; simpl in E; inversion E; reflexivity
  end.
Qed.

Section Absorb.

Variable is_feasible : Candidate -> bool.
Variable cfg : Config.

Lemma absorb_inr (round_idx : nat) (inp : RoundInput) (st st' : State) :
  absorb is_feasible cfg round_idx inp st = inr st' ->
  let st1 := set_total_bb_evals (total_bb_evals st + bb_evals inp) st in
  st' = emit [PrintNoNewCandidates round_idx] st1
  \/ st' = emit [LogMetrics (mkMetrics round_idx (norm_pareto_targets st)
                               (total_bb_evals st + bb_evals inp))]
             (emit [PrintNoNewCandidates round_idx] st1)
  \/ exists new_c new_t new_s pareto_c pareto_t,
       new_c <> []
       /\ length new_t = length new_c
       /\ length new_s = length new_c
       /\ NoDup new_s
       /\ (forall s, In s new_s -> ~ In s (all_seqs st))
       /\ (X_seq inp = map mutant_residue_seq (X_cand inp) ->
           new_s = map mutant_residue_seq new_c)
       /\ pareto_frontier (pareto_candidates st ++ new_c)
            (pareto_targets st ++ new_t) false = inr (pareto_c, pareto_t)
       /\ st' = accepted round_idx new_c new_t new_s pareto_c pareto_t st1.
Proof.
  intros H st1; unfold absorb in H; fold st1 in H.
  bind_inv_as H seqs1 Hseqs1.
  bind_inv_as H cands1 Hcands1.
  bind_inv_as H targets1 Htargets1.
  destruct (length cands1 =? 0) eqn:E1.
  { left; inversion H; reflexivity. }
  destruct (np.unique seqs1) as [u idxs] eqn:Eu.
  bind_inv_as H cands2 Hcands2.
  bind_inv_as H targets2 Htargets2.
  bind_inv_as H new_s Hnew_s.
  bind_inv_as H new_c Hnew_c.
  bind_inv_as H new_t Hnew_t.
  destruct (length new_c =? 0) eqn:E2.
  { right; left; inversion H; reflexivity. }
  right; right.
  bind_inv_as H front Hfront; destruct front as [pareto_c pareto_t].
  bind_inv_as H tab1 Htab1.
  bind_inv_as H tab2 Htab2.
  bind_inv_as H hist_c Hhist_c.
  bind_inv_as H hist_s Hhist_s.
  bind_inv_as H hist_t Hhist_t.
  apply mask_index_inr in Hnew_s, Hnew_c, Hnew_t, Hhist_c, Hhist_s, Hhist_t.
  destruct Hnew_s as [Ls ->], Hnew_c as [Lc ->], Hnew_t as [Lt ->].
  destruct Hhist_c as [_ ->], Hhist_s as [_ ->], Hhist_t as [_ ->].
  set (is_new := np.in1d u (all_seqs st1) true) in *.
  exists (np.mask_filter is_new cands2), (np.mask_filter is_new targets2),
    (np.mask_filter is_new u), pareto_c, pareto_t.
  assert (Hu : NoDup u)
    by (change u with (fst (u, idxs)); rewrite <- Eu; apply unique_NoDup).
  assert (Hfilter : np.mask_filter is_new u
                    = filter (fun s => negb (existsb (String.eqb s)
                                               (all_seqs st))) u).
  { unfold is_new; rewrite <- (map_id u) at 1.
    rewrite (in1d_invert_filter (fun s => s)); reflexivity. }
  split; [intro E; rewrite E in E2; discriminate |].
  split; [rewrite !mask_filter_length by congruence; reflexivity |].
  split; [rewrite !mask_filter_length by congruence; reflexivity |].
  split; [rewrite Hfilter; apply NoDup_filter, Hu |].
  split.
  { intros s Hs; rewrite Hfilter in Hs; apply filter_In in Hs.
    destruct Hs as [_ Hs]; apply negb_true_iff in Hs.
    rewrite <- existsb_eqb_In, Hs; discriminate. }
  split.
  { intro Halign.
    rewrite <- mask_filter_map; f_equal; symmetry.
    apply (fancy_index_seqs _ Hcands2).
    apply mask_index_inr in Hseqs1, Hcands1.
    destruct Hseqs1 as [_ ->], Hcands1 as [_ ->].
    rewrite <- mask_filter_map, <- Halign.
    pose proof (unique_indices
                  (np.mask_filter (map is_feasible (X_cand inp)) (X_seq inp)))
      as Hidx.
    rewrite Eu in Hidx; exact Hidx. }
  split; [exact Hfront |].
  inversion H; subst st'; clear H.
  unfold accepted, _log_optimizer_metrics, safe_np_cat; simpl.
  reflexivity.
Qed.

End Absorb.

(** ** Rounds *)

Lemma NoDup_filter_mask_filter {A : Type} (q : A -> bool) (mask : list bool)
  (l : list A) :
  NoDup (filter q l) -> NoDup (filter q (np.mask_filter mask l)).
Proof.
  revert l; induction mask as [| b mask IH]; intros [| x l]; simpl;
    try constructor.
  intro H.
  assert (Hl : NoDup (filter q l))
    by (destruct (q x); [inversion H |]; assumption).
  destruct b; simpl; [| auto].
  destruct (q x) eqn:Eq; [| auto].
  constructor; [| auto].
  inversion H as [| ? ? Hnin _]; subst.
  intro Hin; apply Hnin.
  apply filter_In in Hin; apply filter_In; split; [| tauto].
  apply (mask_filter_In mask); tauto.
Qed.

Lemma NoDup_mask_filter {A : Type} (mask : list bool) (l : list A) :
  NoDup l -> NoDup (np.mask_filter mask l).
Proof.
  intro H.
  pose proof (@NoDup_filter_mask_filter A (fun _ => true) mask l) as Hq.
  assert (Hid : forall l' : list A, filter (fun _ => true) l' = l').
  { induction l' as [| x l' IH]; simpl; [| rewrite IH]; reflexivity. }
  rewrite !Hid in Hq; auto.
Qed.

Section Rounds.

Variable is_feasible : Candidate -> bool.
Variable cfg : Config.

Lemma round_inr (round_idx : nat) (inp : RoundInput) (st st' : State) :
  round is_feasible cfg round_idx inp st = inr st' ->
  exists c t s,
    length c <= Nat.max (batch_size cfg) (length (active_candidates st))
    /\ absorb is_feasible cfg round_idx inp
         (emit [InnerOptimize round_idx] (set_active c t s st)) = inr st'.
Proof.
  unfold round; intro H; bind_inv H.
  apply prepare_active_inr in Hx; destruct Hx as (c & t & s & -> & Hle).
  exists c, t, s; auto.
Qed.

Lemma rounds_snoc (env : nat -> RoundInput) (k first : nat) (st : State) :
  rounds is_feasible cfg env (S k) first st
  = bind (rounds is_feasible cfg env k first st)
         (round is_feasible cfg (first + k) (env (first + k))).
Proof.
  revert first st; induction k as [| k IH]; intros first st.
  - simpl; rewrite Nat.add_0_r.
    destruct (round is_feasible cfg first (env first) st); reflexivity.
  - change (rounds is_feasible cfg env (S (S k)) first st)
      with (bind (round is_feasible cfg first (env first) st)
                 (rounds is_feasible cfg env (S k) (S first))).
    change (rounds is_feasible cfg env (S k) first st)
      with (bind (round is_feasible cfg first (env first) st)
                 (rounds is_feasible cfg env k (S first))).
    destruct (round is_feasible cfg first (env first) st) as [e | st1];
      [reflexivity |]; cbn [bind].
    rewrite IH; replace (S first + k) with (first + S k) by lia.
    reflexivity.
Qed.

Lemma state_after_succ (env : nat -> RoundInput)
  (candidate_pool : list Candidate) (pool_targets0 : list ObjVec)
  (all_seqs0 : list string) (all_targets0 : list ObjVec) (k : nat)
  (st st' : State) :
  state_after is_feasible cfg env candidate_pool pool_targets0 all_seqs0
    all_targets0 k = inr st ->
  state_after is_feasible cfg env candidate_pool pool_targets0 all_seqs0
    all_targets0 (S k) = inr st' ->
  round is_feasible cfg (S k) (env (S k)) st = inr st'.
Proof.
  unfold state_after; intros Hk HS.
  bind_inv Hk; bind_inv HS.
  rewrite Hx in Hx0; inversion Hx0; subst x0.
  rewrite rounds_snoc, Hk in HS; exact HS.
Qed.

End Rounds.

(** ** The Pareto history *)

Section History.

Variable is_feasible : Candidate -> bool.
Variable cfg : Config.

Lemma init_inr (candidate_pool : list Candidate) (pool_targets0 : list ObjVec)
  (all_seqs0 : list string) (all_targets0 : list ObjVec) (st : State) :
  init is_feasible cfg candidate_pool pool_targets0 all_seqs0 all_targets0
  = inr st ->
  exists pareto_c pareto_t,
    pareto_frontier (filter is_feasible candidate_pool)
      (np.mask_filter (map is_feasible candidate_pool) pool_targets0) true
    = inr (pareto_c, pareto_t)
    /\ pool_candidates st = filter is_feasible candidate_pool
    /\ pool_targets st
       = np.mask_filter (map is_feasible candidate_pool) pool_targets0
    /\ pareto_candidates st = pareto_c
    /\ pareto_targets st = pareto_t
    /\ pareto_cand_history st = pareto_c
    /\ pareto_seq_history st = map mutant_residue_seq pareto_c
    /\ pareto_target_history st = pareto_t
    /\ metrics st = mkMetrics 0 pareto_t 0.
Proof.
  unfold init; intro H.
  bind_inv_as H pool_c Hpool_c.
  bind_inv_as H pool_t Hpool_t.
  bind_inv_as H front Hfront; destruct front as [pareto_c pareto_t].
  bind_inv_as H tab Htab.
  apply mask_index_inr in Hpool_c, Hpool_t.
  destruct Hpool_c as [_ ->], Hpool_t as [_ ->].
  rewrite mask_filter_map_pred in *.
  inversion H; subst st; clear H; simpl.
  exists pareto_c, pareto_t; repeat split; auto.
Qed.

Lemma init_history_invariant (candidate_pool : list Candidate)
  (pool_targets0 : list ObjVec) (all_seqs0 : list string)
  (all_targets0 : list ObjVec) (st : State) :
  init is_feasible cfg candidate_pool pool_targets0 all_seqs0 all_targets0
  = inr st ->
  NoDup (map mutant_residue_seq (filter is_feasible candidate_pool)) ->
  history_invariant st.
Proof.
  intros H Hnd; apply init_inr in H.
  destruct H as (pc & pt & Hf & _ & _ & Hc & _ & _ & Hs & _).
  unfold history_invariant; rewrite Hc, Hs; split; [| apply incl_refl].
  apply pareto_frontier_inr in Hf; simpl in Hf.
  destruct Hf as (_ & -> & _).
  rewrite <- mask_filter_map; apply NoDup_mask_filter, Hnd.
Qed.

Lemma round_history (round_idx : nat) (inp : RoundInput) (st st' : State) :
  round is_feasible cfg round_idx inp st = inr st' ->
  (exists hist_c hist_s hist_t,
      pareto_cand_history st' = pareto_cand_history st ++ hist_c
      /\ pareto_seq_history st' = pareto_seq_history st ++ hist_s
      /\ pareto_target_history st' = pareto_target_history st ++ hist_t
      /\ ((hist_c = [] /\ hist_s = [] /\ hist_t = []
           /\ pareto_candidates st' = pareto_candidates st)
          \/ (hist_c = np.mask_filter
                         (np.in1d (pareto_seqs st') (pareto_seq_history st)
                            true) (pareto_candidates st')
              /\ hist_s = np.mask_filter
                            (np.in1d (pareto_seqs st') (pareto_seq_history st)
                               true) (pareto_seqs st')
              /\ hist_t = np.mask_filter
                            (np.in1d (pareto_seqs st') (pareto_seq_history st)
                               true) (pareto_targets st')
              /\ (forall s, In s hist_s <->
                            In s (pareto_seqs st')
                            /\ ~ In s (pareto_seq_history st)))))
  /\ (proposals_consistent inp -> history_invariant st ->
      history_invariant st').
Proof.
  intro H; apply round_inr in H; destruct H as (c & t & s & _ & H).
  apply absorb_inr in H; simpl in H.
  destruct H as [-> | [-> | H]].
  - split; [| auto].
    exists [], [], []; simpl; rewrite !app_nil_r; auto 10.
  - split; [| auto].
    exists [], [], []; simpl; rewrite !app_nil_r; auto 10.
  - destruct H as (new_c & new_t & new_s & pareto_c & pareto_t
                   & _ & _ & _ & Hnd & _ & Halign & Hfront & ->).
    simpl.
    set (M := np.in1d (map mutant_residue_seq pareto_c)
                (pareto_seq_history st) true).
    assert (HM : np.mask_filter M (map mutant_residue_seq pareto_c)
                 = filter (fun s => negb (existsb (String.eqb s)
                                            (pareto_seq_history st)))
                     (map mutant_residue_seq pareto_c)).
    { unfold M; rewrite <- (map_id (map mutant_residue_seq pareto_c)) at 1.
      rewrite (in1d_invert_filter (fun s => s)); reflexivity. }
    assert (Hin : forall s,
               In s (np.mask_filter M (map mutant_residue_seq pareto_c))
               <-> In s (map mutant_residue_seq pareto_c)
                   /\ ~ In s (pareto_seq_history st)).
    { intro s0; rewrite HM, filter_In, negb_true_iff.
      rewrite <- (existsb_eqb_In s0 (pareto_seq_history st)).
      rewrite not_true_iff_false; reflexivity. }
    split.
    + eexists _, _, _.
      do 3 (split; [reflexivity |]).
      right; do 3 (split; [reflexivity |]); exact Hin.
    + intros Hcons [Hnd_hist Hincl]; unfold history_invariant; simpl.
      fold M.
      specialize (Halign Hcons); subst new_s.
      apply pareto_frontier_inr in Hfront; simpl in Hfront.
      destruct Hfront as (_ & Hpc & _).
      split.
      * apply NoDup_app; [exact Hnd_hist | | ].
        -- rewrite HM, Hpc, <- mask_filter_map.
           apply NoDup_filter_mask_filter.
           rewrite map_app, filter_app.
           replace (filter _ (map mutant_residue_seq (pareto_candidates st)))
             with (@nil string); [simpl; apply NoDup_filter, Hnd |].
           symmetry.
           induction (map mutant_residue_seq (pareto_candidates st))
             as [| x l IH]; simpl; [reflexivity |].
           assert (Hx : existsb (String.eqb x) (pareto_seq_history st) = true)
             by (apply existsb_eqb_In, Hincl; left; reflexivity).
           rewrite Hx; simpl; apply IH.
           intros y Hy; apply Hincl; right; exact Hy.
        -- intros a Ha Hb; apply Hin in Hb; tauto.
      * intros s0 Hs0.
        destruct (in_dec string_dec s0 (pareto_seq_history st)) as [Hi | Hn];
          apply in_or_app; [left; exact Hi | right].
        apply Hin; auto.
Qed.

End History.

Section Runs.

Variable is_feasible : Candidate -> bool.
Variable cfg : Config.
Variable env : nat -> RoundInput.
Variable candidate_pool : list Candidate.
Variable pool_targets0 : list ObjVec.
Variable all_seqs0 : list string.
Variable all_targets0 : list ObjVec.

Let after (k : nat) : result State :=
  state_after is_feasible cfg env candidate_pool pool_targets0 all_seqs0
    all_targets0 k.

Lemma state_after_0 (st : State) :
  after 0 = inr st ->
  init is_feasible cfg candidate_pool pool_targets0 all_seqs0 all_targets0
  = inr st.
Proof.
  unfold after, state_after; intro H; bind_inv H.
  simpl in H; inversion H; subst; exact Hx.
Qed.

Lemma state_after_S (k : nat) (st' : State) :
  after (S k) = inr st' ->
  exists st,
    after k = inr st
    /\ round is_feasible cfg (S k) (env (S k)) st = inr st'.
Proof.
  unfold after, state_after; intro H; bind_inv H.
  rewrite rounds_snoc in H; bind_inv H.
  exists x0; rewrite Hx; simpl; auto.
Qed.

Lemma state_after_history_invariant (k : nat) (st : State) :
  NoDup (map mutant_residue_seq (filter is_feasible candidate_pool)) ->
  (forall r, proposals_consistent (env r)) ->
  after k = inr st -> history_invariant st.
Proof.
  intros Hnd Hcons; revert st; induction k as [| k IH]; intros st H.
  - apply state_after_0 in H.
    exact (init_history_invariant _ _ _ _ _ _ H Hnd).
  - apply state_after_S in H; destruct H as (st0 & H0 & H).
    apply round_history in H; destruct H as [_ H].
    apply H; [apply Hcons | apply IH; exact H0].
Qed.

End Runs.

(** C6.  From one round to the next the Pareto history only grows at its
    end: nothing is removed and its size does not decrease.  A round
    appends either nothing or exactly the entries of the new frontier whose
    sequence is not in the history yet.  When the feasible candidates of the
    initial pool have distinct sequences and every proposal batch carries
    the sequences of its candidates, the history never holds two entries
    with the same sequence. *)
Theorem pareto_history_grows_without_duplicates
  (is_feasible : Candidate -> bool) (cfg : Config) (env : nat -> RoundInput)
  (candidate_pool : list Candidate) (pool_targets0 : list ObjVec)
  (all_seqs0 : list string) (all_targets0 : list ObjVec)
  (k : nat) (st st' : State) :
  state_after is_feasible cfg env candidate_pool pool_targets0 all_seqs0
    all_targets0 k = inr st ->
  state_after is_feasible cfg env candidate_pool pool_targets0 all_seqs0
    all_targets0 (S k) = inr st' ->
  (exists hist_c hist_s hist_t,
      pareto_cand_history st' = pareto_cand_history st ++ hist_c
      /\ pareto_seq_history st' = pareto_seq_history st ++ hist_s
      /\ pareto_target_history st' = pareto_target_history st ++ hist_t
      /\ ((hist_c = [] /\ hist_s = [] /\ hist_t = []
           /\ pareto_candidates st' = pareto_candidates st)
          \/ (hist_c = np.mask_filter
                         (np.in1d (pareto_seqs st') (pareto_seq_history st)
                            true) (pareto_candidates st')
              /\ hist_s = np.mask_filter
                            (np.in1d (pareto_seqs st') (pareto_seq_history st)
                               true) (pareto_seqs st')
              /\ hist_t = np.mask_filter
                            (np.in1d (pareto_seqs st') (pareto_seq_history st)
                               true) (pareto_targets st')
              /\ (forall s, In s hist_s <->
                            In s (pareto_seqs st')
                            /\ ~ In s (pareto_seq_history st)))))
  /\ length (pareto_cand_history st) <= length (pareto_cand_history st')
  /\ (NoDup (map mutant_residue_seq (filter is_feasible candidate_pool)) ->
      (forall r, proposals_consistent (env r)) ->
      NoDup (pareto_seq_history st) /\ NoDup (pareto_seq_history st')).
Proof.
  intros Hk HS.
  pose proof (state_after_succ _ _ _ _ _ _ _ _ Hk HS) as Hround.
  pose proof (round_history _ _ _ _ _ Hround) as [Hext Hinv].
  split; [exact Hext |]; split.
  - destruct Hext as (hc & _ & _ & -> & _); rewrite length_app; lia.
  - intros Hnd Hcons.
    pose proof (state_after_history_invariant
                  is_feasible cfg env candidate_pool pool_targets0
                  all_seqs0 all_targets0 k Hnd Hcons Hk) as Hst.
    split; [apply Hst |].
    apply Hinv; [apply Hcons | exact Hst].
Qed.

(** ** The direction of dominance *)

Lemma strictly_better_converse (a b : Z) :
  strictly_better false a b = strictly_better true b a.
Proof. simpl; rewrite Z.gtb_ltb; reflexivity. Qed.

Lemma better_or_equal_converse (a b : Z) :
  better_or_equal false a b = better_or_equal true b a.
Proof. simpl; rewrite Z.geb_leb; reflexivity. Qed.

(** Minimizing dominance is the converse of maximizing dominance. *)
Lemma spec_dominates_converse (w v : ObjVec) :
  spec_dominates false w v = spec_dominates true v w.
Proof.
  unfold spec_dominates.
  revert v; induction w as [| a w IH]; intros [| b v]; try reflexivity.
  cbn [combine forallb existsb fst snd].
  rewrite strictly_better_converse, better_or_equal_converse.
  specialize (IH v).
  destruct (better_or_equal true b a); [| reflexivity].
  destruct (strictly_better true b a).
  - cbn [andb orb]; rewrite !andb_true_r.
    clear IH; revert v; induction w as [| a' w IHw]; intros [| b' v];
      try reflexivity.
    cbn [combine forallb fst snd].
    rewrite better_or_equal_converse, IHw; reflexivity.
  - exact IH.
Qed.

Section Direction.

Variable is_feasible : Candidate -> bool.
Variable cfg : Config.

Lemma contract_spec (round_idx : nat) (st st' : State) :
  contract cfg round_idx st = inr st' ->
  (0 <? concentrate_pool cfg) && (round_idx mod concentrate_pool cfg =? 0)
  = true ->
  active_targets st' = spec_frontier false (active_targets st).
Proof.
  unfold contract; intros H Htrig; rewrite Htrig in H.
  bind_inv H; destruct x as [c t]; inversion H; subst; simpl.
  apply pareto_frontier_inr in Hx; simpl in Hx; tauto.
Qed.

Lemma round_contract (round_idx : nat) (inp : RoundInput) (st st' : State) :
  round is_feasible cfg round_idx inp st = inr st' ->
  exists st_c, contract cfg round_idx st = inr st_c.
Proof.
  unfold round, prepare_active; intro H; bind_inv H; bind_inv Hx; eauto.
Qed.

Lemma round_frontier (round_idx : nat) (inp : RoundInput) (st st' : State) :
  round is_feasible cfg round_idx inp st = inr st' ->
  exists new_t,
    pool_targets st' = pool_targets st ++ new_t
    /\ ((new_t = [] /\ pareto_targets st' = pareto_targets st)
        \/ (new_t <> []
            /\ pareto_targets st'
               = spec_frontier false (pareto_targets st ++ new_t))).
Proof.
  intro H; apply round_inr in H; destruct H as (c & t & s & _ & H).
  apply absorb_inr in H; simpl in H.
  destruct H as [-> | [-> | H]].
  - exists []; simpl; rewrite app_nil_r; auto.
  - exists []; simpl; rewrite app_nil_r; auto.
  - destruct H as (new_c & new_t & new_s & pareto_c & pareto_t
                   & Hne & Hlen & _ & _ & _ & _ & Hfront & ->).
    exists new_t; simpl; split; [reflexivity |]; right; split.
    + intro E; subst new_t; destruct new_c; [congruence | discriminate].
    + apply pareto_frontier_inr in Hfront; simpl in Hfront; tauto.
Qed.

End Direction.

(** C7.  Within one run, the frontier that seeds the history is the
    non-dominated subset of the feasible pool under maximization, whereas
    the contraction of the active set and the recomputation of the global
    frontier in a later round take the non-dominated subset under
    minimization, the converse dominance relation, of the same stored
    objective vectors. *)
Theorem frontier_direction_changes_within_a_run
  (is_feasible : Candidate -> bool) (cfg : Config) (env : nat -> RoundInput)
  (candidate_pool : list Candidate) (pool_targets0 : list ObjVec)
  (all_seqs0 : list string) (all_targets0 : list ObjVec)
  (k : nat) (st0 st st' : State) :
  state_after is_feasible cfg env candidate_pool pool_targets0 all_seqs0
    all_targets0 0 = inr st0 ->
  state_after is_feasible cfg env candidate_pool pool_targets0 all_seqs0
    all_targets0 k = inr st ->
  state_after is_feasible cfg env candidate_pool pool_targets0 all_seqs0
    all_targets0 (S k) = inr st' ->
  (pareto_targets st0 = spec_frontier true (pool_targets st0)
   /\ pareto_target_history st0 = spec_frontier true (pool_targets st0))
  /\ (exists st_c,
         contract cfg (S k) st = inr st_c
         /\ ((0 <? concentrate_pool cfg)
             && (S k mod concentrate_pool cfg =? 0) = true ->
             active_targets st_c = spec_frontier false (active_targets st)))
  /\ (exists new_t,
         pool_targets st' = pool_targets st ++ new_t
         /\ ((new_t = [] /\ pareto_targets st' = pareto_targets st)
             \/ (new_t <> []
                 /\ pareto_targets st'
                    = spec_frontier false (pareto_targets st ++ new_t))))
  /\ (forall w v, spec_dominates false w v = spec_dominates true v w).
Proof.
  intros H0 Hk HS.
  pose proof (state_after_succ _ _ _ _ _ _ _ _ Hk HS) as Hround.
  split; [| split; [| split]].
  - apply state_after_0, init_inr in H0.
    destruct H0 as (pc & pt & Hf & _ & Hpool & _ & Hpt & _ & _ & Hht & _).
    apply pareto_frontier_inr in Hf; simpl in Hf.
    destruct Hf as (_ & _ & Hspec).
    rewrite Hpt, Hht, Hpool; auto.
  - destruct (round_contract _ _ _ _ _ Hround) as (st_c & Hc).
    exists st_c; split; [exact Hc | apply (contract_spec _ _ _ Hc)].
  - exact (round_frontier _ _ _ _ _ Hround).
  - exact spec_dominates_converse.
Qed.

(** ** The rounds a run executes *)

Lemma inner_rounds_app (l1 l2 : list Event) :
  inner_rounds (l1 ++ l2) = inner_rounds l1 ++ inner_rounds l2.
Proof. apply flat_map_app. Qed.

Lemma inner_rounds_log_candidates (candidates : list Candidate)
  (targets : list ObjVec) (round_idx : nat) :
  inner_rounds (_log_candidates candidates targets round_idx) = [].
Proof.
  unfold _log_candidates.
  induction (combine candidates targets) as [| p l IH]; simpl; auto.
Qed.

Lemma filter_none {A : Type} (p : A -> bool) (l : list A) :
  Forall (fun a => p a = false) l -> filter p l = [].
Proof.
  induction 1 as [| a l Ha _ IH]; simpl; [| rewrite Ha]; auto.
Qed.

Section Executed.

Variable is_feasible : Candidate -> bool.
Variable cfg : Config.

Lemma init_inner_rounds (candidate_pool : list Candidate)
  (pool_targets0 : list ObjVec) (all_seqs0 : list string)
  (all_targets0 : list ObjVec) (st : State) :
  init is_feasible cfg candidate_pool pool_targets0 all_seqs0 all_targets0
  = inr st ->
  inner_rounds (trace st) = [].
Proof.
  unfold init; intro H.
  bind_inv H; bind_inv H; bind_inv H; destruct x1 as [pc pt]; bind_inv H.
  inversion H; subst st; simpl.
  rewrite inner_rounds_app, inner_rounds_log_candidates; reflexivity.
Qed.

Lemma round_inner_rounds (round_idx : nat) (inp : RoundInput)
  (st st' : State) :
  round is_feasible cfg round_idx inp st = inr st' ->
  inner_rounds (trace st') = inner_rounds (trace st) ++ [round_idx].
Proof.
  intro H; apply round_inr in H; destruct H as (c & t & s & _ & H).
  apply absorb_inr in H; simpl in H.
  destruct H as [-> | [-> | H]]; simpl.
  - rewrite !inner_rounds_app; simpl; rewrite app_nil_r; reflexivity.
  - rewrite !inner_rounds_app; simpl; rewrite !app_nil_r; reflexivity.
  - destruct H as (new_c & new_t & new_s & pareto_c & pareto_t & H).
    destruct H as (_ & _ & _ & _ & _ & _ & _ & ->); simpl.
    rewrite !inner_rounds_app, inner_rounds_log_candidates; simpl.
    rewrite !app_nil_r; reflexivity.
Qed.

Lemma rounds_inner_rounds (env : nat -> RoundInput) (n first : nat)
  (st st' : State) :
  rounds is_feasible cfg env n first st = inr st' ->
  inner_rounds (trace st') = inner_rounds (trace st) ++ seq first n.
Proof.
  revert first st; induction n as [| n IH]; intros first st H.
  - inversion H; subst; simpl; rewrite app_nil_r; reflexivity.
  - simpl in H; bind_inv H.
    apply round_inner_rounds in Hx; apply IH in H.
    rewrite H, Hx, <- app_assoc; reflexivity.
Qed.

(** A run that ends has called the inner optimizer once in each of the
    rounds [1 .. num_rounds], in this order, and in no other round. *)
Lemma run_inner_rounds (env : nat -> RoundInput)
  (candidate_pool : list Candidate) (pool_targets0 : list ObjVec)
  (all_seqs0 : list string) (all_targets0 : list ObjVec) (st : State) :
  run is_feasible cfg env candidate_pool pool_targets0 all_seqs0 all_targets0
  = inr st ->
  inner_rounds (trace st) = seq 1 (num_rounds cfg).
Proof.
  unfold run, state_after; intro H; bind_inv H.
  apply init_inner_rounds in Hx; apply rounds_inner_rounds in H.
  rewrite H, Hx; reflexivity.
Qed.

(** When the oracle rejects every proposal the round ends after the
    "no new candidates" message, whatever the state. *)
Lemma absorb_nothing_feasible (round_idx : nat) (inp : RoundInput)
  (st : State) :
  length (X_seq inp) = length (X_cand inp) ->
  length (F inp) = length (X_cand inp) ->
  Forall (fun c => is_feasible c = false) (X_cand inp) ->
  absorb is_feasible cfg round_idx inp st
  = inr (emit [PrintNoNewCandidates round_idx]
           (set_total_bb_evals (total_bb_evals st + bb_evals inp) st)).
Proof.
  intros Hs Hf Hall.
  assert (E : np.mask_filter (map is_feasible (X_cand inp)) (X_cand inp) = []).
  { rewrite mask_filter_map_pred; apply filter_none, Hall. }
  unfold absorb.
  rewrite !mask_index_ok by (rewrite length_map; auto); simpl.
  rewrite E; reflexivity.
Qed.

End Executed.

(** ** Recomputing the frontier from the previous frontier

    Under one direction, the non-dominated subset of a frontier extended
    with new vectors is the non-dominated subset of the whole pool extended
    with them: dominance is transitive and every dominated vector of a
    finite pool has a dominator on the frontier. *)

Lemma better_or_equal_spec (maximize : bool) (a b : Z) :
  better_or_equal maximize a b = true
  <-> (if maximize then b <= a else a <= b)%Z.
Proof.
  destruct maximize; simpl; [rewrite Z.geb_leb |]; apply Z.leb_le.
Qed.

Lemma strictly_better_spec (maximize : bool) (a b : Z) :
  strictly_better maximize a b = true
  <-> (if maximize then b < a else a < b)%Z.
Proof.
  destruct maximize; simpl; [rewrite Z.gtb_ltb |]; apply Z.ltb_lt.
Qed.

Section Transitivity.

Variable maximize : bool.

Let weak (w v : ObjVec) : bool :=
  forallb (fun p => better_or_equal maximize (fst p) (snd p)) (combine w v).

Let strict (w v : ObjVec) : bool :=
  existsb (fun p => strictly_better maximize (fst p) (snd p)) (combine w v).

Lemma weak_trans (a b c : ObjVec) :
  length a = length b -> length b = length c ->
  weak a b = true -> weak b c = true -> weak a c = true.
Proof.
  unfold weak; revert b c.
  induction a as [| x a IH]; intros [| y b] [| z c]; simpl;
    try discriminate; auto.
  intros Hab Hbc H1 H2.
  apply andb_true_iff in H1, H2; destruct H1 as [Hxy H1], H2 as [Hyz H2].
  apply andb_true_iff; split; [| apply (IH b c); auto].
  apply better_or_equal_spec in Hxy, Hyz; apply better_or_equal_spec.
  destruct maximize; lia.
Qed.

Lemma strict_weak_trans (a b c : ObjVec) :
  length a = length b -> length b = length c ->
  weak a b = true -> weak b c = true ->
  strict a b = true \/ strict b c = true -> strict a c = true.
Proof.
  unfold weak, strict; revert b c.
  induction a as [| x a IH]; intros [| y b] [| z c]; simpl;
    try discriminate.
  - intros _ _ _ _ [H | H]; discriminate.
  - intros Hab Hbc H1 H2 Hs.
    apply andb_true_iff in H1, H2; destruct H1 as [Hxy H1], H2 as [Hyz H2].
    apply better_or_equal_spec in Hxy, Hyz.
    apply orb_true_iff.
    destruct (strictly_better maximize x y) eqn:Sxy.
    { left; apply strictly_better_spec in Sxy; apply strictly_better_spec.
      destruct maximize; lia. }
    destruct (strictly_better maximize y z) eqn:Syz.
    { left; apply strictly_better_spec in Syz; apply strictly_better_spec.
      destruct maximize; lia. }
    right; apply (IH b c); auto.
Qed.

Lemma spec_dominates_trans (a b c : ObjVec) :
  length a = length b -> length b = length c ->
  spec_dominates maximize a b = true ->
  spec_dominates maximize b c = true ->
  spec_dominates maximize a c = true.
Proof.
  unfold spec_dominates; intros Hab Hbc H1 H2.
  apply andb_true_iff in H1, H2; destruct H1 as [W1 S1], H2 as [W2 S2].
  apply andb_true_iff; split.
  - apply (weak_trans a b c); assumption.
  - apply (strict_weak_trans a b c); auto.
Qed.

Lemma weak_score (w v : ObjVec) :
  length w = length v -> weak w v = true ->
  (score maximize v <= score maximize w)%Z.
Proof.
  unfold weak, score; revert v.
  induction w as [| x w IH]; intros [| y v]; simpl; try discriminate.
  - intros _ _; destruct maximize; lia.
  - intros Hlen H; apply andb_true_iff in H; destruct H as [Hxy H].
    apply better_or_equal_spec in Hxy.
    specialize (IH v ltac:(lia) H).
    destruct maximize; lia.
Qed.

Lemma spec_dominates_score (w v : ObjVec) :
  length w = length v -> spec_dominates maximize w v = true ->
  (score maximize v < score maximize w)%Z.
Proof.
  unfold spec_dominates; intros Hlen H.
  apply andb_true_iff in H; destruct H as [Hw Hs].
  fold (weak w v) in Hw; fold (strict w v) in Hs.
  revert v Hlen Hw Hs; unfold weak, strict, score.
  induction w as [| x w IH]; intros [| y v]; simpl; try discriminate.
  intros Hlen Hw Hs.
  apply andb_true_iff in Hw; destruct Hw as [Hxy Hw].
  apply better_or_equal_spec in Hxy.
  apply orb_true_iff in Hs; destruct Hs as [Hs | Hs].
  - apply strictly_better_spec in Hs.
    pose proof (weak_score w v ltac:(lia) Hw) as Hle.
    unfold score in Hle; destruct maximize; lia.
  - specialize (IH v ltac:(lia) Hw Hs).
    destruct maximize; lia.
Qed.

End Transitivity.

Section Incremental.

Variable maximize : bool.
Variable m : nat.

Lemma spec_non_dominated_app (X Y : list ObjVec) (v : ObjVec) :
  spec_non_dominated maximize (X ++ Y) v
  = spec_non_dominated maximize X v && spec_non_dominated maximize Y v.
Proof.
  unfold spec_non_dominated; rewrite existsb_app, negb_orb; reflexivity.
Qed.

Lemma spec_non_dominated_false (X : list ObjVec) (v : ObjVec) :
  spec_non_dominated maximize X v = false ->
  exists w, In w X /\ spec_dominates maximize w v = true.
Proof.
  unfold spec_non_dominated; intro H.
  apply negb_false_iff, existsb_exists in H; exact H.
Qed.

Lemma score_bounded (X : list ObjVec) :
  exists M, forall w, In w X -> (score maximize w <= M)%Z.
Proof.
  induction X as [| v X [M HM]].
  - exists 0%Z; intros w [].
  - exists (Z.max M (score maximize v)); intros w [<- | Hw]; [lia |].
    specialize (HM w Hw); lia.
Qed.

(** Every vector of a pool is on the frontier or dominated by a vector of
    the frontier. *)
Lemma frontier_covers (X : list ObjVec) (w : ObjVec) :
  Forall (fun v => length v = m) X -> In w X ->
  exists w',
    In w' (spec_frontier maximize X)
    /\ (w' = w \/ spec_dominates maximize w' w = true).
Proof.
  intros Hrect Hw; rewrite Forall_forall in Hrect.
  destruct (score_bounded X) as [M HM].
  assert (H : forall n w, In w X ->
            (M - score maximize w <= Z.of_nat n)%Z ->
            exists w',
              In w' (spec_frontier maximize X)
              /\ (w' = w \/ spec_dominates maximize w' w = true)).
  { induction n as [| n IH]; intros u Hu Hn.
    - exists u; split; [| left; reflexivity].
      apply filter_In; split; [exact Hu |].
      destruct (spec_non_dominated maximize X u) eqn:E; [reflexivity |].
      apply spec_non_dominated_false in E; destruct E as (u' & Hu' & Hd).
      apply spec_dominates_score in Hd;
        [| rewrite (Hrect u Hu), (Hrect u' Hu'); reflexivity].
      specialize (HM u' Hu'); lia.
    - destruct (spec_non_dominated maximize X u) eqn:E.
      + exists u; split; [| left; reflexivity].
        apply filter_In; auto.
      + apply spec_non_dominated_false in E; destruct E as (u' & Hu' & Hd).
        assert (Hlen : length u' = length u)
          by (rewrite (Hrect u Hu), (Hrect u' Hu'); reflexivity).
        pose proof (spec_dominates_score maximize u' u Hlen Hd) as Hs.
        destruct (IH u' Hu' ltac:(lia)) as (w' & Hw' & Hrel).
        exists w'; split; [exact Hw' |]; right.
        destruct Hrel as [-> | Hrel]; [exact Hd |].
        apply (spec_dominates_trans maximize w' u' u); auto.
        apply filter_In in Hw'; destruct Hw' as [Hw' _].
        rewrite (Hrect w' Hw'), (Hrect u' Hu'); reflexivity. }
  apply (H (Z.to_nat (M - score maximize w))); [exact Hw | lia].
Qed.

Lemma filter_filter {A : Type} (p q : A -> bool) (l : list A) :
  filter p (filter q l) = filter (fun x => q x && p x) l.
Proof.
  induction l as [| x l IH]; simpl; [reflexivity |].
  destruct (q x); simpl; [destruct (p x) |]; rewrite IH; reflexivity.
Qed.

Lemma spec_frontier_incremental (X Y : list ObjVec) :
  Forall (fun v => length v = m) (X ++ Y) ->
  spec_frontier maximize (spec_frontier maximize X ++ Y)
  = spec_frontier maximize (X ++ Y).
Proof.
  intro Hrect.
  assert (HX : Forall (fun v => length v = m) X)
    by (apply Forall_app in Hrect; tauto).
  rewrite Forall_forall in Hrect.
  unfold spec_frontier; rewrite !filter_app; f_equal.
  - rewrite filter_filter.
    apply filter_ext; intro v.
    rewrite !spec_non_dominated_app.
    destruct (spec_non_dominated maximize X v) eqn:E; [| reflexivity].
    rewrite (@spec_non_dominated_incl maximize X
               (filter (spec_non_dominated maximize X) X) v);
      [reflexivity | apply incl_filter | exact E].
  - apply filter_ext_in; intros v Hv.
    rewrite !spec_non_dominated_app; f_equal.
    destruct (spec_non_dominated maximize X v) eqn:E.
    + apply (@spec_non_dominated_incl maximize X);
        [apply incl_filter | exact E].
    + apply spec_non_dominated_false in E; destruct E as (w & Hw & Hd).
      destruct (@frontier_covers X w HX Hw) as (w' & Hw' & Hrel).
      unfold spec_frontier in Hw'.
      apply negb_false_iff, existsb_exists.
      exists w'; split; [exact Hw' |].
      destruct Hrel as [-> | Hrel]; [exact Hd |].
      apply (spec_dominates_trans maximize w' w v); auto.
      * apply filter_In in Hw'; destruct Hw' as [Hw' _].
        rewrite (Hrect w'), (Hrect w); auto using in_or_app.
      * rewrite (Hrect w), (Hrect v); auto using in_or_app.
Qed.

End Incremental.

(** A round keeps the reported frontier equal to the minimizing
    non-dominated subset of the pool, if it was so when the round began. *)
Lemma round_preserves_minimizing_frontier (is_feasible : Candidate -> bool)
  (cfg : Config) (round_idx : nat) (inp : RoundInput) (st st' : State) :
  round is_feasible cfg round_idx inp st = inr st' ->
  Forall (fun v => length v = obj_dim cfg) (pool_targets st') ->
  pareto_targets st = spec_frontier false (pool_targets st) ->
  pareto_targets st' = spec_frontier false (pool_targets st').
Proof.
  intros H Hrect Hinv.
  apply round_frontier in H; destruct H as (new_t & Hpool & H).
  destruct H as [[-> Hsame] | [_ Hnew]].
  - rewrite app_nil_r in Hpool; rewrite Hsame, Hpool; exact Hinv.
  - rewrite Hnew, Hinv, Hpool.
    apply spec_frontier_incremental with (m := obj_dim cfg).
    rewrite <- Hpool; exact Hrect.
Qed.

(** ** Runs on the examples *)

(** C1.  On the pool [(1,1), (2,2)] and the accepted proposal [(3,3)] the
    run ends its round with the reported frontier [(2,2)]: the round-0
    frontier, taken under maximization, dropped [(1,1)], and the
    recomputation under minimization over that frontier and the proposal
    cannot bring it back.  The non-dominated subset of the three observed
    vectors is [(1,1)] under minimization and [(3,3)] under maximization. *)
Theorem reported_frontier_is_not_the_pool_frontier :
  exists st,
    run all_feasible ex_cfg ex_new ex_pool ex_targets ex_seqs ex_targets
    = inr st
    /\ pool_targets st = [[1; 1]; [2; 2]; [3; 3]]%Z
    /\ all_targets st = [[1; 1]; [2; 2]; [3; 3]]%Z
    /\ pareto_targets st = [[2; 2]]%Z
    /\ norm_pareto_targets st = [[2; 2]]%Z
    /\ spec_frontier false (pool_targets st) = [[1; 1]]%Z
    /\ spec_frontier true (pool_targets st) = [[3; 3]]%Z.
Proof.
  eexists; split; [vm_compute; reflexivity |].
  repeat split; reflexivity.
Qed.

(** C2.  When the feasibility filter empties the proposals, the round
    prints its message and ends without a metric snapshot: the trace of the
    run holds no metrics record of round 1.  When the novelty filter empties
    them, the snapshot of round 1 is logged. *)
Theorem infeasible_round_logs_no_snapshot :
  (exists st,
      run short_feasible ex_cfg ex_long ex_pool ex_targets ex_seqs ex_targets
      = inr st
      /\ trace st
         = [LogCandidate 0 (cand 2 "B") [2; 2]%Z;
            LogMetrics (mkMetrics 0 [[2; 2]]%Z 0);
            InnerOptimize 1;
            PrintNoNewCandidates 1]
      /\ (forall m, In (LogMetrics m) (trace st) -> m_round_idx m = 0))
  /\ (exists st,
         run all_feasible ex_cfg ex_seen ex_pool ex_targets ex_seqs ex_targets
         = inr st
         /\ trace st
            = [LogCandidate 0 (cand 2 "B") [2; 2]%Z;
               LogMetrics (mkMetrics 0 [[2; 2]]%Z 0);
               InnerOptimize 1;
               PrintNoNewCandidates 1;
               LogMetrics (mkMetrics 1 [[2; 2]]%Z 7)]).
Proof.
  split.
  - eexists; split; [vm_compute; reflexivity |].
    split; [reflexivity |].
    intros m Hm; simpl in Hm.
    destruct Hm as [Hm | [Hm | [Hm | [Hm | []]]]]; try discriminate.
    inversion Hm; reflexivity.
  - eexists; split; [vm_compute; reflexivity | reflexivity].
Qed.

(** C5.  With [num_rounds = 1] and a round whose proposals were all
    observed before, the inner optimizer runs in round 1 and the metrics
    record of round 1 is logged, yet [optimize] returns the record of
    round 0. *)
Theorem optimize_returns_an_earlier_record :
  num_rounds ex_cfg = 1
  /\ optimize all_feasible ex_cfg ex_seen ex_pool ex_targets ex_seqs
       ex_targets
     = inr (mkMetrics 0 [[2; 2]]%Z 0)
  /\ (exists st,
         run all_feasible ex_cfg ex_seen ex_pool ex_targets ex_seqs
           ex_targets = inr st
         /\ inner_rounds (trace st) = [1]
         /\ In (LogMetrics (mkMetrics 1 [[2; 2]]%Z 7)) (trace st)
         /\ metrics st = mkMetrics 0 [[2; 2]]%Z 0).
Proof.
  split; [reflexivity |].
  split; [vm_compute; reflexivity |].
  eexists; split; [vm_compute; reflexivity |].
  split; [reflexivity |].
  split; [simpl; auto 10 | reflexivity].
Qed.

(** C3, the claim as stated fails.  With [batch_size = 1] and two mutually
    non-dominated candidates, the active set has two elements after
    contraction and augmentation, although the pool and the history hold
    two distinct sequences, more than the batch size. *)
Lemma active_set_exceeds_batch_size :
  init all_feasible ex2_cfg ex_pool ex2_targets ex_seqs ex2_targets
  = inr ex2_st0
  /\ prepare_active ex2_cfg 1 ex2_input ex2_st0 = inr ex2_st1
  /\ batch_size ex2_cfg
     <= length (nodup string_dec
                  (pool_seqs ex2_st0 ++ pareto_seq_history ex2_st0))
  /\ ~ length (active_candidates ex2_st1) <= batch_size ex2_cfg.
Proof.
  split; [reflexivity |].
  split; [reflexivity |].
  split; [vm_compute; lia |].
  vm_compute; lia.
Qed.

(** ** Instances *)

Lemma concrete_NoDup_strings (l : list string) :
  nodup string_dec l = l -> NoDup l.
Proof. intro E; rewrite <- E; apply NoDup_nodup. Defined.

Lemma concrete_NoDup_nats (l : list nat) :
  nodup Nat.eq_dec l = l -> NoDup l.
Proof. intro E; rewrite <- E; apply NoDup_nodup. Defined.

(** An instance of C4: the draw [0; 1; 2; 3; 4] hits the active entry 1 of
    the history, and the entries 0, 2 and 3 are appended. *)
Lemma augmentation_scenario_witness :
  exists st',
    augment sc_cfg sc_input sc_state = inr st'
    /\ length (active_candidates st') = 5
    /\ active_seqs st'
       = [seq_of 1; seq_of 20; seq_of 0; seq_of 2; seq_of 3].
Proof.
  destruct (@augmentation_scenario sc_cfg sc_input sc_state)
    as (idxs & st' & Hrun & Hlen & Hidxs & _ & _ & _ & _ & _ & Hseqs).
  - reflexivity.
  - reflexivity.
  - reflexivity.
  - reflexivity.
  - reflexivity.
  - reflexivity.
  - apply concrete_NoDup_strings; vm_compute; reflexivity.
  - reflexivity.
  - split; [reflexivity |]; split.
    + apply concrete_NoDup_nats; vm_compute; reflexivity.
    + repeat (constructor; [simpl; lia |]); constructor.
  - exists st'; split; [exact Hrun |]; split; [exact Hlen |].
    rewrite Hseqs, Hidxs; vm_compute; reflexivity.
Defined.

(** An instance of C6: the run on [ex_new]. *)
Lemma pareto_history_grows_without_duplicates_witness :
  NoDup (pareto_seq_history ex_st0) /\ NoDup (pareto_seq_history ex_st1).
Proof.
  apply (@pareto_history_grows_without_duplicates all_feasible ex_cfg ex_new
           ex_pool ex_targets ex_seqs ex_targets 0 ex_st0 ex_st1).
  - reflexivity.
  - reflexivity.
  - apply concrete_NoDup_strings; vm_compute; reflexivity.
  - intro r; reflexivity.
Defined.

(** An instance of C7: in the run on [ex_new] the history is seeded with
    [(2,2)], and the contraction of the same pool in round 1 keeps
    [(1,1)]. *)
Lemma frontier_direction_changes_within_a_run_witness :
  pareto_targets ex_st0 = [[2; 2]]%Z
  /\ exists st_c,
       contract ex_cfg 1 ex_st0 = inr st_c
       /\ active_targets st_c = [[1; 1]]%Z.
Proof.
  destruct (@frontier_direction_changes_within_a_run all_feasible ex_cfg
              ex_new ex_pool ex_targets ex_seqs ex_targets 0 ex_st0 ex_st0
              ex_st1)
    as ((Hmax & _) & (st_c & Hc & Hmin) & _).
  - reflexivity.
  - reflexivity.
  - reflexivity.
  - split; [rewrite Hmax; reflexivity |].
    exists st_c; split; [exact Hc |].
    rewrite Hmin; reflexivity.
Defined.

(** Instances of C8: a pool with the tied vector [(1,5)] twice, and a pool
    of size 1. *)
Lemma pareto_frontier_singleton_and_ties_witness :
  (exists c o,
      pareto_frontier ["a"; "b"; "c"; "d"]%string
        [[1; 5]; [3; 3]; [1; 5]; [4; 4]]%Z false = inr (c, o)
      /\ count_occ ObjVec_eq_dec o [1; 5]%Z = 2
      /\ In ("a"%string, [1; 5]%Z) (combine c o)
      /\ In ("c"%string, [1; 5]%Z) (combine c o))
  /\ (exists c o,
         pareto_frontier ["a"%string] [[1; 5]%Z] true = inr (c, o)
         /\ c = ["a"%string] /\ o = [[1; 5]%Z]).
Proof.
  split.
  - destruct (@pareto_frontier_singleton_and_ties string
                ["a"; "b"; "c"; "d"]%string
                [[1; 5]; [3; 3]; [1; 5]; [4; 4]]%Z false)
      as (c & o & Hrun & _ & Hties); [reflexivity |].
    exists c, o; split; [exact Hrun |].
    destruct (Hties [1; 5]%Z) as [Hcount Hkept]; [reflexivity |].
    split; [rewrite Hcount; reflexivity |].
    split; [apply (Hkept 0) | apply (Hkept 2)]; reflexivity.
  - destruct (@pareto_frontier_singleton_and_ties string
                ["a"%string] [[1; 5]%Z] true)
      as (c & o & Hrun & Hone & _); [reflexivity |].
    exists c, o; split; [exact Hrun |].
    apply Hone; reflexivity.
Defined.

(** An instance of C9. *)
Lemma pareto_frontier_idempotent_witness :
  exists c o,
    pareto_frontier ["a"; "b"; "c"; "d"]%string
      [[1; 5]; [3; 3]; [5; 1]; [4; 4]]%Z false = inr (c, o)
    /\ pareto_frontier c o false = inr (c, o).
Proof.
  apply (@pareto_frontier_idempotent string); reflexivity.
Defined.

(** * Further properties *)

(** ** [pareto_frontier]: errors, selection, coverage, direction *)

Lemma mask_filter_combine {A B : Type} (mask : list bool) (xs : list A)
  (ys : list B) :
  np.mask_filter mask (combine xs ys)
  = combine (np.mask_filter mask xs) (np.mask_filter mask ys).
Proof.
  revert xs ys; induction mask as [| b mask IH]; intros [| x xs] [| y ys];
    simpl; auto.
  - symmetry; apply combine_nil.
  - destruct b; simpl; rewrite IH; reflexivity.
Qed.

Lemma map_snd_combine {A B : Type} (xs : list A) (ys : list B) :
  length xs = length ys -> map snd (combine xs ys) = ys.
Proof.
  revert ys; induction xs as [| x xs IH]; intros [| y ys]; simpl;
    try discriminate; auto.
  intro H; rewrite IH; auto.
Qed.

Lemma spec_frontier_antichain (maximize : bool) (vals : list ObjVec) :
  mutually_non_dominated (spec_frontier maximize vals).
Proof.
  assert (H : forall v w,
            In v (spec_frontier maximize vals) ->
            In w (spec_frontier maximize vals) ->
            spec_dominates maximize w v = false).
  { intros v w Hv Hw.
    apply filter_In in Hv, Hw; destruct Hv as [_ Hv], Hw as [Hw _].
    unfold spec_non_dominated in Hv; apply negb_true_iff in Hv.
    destruct (spec_dominates maximize w v) eqn:E; [| reflexivity].
    rewrite <- Hv; symmetry; apply existsb_exists; eauto. }
  intros mx v w Hv Hw.
  destruct maximize, mx; auto.
  - rewrite spec_dominates_converse; auto.
  - rewrite <- spec_dominates_converse; auto.
Qed.

(** X1.  [pareto_frontier] raises exactly when the two arrays differ in
    length, and then it is the assertion that fails; the boolean-mask
    indexing never raises. *)
Theorem pareto_frontier_raises_iff_lengths_differ
  (A : Type) (pool : list A) (vals : list ObjVec) (maximize : bool) :
  (length pool <> length vals <->
   pareto_frontier pool vals maximize = inl AssertionError)
  /\ (forall e, pareto_frontier pool vals maximize = inl e ->
                e = AssertionError /\ length pool <> length vals).
Proof.
  destruct (Nat.eq_dec (length pool) (length vals)) as [E | N].
  - destruct (pareto_frontier_total pool vals maximize E) as (c & o & H).
    rewrite H; split; [split; [contradiction | discriminate] |].
    intros e He; discriminate.
  - assert (H : pareto_frontier pool vals maximize = inl AssertionError).
    { unfold pareto_frontier.
      apply Nat.eqb_neq in N; rewrite N; reflexivity. }
    rewrite H; split; [tauto |].
    intros e He; inversion He; auto.
Qed.

(** X2.  No objective vector returned by [pareto_frontier] dominates
    another returned vector, under the direction of the call or under the
    opposite one. *)
Theorem pareto_frontier_mutually_non_dominated
  (A : Type) (pool : list A) (vals : list ObjVec) (maximize : bool)
  (c : list A) (o : list ObjVec) :
  pareto_frontier pool vals maximize = inr (c, o) ->
  mutually_non_dominated o.
Proof.
  intro H; apply pareto_frontier_inr in H; simpl in H.
  destruct H as (_ & _ & ->); apply spec_frontier_antichain.
Qed.

(** X3.  [pareto_frontier] selects rows: the returned candidates and
    objective vectors are, pair by pair and in the order of the input, the
    rows of the pool whose objective vector no row of the pool dominates.
    A candidate keeps its own objective vector. *)
Theorem pareto_frontier_selects_rows
  (A : Type) (pool : list A) (vals : list ObjVec) (maximize : bool)
  (c : list A) (o : list ObjVec) :
  pareto_frontier pool vals maximize = inr (c, o) ->
  length c = length o
  /\ combine c o
     = filter (fun row => spec_non_dominated maximize vals (snd row))
         (combine pool vals).
Proof.
  intro H; split; [apply (pareto_frontier_lengths _ _ _ H) |].
  apply pareto_frontier_inr in H; simpl in H.
  destruct H as (Hlen & -> & ->).
  unfold spec_frontier; rewrite <- mask_filter_map_pred.
  rewrite <- mask_filter_combine.
  set (p := spec_non_dominated maximize vals).
  assert (E : map p vals = map (fun row => p (snd row)) (combine pool vals))
    by (rewrite <- (map_snd_combine pool vals Hlen) at 1;
        rewrite map_map; reflexivity).
  rewrite E; apply mask_filter_map_pred.
Qed.

(** X4.  On an objective matrix with rows of one length, every row of the
    pool is returned by [pareto_frontier] or dominated by a returned row;
    so the frontier of a non-empty pool is not empty. *)
Theorem pareto_frontier_covers_pool
  (A : Type) (pool : list A) (vals : list ObjVec) (maximize : bool)
  (c : list A) (o : list ObjVec) (m : nat) :
  pareto_frontier pool vals maximize = inr (c, o) ->
  rectangular m vals ->
  (forall v, In v vals ->
     exists w, In w o /\ (w = v \/ spec_dominates maximize w v = true))
  /\ (vals <> [] -> o <> [] /\ c <> []).
Proof.
  intros H Hrect.
  pose proof (pareto_frontier_lengths _ _ _ H) as [Hco _].
  apply pareto_frontier_inr in H; simpl in H.
  destruct H as (_ & _ & ->).
  assert (Hcov : forall v, In v vals ->
            exists w, In w (spec_frontier maximize vals)
                      /\ (w = v \/ spec_dominates maximize w v = true))
    by (intros v Hv; apply (@frontier_covers maximize m vals v Hrect Hv)).
  split; [exact Hcov |].
  intro Hne; destruct vals as [| v vals]; [congruence |].
  destruct (Hcov v (or_introl eq_refl)) as (w & Hw & _).
  split; intro E.
  - rewrite E in Hw; exact Hw.
  - rewrite E in Hco; simpl in Hco.
    destruct (spec_frontier maximize (v :: vals)); [exact Hw | discriminate].
Qed.

(** X5.  Minimizing is maximizing the negated objectives: the call with the
    default direction selects the candidates that the maximizing call
    selects on the negated matrix. *)
Theorem pareto_frontier_minimize_is_maximize_negated
  (A : Type) (pool : list A) (vals : list ObjVec)
  (c : list A) (o : list ObjVec) :
  pareto_frontier pool vals false = inr (c, o) ->
  pareto_frontier pool (neg vals) true = inr (c, neg o).
Proof.
  intro H.
  assert (Hlen : length pool = length vals)
    by (apply pareto_frontier_inr in H; simpl in H; tauto).
  unfold pareto_frontier in *.
  unfold neg at 1; rewrite length_map.
  rewrite Hlen, Nat.eqb_refl in *; simpl in *.
  destruct (length vals =? 1).
  - inversion H; reflexivity.
  - bind_inv H; bind_inv H; inversion H; subst; clear H.
    rewrite Hx; simpl.
    apply mask_index_inr in Hx0; destruct Hx0 as [Hmask ->].
    rewrite mask_index_ok
      by (unfold neg at 2; rewrite length_map; exact Hmask).
    simpl; unfold neg at 2 3; rewrite mask_filter_map; reflexivity.
Qed.

(** ** What the augmentation steps append *)

Lemma fancy_index_inr_map {A : Type} (d : A) (xs : list A)
  (idxs : list nat) (ys : list A) :
  np.fancy_index xs idxs = inr ys ->
  ys = map (fun i => nth i xs d) idxs
  /\ Forall (fun i => i < length xs) idxs.
Proof.
  intro H; apply fancy_index_inr in H.
  induction H as [| i y idxs ys Hi _ [IH1 IH2]]; simpl; [auto |].
  split.
  - f_equal; [symmetry; apply nth_error_nth; exact Hi | exact IH1].
  - constructor; [| exact IH2].
    apply nth_error_Some; rewrite Hi; discriminate.
Qed.

Lemma random_choice_inr (n size : nat) (draw idxs : list nat) :
  np.random_choice n size draw = inr idxs -> idxs = draw /\ size <= n.
Proof.
  unfold np.random_choice.
  destruct (n <? size) eqn:E; [discriminate |].
  apply Nat.ltb_ge in E; intro H; inversion H; auto.
Qed.

Lemma not_active_selected (seqs active : list string)
  (draw kept : list nat) (drawn : list string) :
  np.fancy_index seqs draw = inr drawn ->
  np.mask_index draw (map negb (np.in1d drawn active false)) = inr kept ->
  kept = not_active seqs active draw
  /\ Forall (fun i => i < length seqs) draw.
Proof.
  intros Hd Hk.
  apply (fancy_index_inr_map ""%string) in Hd; destruct Hd as [-> Hrange].
  apply mask_index_inr in Hk; destruct Hk as [_ ->].
  rewrite not_active_mask; auto.
Qed.

Section AppendedIndices.

Variable cfg : Config.

Lemma backtrack_augment_indices (draw : list nat) (st st' : State) :
  backtrack_augment cfg draw st = inr st' ->
  let idxs := backtrack_indices cfg draw st in
  st' = set_active
          (active_candidates st
           ++ map (fun i => nth i (pareto_cand_history st) no_candidate) idxs)
          (active_targets st
           ++ map (fun i => nth i (pareto_target_history st) ([] : ObjVec))
                  idxs)
          (active_seqs st
           ++ map (fun i => nth i (pareto_seq_history st) ""%string) idxs)
          st
  /\ Forall (fun i => i < length (pareto_cand_history st)
                      /\ i < length (pareto_target_history st)
                      /\ i < length (pareto_seq_history st)) idxs.
Proof.
  unfold backtrack_augment, backtrack_indices.
  destruct (length (active_candidates st) <? batch_size cfg).
  - intro H.
    bind_inv_as H idxs0 Hchoice.
    bind_inv_as H drawn Hdrawn.
    bind_inv_as H kept Hkept.
    apply random_choice_inr in Hchoice; destruct Hchoice as [-> _].
    destruct (not_active_selected _ _ _ Hdrawn Hkept) as [-> _].
    destruct (0 <? length _) eqn:E.
    + bind_inv_as H bc Hbc.
      bind_inv_as H bt Hbt.
      bind_inv_as H bs Hbs.
      apply (fancy_index_inr_map no_candidate) in Hbc.
      apply (fancy_index_inr_map ([] : ObjVec)) in Hbt.
      apply (fancy_index_inr_map ""%string) in Hbs.
      destruct Hbc as [-> Fc], Hbt as [-> Ft], Hbs as [-> Fs].
      inversion H; subst st'; split; [reflexivity |].
      rewrite Forall_forall in *; auto.
    + apply Nat.ltb_ge in E.
      destruct (not_active _ _ draw); [| simpl in E; lia].
      inversion H; subst st'.
      rewrite firstn_nil; simpl; rewrite !app_nil_r, set_active_same; auto.
  - intro H; inversion H; subst st'; simpl.
    rewrite !app_nil_r, set_active_same; auto.
Qed.

Lemma random_augment_indices (draw : list nat) (st st' : State) :
  random_augment cfg draw st = inr st' ->
  let idxs := random_indices cfg draw st in
  st' = set_active
          (active_candidates st
           ++ map (fun i => nth i (pool_candidates st) no_candidate) idxs)
          (active_targets st
           ++ map (fun i => nth i (pool_targets st) ([] : ObjVec)) idxs)
          (active_seqs st
           ++ map (fun i => nth i (pool_seqs st) ""%string) idxs)
          st
  /\ Forall (fun i => i < length (pool_candidates st)
                      /\ i < length (pool_targets st)
                      /\ i < length (pool_seqs st)) idxs.
Proof.
  unfold random_augment, random_indices.
  destruct (length (active_candidates st) <? batch_size cfg).
  - intro H.
    bind_inv_as H idxs0 Hchoice.
    bind_inv_as H drawn Hdrawn.
    bind_inv_as H kept Hkept.
    apply random_choice_inr in Hchoice; destruct Hchoice as [-> _].
    destruct (not_active_selected _ _ _ Hdrawn Hkept) as [-> _].
    bind_inv_as H rc Hrc.
    bind_inv_as H rt Hrt.
    bind_inv_as H rs Hrs.
    apply (fancy_index_inr_map no_candidate) in Hrc.
    apply (fancy_index_inr_map ([] : ObjVec)) in Hrt.
    apply (fancy_index_inr_map ""%string) in Hrs.
    destruct Hrc as [-> Fc], Hrt as [-> Ft], Hrs as [-> Fs].
    inversion H; subst st'; split; [reflexivity |].
    rewrite Forall_forall in *; auto.
  - intro H; inversion H; subst st'; simpl.
    rewrite !app_nil_r, set_active_same; auto.
Qed.

Lemma backtrack_indices_spec (draw : list nat) (st : State) (i : nat) :
  In i (backtrack_indices cfg draw st) ->
  In i draw
  /\ ~ In (nth i (pareto_seq_history st) ""%string) (active_seqs st).
Proof.
  unfold backtrack_indices.
  destruct (_ <? _); [| intros []].
  intro H; apply firstn_incl, not_active_spec in H; exact H.
Qed.

Lemma random_indices_spec (draw : list nat) (st : State) (i : nat) :
  In i (random_indices cfg draw st) ->
  In i draw /\ ~ In (nth i (pool_seqs st) ""%string) (active_seqs st).
Proof.
  unfold random_indices.
  destruct (_ <? _); [| intros []].
  intro H; apply firstn_incl, not_active_spec in H; exact H.
Qed.

Lemma backtrack_indices_NoDup (draw : list nat) (st : State) :
  NoDup draw -> NoDup (backtrack_indices cfg draw st).
Proof.
  intro H; unfold backtrack_indices.
  destruct (_ <? _); [| constructor].
  apply firstn_NoDup, NoDup_filter, H.
Qed.

Lemma random_indices_NoDup (draw : list nat) (st : State) :
  NoDup draw -> NoDup (random_indices cfg draw st).
Proof.
  intro H; unfold random_indices.
  destruct (_ <? _); [| constructor].
  apply firstn_NoDup, NoDup_filter, H.
Qed.

Lemma backtrack_indices_length (draw : list nat) (st : State) :
  length (active_candidates st) + length (backtrack_indices cfg draw st)
  <= Nat.max (batch_size cfg) (length (active_candidates st)).
Proof.
  unfold backtrack_indices.
  destruct (_ <? _) eqn:E; simpl; [| lia].
  apply Nat.ltb_lt in E; rewrite length_firstn; lia.
Qed.

Lemma random_indices_length (draw : list nat) (st : State) :
  length (active_candidates st) + length (random_indices cfg draw st)
  <= Nat.max (batch_size cfg) (length (active_candidates st)).
Proof.
  unfold random_indices.
  destruct (_ <? _) eqn:E; simpl; [| lia].
  apply Nat.ltb_lt in E; rewrite length_firstn; lia.
Qed.

End AppendedIndices.

(** ** The invariant of a run *)

Lemma combine_app_aligned {A B : Type} (xs1 xs2 : list A) (ys1 ys2 : list B) :
  length xs1 = length ys1 ->
  combine (xs1 ++ xs2) (ys1 ++ ys2) = combine xs1 ys1 ++ combine xs2 ys2.
Proof.
  revert ys1; induction xs1 as [| x xs1 IH]; intros [| y ys1]; simpl;
    try discriminate; auto.
  intro H; rewrite IH; auto.
Qed.

Lemma combine_mask_filter_incl {A B : Type} (mask : list bool) (xs : list A)
  (ys : list B) :
  incl (combine (np.mask_filter mask xs) (np.mask_filter mask ys))
       (combine xs ys).
Proof.
  rewrite <- mask_filter_combine; intros p Hp.
  exact (mask_filter_In _ _ _ Hp).
Qed.

Lemma nth_pair_In {A B : Type} (dx : A) (dy : B) (xs : list A)
  (ys : list B) (i : nat) :
  i < length xs -> i < length ys ->
  In (nth i xs dx, nth i ys dy) (combine xs ys).
Proof.
  revert ys i; induction xs as [| x xs IH]; intros [| y ys] [| i]; simpl;
    try lia; auto.
  intros Hx Hy; right; apply IH; lia.
Qed.

Lemma combine_nth_incl {A B : Type} (dx : A) (dy : B) (xs : list A)
  (ys : list B) (idxs : list nat) :
  Forall (fun i => i < length xs /\ i < length ys) idxs ->
  incl (combine (map (fun i => nth i xs dx) idxs)
                (map (fun i => nth i ys dy) idxs))
       (combine xs ys).
Proof.
  induction 1 as [| i idxs [Hx Hy] _ IH]; simpl; [intros p [] |].
  intros p [<- | Hp]; [apply nth_pair_In; assumption | apply IH; exact Hp].
Qed.

Lemma incl_app_app {A : Type} (l1 l2 m1 m2 : list A) :
  incl l1 m1 -> incl l2 m2 -> incl (l1 ++ l2) (m1 ++ m2).
Proof.
  intros H1 H2 x Hx; apply in_app_or in Hx; apply in_or_app.
  destruct Hx; [left; apply H1 | right; apply H2]; assumption.
Qed.

Lemma set_active_coherent (c : list Candidate) (t : list ObjVec)
  (s : list string) (st : State) :
  coherent st ->
  length t = length c -> length s = length c ->
  paired_in_pool st c t ->
  coherent (set_active c t s st).
Proof.
  unfold coherent, aligned, paired_in_pool; simpl.
  intros H Ht Hs Hp; repeat split; try tauto.
Qed.

Lemma emit_coherent (evs : list Event) (st : State) :
  coherent st -> coherent (emit evs st).
Proof.
  unfold coherent, aligned, paired_in_pool; simpl.
  intro H; repeat split; try tauto.
  apply in_or_app; left; tauto.
Qed.

Lemma set_total_bb_evals_coherent (n : nat) (st : State) :
  coherent st -> total_bb_evals st <= n ->
  coherent (set_total_bb_evals n st).
Proof.
  unfold coherent, aligned, paired_in_pool; simpl.
  intros H Hn; repeat split; try tauto.
  destruct H as (_ & _ & _ & _ & _ & _ & _ & _ & _ & H & _); lia.
Qed.

Lemma pareto_frontier_masks {A : Type} (pool : list A) (vals : list ObjVec)
  (maximize : bool) (c : list A) (o : list ObjVec) :
  pareto_frontier pool vals maximize = inr (c, o) ->
  exists mask,
    length mask = length pool
    /\ length pool = length vals
    /\ c = np.mask_filter mask pool
    /\ o = np.mask_filter mask vals.
Proof.
  intro H; apply pareto_frontier_inr in H; simpl in H.
  destruct H as (Hlen & -> & ->).
  exists (map (spec_non_dominated maximize vals) vals).
  rewrite length_map; repeat split; auto.
  unfold spec_frontier; rewrite mask_filter_map_pred; reflexivity.
Qed.

Section Coherence.

Variable is_feasible : Candidate -> bool.
Variable cfg : Config.

Lemma contract_coherent (round_idx : nat) (st st' : State) :
  contract cfg round_idx st = inr st' -> coherent st -> coherent st'.
Proof.
  unfold contract; destruct (_ && _); intros H Hco.
  - bind_inv H; destruct x as [c t]; inversion H; subst st'.
    pose proof (pareto_frontier_lengths _ _ _ Hx) as [Hlen _].
    apply pareto_frontier_masks in Hx.
    destruct Hx as (mask & _ & _ & -> & ->).
    apply set_active_coherent; auto.
    + apply length_map.
    + intros p Hp; apply combine_mask_filter_incl in Hp.
      destruct Hco as (_ & _ & _ & Hact & _); apply Hact; exact Hp.
  - inversion H; subst; exact Hco.
Qed.

Lemma backtrack_augment_coherent (draw : list nat) (st st' : State) :
  backtrack_augment cfg draw st = inr st' -> coherent st -> coherent st'.
Proof.
  intros H Hco; apply backtrack_augment_indices in H.
  destruct H as [-> Hrange].
  pose proof Hco as (Hal & _ & _ & Hact & _ & Hhist & _).
  destruct Hal as (_ & _ & Hat & Has & _).
  apply set_active_coherent; auto.
  - rewrite !length_app, !length_map, Hat; reflexivity.
  - rewrite !length_app, !length_map, Has; reflexivity.
  - unfold paired_in_pool; rewrite combine_app_aligned by auto.
    apply incl_app; [exact Hact |].
    intros p Hp; apply Hhist.
    revert p Hp; apply combine_nth_incl.
    rewrite Forall_forall in *; intros i Hi; specialize (Hrange i Hi); tauto.
Qed.

Lemma random_augment_coherent (draw : list nat) (st st' : State) :
  random_augment cfg draw st = inr st' -> coherent st -> coherent st'.
Proof.
  intros H Hco; apply random_augment_indices in H.
  destruct H as [-> Hrange].
  pose proof Hco as (Hal & _ & _ & Hact & _).
  destruct Hal as (_ & _ & Hat & Has & _).
  apply set_active_coherent; auto.
  - rewrite !length_app, !length_map, Hat; reflexivity.
  - rewrite !length_app, !length_map, Has; reflexivity.
  - unfold paired_in_pool; rewrite combine_app_aligned by auto.
    apply incl_app; [exact Hact |].
    apply combine_nth_incl.
    rewrite Forall_forall in *; intros i Hi; specialize (Hrange i Hi); tauto.
Qed.

Lemma prepare_active_coherent (round_idx : nat) (inp : RoundInput)
  (st st' : State) :
  prepare_active cfg round_idx inp st = inr st' ->
  coherent st -> coherent st'.
Proof.
  unfold prepare_active, augment; intros H Hco.
  bind_inv H; bind_inv H.
  apply contract_coherent in Hx; [| exact Hco].
  apply backtrack_augment_coherent in Hx0; [| exact Hx].
  apply random_augment_coherent in H; assumption.
Qed.

End Coherence.

Lemma accepted_coherent (round_idx : nat) (new_c : list Candidate)
  (new_t : list ObjVec) (new_s : list string) (pareto_c : list Candidate)
  (pareto_t : list ObjVec) (st : State) :
  coherent st ->
  length new_t = length new_c -> length new_s = length new_c ->
  pareto_frontier (pareto_candidates st ++ new_c)
    (pareto_targets st ++ new_t) false = inr (pareto_c, pareto_t) ->
  coherent (accepted round_idx new_c new_t new_s pareto_c pareto_t st).
Proof.
  intros Hco Hnt Hns Hfront.
  destruct Hco as (Hal & Hps & Hhs & Hact & Hpar & Hhist & Harch & _).
  destruct Hal as (L1 & L2 & L3 & L4 & L5 & L6 & L7).
  unfold paired_in_pool in *.
  pose proof (pareto_frontier_lengths _ _ _ Hfront) as [Hlen _].
  pose proof (pareto_frontier_inr _ _ _ Hfront) as Hspec; simpl in Hspec.
  destruct Hspec as (_ & _ & Hpt).
  apply pareto_frontier_masks in Hfront.
  destruct Hfront as (mask & _ & _ & Hpc & Hpt').
  set (M := np.in1d (map mutant_residue_seq pareto_c)
              (pareto_seq_history st) true).
  assert (HM : length M = length pareto_c)
    by (unfold M; rewrite in1d_length, length_map; reflexivity).
  assert (Hpool : combine (pool_candidates st ++ new_c)
                    (pool_targets st ++ new_t)
                  = combine (pool_candidates st) (pool_targets st)
                    ++ combine new_c new_t)
    by (apply combine_app_aligned; auto).
  assert (Hfr : incl (combine pareto_c pareto_t)
                  (combine (pool_candidates st ++ new_c)
                     (pool_targets st ++ new_t))).
  { rewrite Hpc, Hpt', Hpool.
    intros p Hp; apply combine_mask_filter_incl in Hp.
    rewrite combine_app_aligned in Hp by auto.
    revert p Hp; apply incl_app_app; [exact Hpar | apply incl_refl]. }
  unfold coherent, aligned, paired_in_pool, accepted; simpl; fold M.
  split.
  { rewrite !length_app, L1, L2, L3, L4, L6, L7, Hnt, Hns.
    rewrite !mask_filter_length
      by (rewrite ?length_map; congruence).
    repeat split; auto. }
  split; [reflexivity |].
  split; [rewrite map_app, <- mask_filter_map, Hhs; reflexivity |].
  split.
  { rewrite Hpool, combine_app_aligned by auto.
    apply incl_app_app; [exact Hact | apply incl_refl]. }
  split; [exact Hfr |].
  split.
  { rewrite combine_app_aligned by auto.
    apply incl_app.
    - rewrite Hpool; intros p Hp; apply in_or_app; left; apply Hhist, Hp.
    - intros p Hp; apply Hfr.
      exact (combine_mask_filter_incl _ _ _ _ Hp). }
  split.
  { intros s Hs.
    destruct (in_dec string_dec s (pareto_seq_history st)) as [Hi | Hn];
      apply in_or_app; [left; exact Hi | right].
    unfold M; rewrite <- (map_id (map mutant_residue_seq pareto_c)) at 1.
    rewrite (in1d_invert_filter (fun s => s)).
    apply filter_In; split; [exact Hs |].
    apply negb_true_iff, not_true_iff_false.
    rewrite existsb_eqb_In; exact Hn. }
  split; [reflexivity |].
  split; [reflexivity |].
  split; [apply Nat.le_refl |].
  split; [apply in_or_app; right; left; reflexivity |].
  rewrite Hpt; apply spec_frontier_antichain.
Qed.

Section CoherentRuns.

Variable is_feasible : Candidate -> bool.
Variable cfg : Config.

Lemma absorb_coherent (round_idx : nat) (inp : RoundInput) (st st' : State) :
  absorb is_feasible cfg round_idx inp st = inr st' ->
  coherent st -> coherent st'.
Proof.
  intros H Hco.
  assert (Hco1 : coherent (set_total_bb_evals
                             (total_bb_evals st + bb_evals inp) st))
    by (apply set_total_bb_evals_coherent; [exact Hco | lia]).
  apply absorb_inr in H; simpl in H.
  destruct H as [-> | [-> | H]].
  - apply emit_coherent, Hco1.
  - apply emit_coherent, emit_coherent, Hco1.
  - destruct H as (new_c & new_t & new_s & pareto_c & pareto_t
                   & _ & Hnt & Hns & _ & _ & _ & Hfront & ->).
    apply accepted_coherent; auto.
Qed.

Lemma round_coherent (round_idx : nat) (inp : RoundInput) (st st' : State) :
  round is_feasible cfg round_idx inp st = inr st' ->
  coherent st -> coherent st'.
Proof.
  unfold round; intros H Hco; bind_inv H.
  apply prepare_active_coherent in Hx; [| exact Hco].
  apply absorb_coherent in H; [exact H |].
  apply emit_coherent, Hx.
Qed.

Lemma init_coherent (candidate_pool : list Candidate)
  (pool_targets0 : list ObjVec) (all_seqs0 : list string)
  (all_targets0 : list ObjVec) (st : State) :
  init is_feasible cfg candidate_pool pool_targets0 all_seqs0 all_targets0
  = inr st ->
  coherent st.
Proof.
  unfold init; intro H.
  bind_inv_as H pool_c Hpool_c.
  bind_inv_as H pool_t Hpool_t.
  bind_inv_as H front Hfront; destruct front as [pareto_c pareto_t].
  bind_inv_as H tab Htab.
  inversion H; subst st; clear H.
  pose proof (pareto_frontier_lengths _ _ _ Hfront) as [Hlen _].
  pose proof (pareto_frontier_inr _ _ _ Hfront) as Hspec; simpl in Hspec.
  destruct Hspec as (Hpool & _ & Hpt).
  apply pareto_frontier_masks in Hfront.
  destruct Hfront as (mask & _ & _ & Hpc & Hpt').
  assert (Hfr : incl (combine pareto_c pareto_t) (combine pool_c pool_t))
    by (rewrite Hpc, Hpt'; apply combine_mask_filter_incl).
  unfold coherent, aligned, paired_in_pool; simpl.
  rewrite !length_map.
  repeat split; auto using incl_refl.
  - apply in_or_app; right; left; reflexivity.
  - rewrite Hpt; apply spec_frontier_antichain.
Qed.

Lemma rounds_coherent (env : nat -> RoundInput) (n first : nat)
  (st st' : State) :
  rounds is_feasible cfg env n first st = inr st' ->
  coherent st -> coherent st'.
Proof.
  revert first st; induction n as [| n IH]; intros first st H Hco.
  - inversion H; subst; exact Hco.
  - simpl in H; bind_inv H.
    eapply IH; [exact H |].
    eapply round_coherent; [exact Hx | exact Hco].
Qed.

Lemma state_after_coherent (env : nat -> RoundInput)
  (candidate_pool : list Candidate) (pool_targets0 : list ObjVec)
  (all_seqs0 : list string) (all_targets0 : list ObjVec) (k : nat)
  (st : State) :
  state_after is_feasible cfg env candidate_pool pool_targets0 all_seqs0
    all_targets0 k = inr st ->
  coherent st.
Proof.
  unfold state_after; intro H; bind_inv H.
  eapply rounds_coherent; [exact H |].
  eapply init_coherent; exact Hx.
Qed.

End CoherentRuns.

(** ** What holds at every round of a run *)

(** X6.  At every round the reported Pareto frontier, which is also the
    matrix the metrics are computed from, holds no two vectors one of which
    dominates the other, under minimization and under maximization alike. *)
Theorem reported_frontier_mutually_non_dominated
  (is_feasible : Candidate -> bool) (cfg : Config) (env : nat -> RoundInput)
  (candidate_pool : list Candidate) (pool_targets0 : list ObjVec)
  (all_seqs0 : list string) (all_targets0 : list ObjVec)
  (k : nat) (st : State) :
  state_after is_feasible cfg env candidate_pool pool_targets0 all_seqs0
    all_targets0 k = inr st ->
  mutually_non_dominated (pareto_targets st)
  /\ norm_pareto_targets st = pareto_targets st.
Proof.
  intro H; apply state_after_coherent in H.
  unfold coherent in H; tauto.
Qed.

(** X7.  At every round the sequence of every candidate of the current
    frontier is in the Pareto history, and the sequence arrays of frontier
    and history hold the sequences of their candidates. *)
Theorem frontier_sequences_in_history
  (is_feasible : Candidate -> bool) (cfg : Config) (env : nat -> RoundInput)
  (candidate_pool : list Candidate) (pool_targets0 : list ObjVec)
  (all_seqs0 : list string) (all_targets0 : list ObjVec)
  (k : nat) (st : State) :
  state_after is_feasible cfg env candidate_pool pool_targets0 all_seqs0
    all_targets0 k = inr st ->
  incl (pareto_seqs st) (pareto_seq_history st)
  /\ pareto_seqs st = map mutant_residue_seq (pareto_candidates st)
  /\ pareto_seq_history st
     = map mutant_residue_seq (pareto_cand_history st).
Proof.
  intro H; apply state_after_coherent in H.
  unfold coherent in H; tauto.
Qed.

(** X8.  At every round the parallel arrays agree in length: targets and
    sequences with candidates, for the pool, the active set, the frontier
    and the history. *)
Theorem parallel_arrays_stay_aligned
  (is_feasible : Candidate -> bool) (cfg : Config) (env : nat -> RoundInput)
  (candidate_pool : list Candidate) (pool_targets0 : list ObjVec)
  (all_seqs0 : list string) (all_targets0 : list ObjVec)
  (k : nat) (st : State) :
  state_after is_feasible cfg env candidate_pool pool_targets0 all_seqs0
    all_targets0 k = inr st ->
  aligned st /\ length (pareto_seqs st) = length (pareto_candidates st).
Proof.
  intro H; apply state_after_coherent in H.
  destruct H as (Hal & Hps & _); split; [exact Hal |].
  rewrite Hps; apply length_map.
Qed.

(** X9.  At every round each candidate of the active set, of the frontier
    and of the history is a candidate of the pool and carries the objective
    vector it has there: nothing is fabricated and no objective vector is
    attached to another candidate. *)
Theorem rows_come_from_the_pool
  (is_feasible : Candidate -> bool) (cfg : Config) (env : nat -> RoundInput)
  (candidate_pool : list Candidate) (pool_targets0 : list ObjVec)
  (all_seqs0 : list string) (all_targets0 : list ObjVec)
  (k : nat) (st : State) :
  state_after is_feasible cfg env candidate_pool pool_targets0 all_seqs0
    all_targets0 k = inr st ->
  paired_in_pool st (active_candidates st) (active_targets st)
  /\ paired_in_pool st (pareto_candidates st) (pareto_targets st)
  /\ paired_in_pool st (pareto_cand_history st) (pareto_target_history st).
Proof.
  intro H; apply state_after_coherent in H.
  unfold coherent in H; tauto.
Qed.

Section Outcomes.

Variable is_feasible : Candidate -> bool.
Variable cfg : Config.

Lemma round_metrics (round_idx : nat) (inp : RoundInput) (st st' : State) :
  round is_feasible cfg round_idx inp st = inr st' ->
  total_bb_evals st' = total_bb_evals st + bb_evals inp
  /\ ((length (pool_candidates st') = length (pool_candidates st)
       /\ metrics st' = metrics st)
      \/ (length (pool_candidates st) < length (pool_candidates st')
          /\ metrics st'
             = mkMetrics round_idx (pareto_targets st')
                 (total_bb_evals st'))).
Proof.
  intro H; apply round_inr in H; destruct H as (c & t & s & _ & H).
  apply absorb_inr in H; simpl in H.
  destruct H as [-> | [-> | H]]; simpl; auto.
  destruct H as (new_c & new_t & new_s & pareto_c & pareto_t
                 & Hne & _ & _ & _ & _ & _ & _ & ->); simpl.
  split; [reflexivity |]; right; split; [| reflexivity].
  rewrite length_app; destruct new_c; [congruence | simpl; lia].
Qed.

Lemma state_after_metrics_index (env : nat -> RoundInput)
  (candidate_pool : list Candidate) (pool_targets0 : list ObjVec)
  (all_seqs0 : list string) (all_targets0 : list ObjVec) (k : nat)
  (st : State) :
  state_after is_feasible cfg env candidate_pool pool_targets0 all_seqs0
    all_targets0 k = inr st ->
  m_round_idx (metrics st) <= k.
Proof.
  revert st; induction k as [| k IH]; intros st H.
  - apply state_after_0, init_inr in H.
    destruct H as (pc & pt & _ & _ & _ & _ & _ & _ & _ & _ & ->); simpl; lia.
  - apply state_after_S in H; destruct H as (st0 & H0 & H).
    specialize (IH st0 H0).
    apply round_metrics in H; destruct H as [_ [[_ ->] | [_ ->]]];
      simpl; lia.
Qed.

End Outcomes.

(** X10.  The record [optimize] returns has been sent to the tracker, was
    computed from the frontier the run ends with, and carries a round index
    of at most [num_rounds] and an evaluation count of at most the total
    count. *)
Theorem optimize_returns_a_logged_record
  (is_feasible : Candidate -> bool) (cfg : Config) (env : nat -> RoundInput)
  (candidate_pool : list Candidate) (pool_targets0 : list ObjVec)
  (all_seqs0 : list string) (all_targets0 : list ObjVec) (m : Metrics) :
  optimize is_feasible cfg env candidate_pool pool_targets0 all_seqs0
    all_targets0 = inr m ->
  exists st,
    run is_feasible cfg env candidate_pool pool_targets0 all_seqs0
      all_targets0 = inr st
    /\ m = metrics st
    /\ In (LogMetrics m) (trace st)
    /\ m_normed_targets m = pareto_targets st
    /\ m_round_idx m <= num_rounds cfg
    /\ m_num_bb_evals m <= total_bb_evals st.
Proof.
  unfold optimize; intro H; bind_inv H; inversion H; subst m.
  exists x; split; [exact Hx |]; split; [reflexivity |].
  unfold run in Hx.
  pose proof (state_after_metrics_index _ _ _ _ _ _ _ _ Hx) as Hidx.
  apply state_after_coherent in Hx.
  unfold coherent in Hx; tauto.
Qed.

(** X11.  A round either leaves the pool as it is, and then also the
    returned metrics record, or it enlarges the pool, and then the metrics
    record is the one of this round: its index, the new frontier and the
    evaluation count so far.  In both cases the evaluation count grows by
    the count reported for the round. *)
Theorem round_updates_metrics_iff_pool_grows
  (is_feasible : Candidate -> bool) (cfg : Config) (round_idx : nat)
  (inp : RoundInput) (st st' : State) :
  round is_feasible cfg round_idx inp st = inr st' ->
  total_bb_evals st' = total_bb_evals st + bb_evals inp
  /\ ((length (pool_candidates st') = length (pool_candidates st)
       /\ metrics st' = metrics st)
      \/ (length (pool_candidates st) < length (pool_candidates st')
          /\ metrics st'
             = mkMetrics round_idx (pareto_targets st')
                 (total_bb_evals st'))).
Proof. apply round_metrics. Qed.

(** ** Distinct sequences *)

Lemma nth_map_sequence (cands : list Candidate) (i : nat) :
  nth i (map mutant_residue_seq cands) ""%string
  = mutant_residue_seq (nth i cands no_candidate).
Proof.
  exact (map_nth mutant_residue_seq cands no_candidate i).
Qed.

Lemma append_fresh_NoDup (src active : list string) (idxs : list nat) :
  NoDup src -> NoDup active -> NoDup idxs ->
  Forall (fun i => i < length src) idxs ->
  (forall i, In i idxs -> ~ In (nth i src ""%string) active) ->
  NoDup (active ++ map (fun i => nth i src ""%string) idxs).
Proof.
  intros Hsrc Hact Hidx Hrange Hfresh.
  rewrite Forall_forall in Hrange.
  apply NoDup_app; [exact Hact | |].
  - apply NoDup_map_NoDup_ForallPairs; [| exact Hidx].
    intros i j Hi Hj E.
    apply (proj1 (NoDup_nth src ""%string) Hsrc); auto.
  - intros s Hs Hm; apply in_map_iff in Hm; destruct Hm as (i & <- & Hi).
    exact (Hfresh i Hi Hs).
Qed.

Lemma append_fresh_incl (src active pool : list string) (idxs : list nat) :
  incl active pool -> incl src pool ->
  Forall (fun i => i < length src) idxs ->
  incl (active ++ map (fun i => nth i src ""%string) idxs) pool.
Proof.
  intros Hact Hsrc Hrange; rewrite Forall_forall in Hrange.
  apply incl_app; [exact Hact |].
  intros s Hs; apply in_map_iff in Hs; destruct Hs as (i & <- & Hi).
  apply Hsrc, nth_In, Hrange, Hi.
Qed.

Lemma incl_fst_combine {A B : Type} (xs xs' : list A) (ys ys' : list B) :
  length ys = length xs ->
  incl (combine xs ys) (combine xs' ys') -> incl xs xs'.
Proof.
  intros Hlen Hincl x Hx.
  apply In_nth with (d := x) in Hx; destruct Hx as (i & Hi & <-).
  destruct ys as [| y0 ys0] eqn:Ey;
    [destruct xs; simpl in *; [lia | discriminate] |].
  rewrite <- Ey in *.
  assert (Hp : In (nth i xs x, nth i ys y0) (combine xs ys))
    by (apply nth_pair_In; lia).
  apply Hincl, in_combine_l in Hp; exact Hp.
Qed.

Section Distinct.

Variable is_feasible : Candidate -> bool.
Variable cfg : Config.

Lemma set_active_sequences_distinct (c : list Candidate) (t : list ObjVec)
  (s : list string) (st : State) :
  sequences_distinct st ->
  s = map mutant_residue_seq c -> NoDup s -> incl s (pool_seqs st) ->
  sequences_distinct (set_active c t s st).
Proof.
  unfold sequences_distinct; simpl; intros H Hs Hnd Hincl.
  repeat split; try tauto.
Qed.

Lemma contract_sequences_distinct (round_idx : nat) (st st' : State) :
  contract cfg round_idx st = inr st' ->
  sequences_distinct st -> sequences_distinct st'.
Proof.
  unfold contract; destruct (_ && _); intros H Hsd.
  - bind_inv H; destruct x as [c t]; inversion H; subst st'.
    apply pareto_frontier_masks in Hx.
    destruct Hx as (mask & _ & _ & -> & _).
    pose proof Hsd as (_ & Has & _ & _ & Hnd & Hincl & _).
    apply set_active_sequences_distinct; auto.
    + rewrite <- mask_filter_map, <- Has; apply NoDup_mask_filter, Hnd.
    + rewrite <- mask_filter_map, <- Has.
      intros s Hs; apply Hincl; exact (mask_filter_In _ _ _ Hs).
  - inversion H; subst; exact Hsd.
Qed.

Lemma backtrack_augment_sequences_distinct (draw : list nat)
  (st st' : State) :
  backtrack_augment cfg draw st = inr st' ->
  coherent st -> sequences_distinct st -> NoDup draw ->
  sequences_distinct st'.
Proof.
  intros H Hco Hsd Hdraw.
  apply backtrack_augment_indices in H; destruct H as [-> Hrange].
  destruct Hco as (_ & _ & Hhs & _).
  pose proof Hsd as (_ & Has & _ & _ & Hnd & Hincl & Hndh & Hinclh).
  assert (Hr : Forall (fun i => i < length (pareto_seq_history st))
                 (backtrack_indices cfg draw st))
    by (rewrite Forall_forall in *; intros i Hi; apply Hrange, Hi).
  apply set_active_sequences_distinct; auto.
  - rewrite map_app, map_map, <- Has; f_equal.
    apply map_ext; intro i; rewrite Hhs; apply nth_map_sequence.
  - apply append_fresh_NoDup; auto.
    + apply backtrack_indices_NoDup, Hdraw.
    + intros i Hi; apply (backtrack_indices_spec cfg draw st i Hi).
  - apply append_fresh_incl; auto.
Qed.

Lemma random_augment_sequences_distinct (draw : list nat) (st st' : State) :
  random_augment cfg draw st = inr st' ->
  sequences_distinct st -> NoDup draw ->
  sequences_distinct st'.
Proof.
  intros H Hsd Hdraw.
  apply random_augment_indices in H; destruct H as [-> Hrange].
  pose proof Hsd as (Hps & Has & Hndp & _ & Hnd & Hincl & _).
  assert (Hr : Forall (fun i => i < length (pool_seqs st))
                 (random_indices cfg draw st))
    by (rewrite Forall_forall in *; intros i Hi; apply Hrange, Hi).
  apply set_active_sequences_distinct; auto.
  - rewrite map_app, map_map, <- Has; f_equal.
    apply map_ext; intro i; rewrite Hps; apply nth_map_sequence.
  - apply append_fresh_NoDup; auto.
    + apply random_indices_NoDup, Hdraw.
    + intros i Hi; apply (random_indices_spec cfg draw st i Hi).
  - apply append_fresh_incl; auto using incl_refl.
Qed.

Lemma prepare_active_sequences_distinct (round_idx : nat) (inp : RoundInput)
  (st st' : State) :
  prepare_active cfg round_idx inp st = inr st' ->
  coherent st -> sequences_distinct st -> draws_distinct inp ->
  sequences_distinct st'.
Proof.
  unfold prepare_active, augment; intros H Hco Hsd [Hd1 Hd2].
  bind_inv H; bind_inv H.
  assert (Hco1 : coherent x) by (eapply contract_coherent; eauto).
  apply contract_sequences_distinct in Hx; [| exact Hsd].
  apply backtrack_augment_sequences_distinct in Hx0; auto.
  apply random_augment_sequences_distinct in H; auto.
Qed.

End Distinct.

Section DistinctRuns.

Variable is_feasible : Candidate -> bool.
Variable cfg : Config.

Lemma absorb_sequences (round_idx : nat) (inp : RoundInput)
  (st st' : State) :
  absorb is_feasible cfg round_idx inp st = inr st' ->
  sequences_distinct st -> proposals_consistent inp ->
  pool_seqs st' = map mutant_residue_seq (pool_candidates st')
  /\ active_seqs st' = map mutant_residue_seq (active_candidates st')
  /\ NoDup (pool_seqs st')
  /\ incl (pool_seqs st') (all_seqs st')
  /\ NoDup (active_seqs st')
  /\ incl (active_seqs st') (pool_seqs st').
Proof.
  intros H Hsd Hcons.
  destruct Hsd as (Hps & Has & Hndp & Hall & Hnda & Hact & _).
  apply absorb_inr in H; simpl in H.
  destruct H as [-> | [-> | H]]; simpl; auto 10.
  destruct H as (new_c & new_t & new_s & pareto_c & pareto_t
                 & _ & _ & _ & Hnd & Hnew & Halign & _ & ->); simpl.
  specialize (Halign Hcons).
  assert (Hfresh : forall a, In a (pool_seqs st) -> ~ In a new_s)
    by (intros a Ha Hn; exact (Hnew a Hn (Hall a Ha))).
  split; [rewrite map_app, <- Hps, <- Halign; reflexivity |].
  split; [rewrite map_app, <- Has, <- Halign; reflexivity |].
  split; [apply NoDup_app; assumption |].
  split; [apply incl_app_app; [exact Hall | apply incl_refl] |].
  split; [| apply incl_app_app; [exact Hact | apply incl_refl]].
  apply NoDup_app; auto.
Qed.

Lemma round_sequences_distinct (round_idx : nat) (inp : RoundInput)
  (st st' : State) :
  round is_feasible cfg round_idx inp st = inr st' ->
  coherent st -> sequences_distinct st ->
  proposals_consistent inp -> draws_distinct inp ->
  sequences_distinct st'.
Proof.
  intros H Hco Hsd Hcons Hdraws.
  assert (Hco' : coherent st') by (eapply round_coherent; eauto).
  assert (Hhist : NoDup (pareto_seq_history st')).
  { pose proof (round_history _ _ _ _ _ H) as [_ Hinv].
    apply Hinv; [exact Hcons |].
    destruct Hco as (_ & Hps & _ & _ & _ & _ & Harch & _).
    destruct Hsd as (_ & _ & _ & _ & _ & _ & Hnd & _).
    split; [exact Hnd | rewrite <- Hps; exact Harch]. }
  unfold round in H; bind_inv H.
  assert (Hsdx : sequences_distinct x)
    by (eapply prepare_active_sequences_distinct; eauto).
  assert (Hsde : sequences_distinct (emit [InnerOptimize round_idx] x))
    by exact Hsdx.
  assert (Hsix := H).
  eapply absorb_sequences in Hsix; [| exact Hsde | exact Hcons].
  destruct Hsix as (Hps' & Has' & Hndp' & Hall' & Hnda' & Hact').
  unfold sequences_distinct.
  repeat split; auto.
  destruct Hco' as (Hal' & _ & Hhs' & _ & _ & Hpaired & _).
  destruct Hal' as (_ & _ & _ & _ & _ & L6 & _).
  rewrite Hhs', Hps'; apply incl_map.
  exact (incl_fst_combine _ _ _ _ L6 Hpaired).
Qed.

Lemma init_sequences_distinct (candidate_pool : list Candidate)
  (pool_targets0 : list ObjVec) (all_seqs0 : list string)
  (all_targets0 : list ObjVec) (st : State) :
  init is_feasible cfg candidate_pool pool_targets0 all_seqs0 all_targets0
  = inr st ->
  NoDup (map mutant_residue_seq (filter is_feasible candidate_pool)) ->
  incl (map mutant_residue_seq (filter is_feasible candidate_pool))
       all_seqs0 ->
  sequences_distinct st.
Proof.
  unfold init; intros H Hnd Hincl.
  bind_inv_as H pool_c Hpool_c.
  bind_inv_as H pool_t Hpool_t.
  bind_inv_as H front Hfront; destruct front as [pareto_c pareto_t].
  bind_inv_as H tab Htab.
  inversion H; subst st; clear H.
  apply mask_index_inr in Hpool_c; destruct Hpool_c as [_ ->].
  rewrite mask_filter_map_pred in *.
  apply pareto_frontier_masks in Hfront.
  destruct Hfront as (mask & _ & _ & -> & _).
  unfold sequences_distinct; simpl.
  repeat split; auto using incl_refl.
  - rewrite <- mask_filter_map; apply NoDup_mask_filter, Hnd.
  - rewrite <- mask_filter_map.
    intros s Hs; exact (mask_filter_In _ _ _ Hs).
Qed.

Lemma state_after_sequences_distinct (env : nat -> RoundInput)
  (candidate_pool : list Candidate) (pool_targets0 : list ObjVec)
  (all_seqs0 : list string) (all_targets0 : list ObjVec) (k : nat)
  (st : State) :
  NoDup (map mutant_residue_seq (filter is_feasible candidate_pool)) ->
  incl (map mutant_residue_seq (filter is_feasible candidate_pool))
       all_seqs0 ->
  (forall r, proposals_consistent (env r)) ->
  (forall r, draws_distinct (env r)) ->
  state_after is_feasible cfg env candidate_pool pool_targets0 all_seqs0
    all_targets0 k = inr st ->
  sequences_distinct st.
Proof.
  intros Hnd Hincl Hcons Hdraws; revert st.
  induction k as [| k IH]; intros st H.
  - apply state_after_0 in H.
    eapply init_sequences_distinct; eauto.
  - apply state_after_S in H; destruct H as (st0 & H0 & H).
    eapply round_sequences_distinct; eauto.
    eapply state_after_coherent; eauto.
Qed.

End DistinctRuns.

(** X12.  If the feasible candidates of the initial pool have distinct
    sequences, all in the all-time set, every proposal batch carries the
    sequences of its candidates and no draw repeats an index, then at every
    round no sequence occurs twice in the pool or in the active set, both as
    the round ends and as the active set is handed to the inner optimizer of
    the next round. *)
Theorem pool_and_active_set_hold_distinct_sequences
  (is_feasible : Candidate -> bool) (cfg : Config) (env : nat -> RoundInput)
  (candidate_pool : list Candidate) (pool_targets0 : list ObjVec)
  (all_seqs0 : list string) (all_targets0 : list ObjVec)
  (k : nat) (st : State) :
  NoDup (map mutant_residue_seq (filter is_feasible candidate_pool)) ->
  incl (map mutant_residue_seq (filter is_feasible candidate_pool))
       all_seqs0 ->
  (forall r, proposals_consistent (env r)) ->
  (forall r, draws_distinct (env r)) ->
  state_after is_feasible cfg env candidate_pool pool_targets0 all_seqs0
    all_targets0 k = inr st ->
  NoDup (pool_seqs st)
  /\ NoDup (active_seqs st)
  /\ pool_seqs st = map mutant_residue_seq (pool_candidates st)
  /\ active_seqs st = map mutant_residue_seq (active_candidates st)
  /\ incl (active_seqs st) (pool_seqs st)
  /\ incl (pool_seqs st) (all_seqs st)
  /\ (forall st_p,
         prepare_active cfg (S k) (env (S k)) st = inr st_p ->
         NoDup (active_seqs st_p)
         /\ active_seqs st_p
            = map mutant_residue_seq (active_candidates st_p)).
Proof.
  intros Hnd Hincl Hcons Hdraws H.
  assert (Hsd : sequences_distinct st)
    by (eapply state_after_sequences_distinct; eauto).
  assert (Hco : coherent st) by (eapply state_after_coherent; eauto).
  pose proof Hsd as (Hps & Has & Hndp & Hall & Hnda & Hact & _).
  do 6 (split; [assumption |]).
  intros st_p Hp.
  assert (Hsdp : sequences_distinct st_p)
    by (eapply prepare_active_sequences_distinct; eauto).
  unfold sequences_distinct in Hsdp; tauto.
Qed.

(** ** Growth of the pool and of the all-time arrays *)

Section Growth.

Variable is_feasible : Candidate -> bool.
Variable cfg : Config.

Lemma round_growth (round_idx : nat) (inp : RoundInput) (st st' : State) :
  round is_feasible cfg round_idx inp st = inr st' ->
  exists new_c new_t new_s,
    pool_candidates st' = pool_candidates st ++ new_c
    /\ pool_targets st' = pool_targets st ++ new_t
    /\ pool_seqs st' = pool_seqs st ++ new_s
    /\ all_seqs st' = all_seqs st ++ new_s
    /\ all_targets st' = all_targets st ++ new_t
    /\ length new_t = length new_c
    /\ length new_s = length new_c
    /\ NoDup new_s
    /\ (forall s, In s new_s -> ~ In s (all_seqs st)).
Proof.
  intro H; apply round_inr in H; destruct H as (c & t & s & _ & H).
  apply absorb_inr in H; simpl in H.
  destruct H as [-> | [-> | H]].
  - exists [], [], []; simpl; rewrite !app_nil_r.
    repeat split; auto; constructor.
  - exists [], [], []; simpl; rewrite !app_nil_r.
    repeat split; auto; constructor.
  - destruct H as (new_c & new_t & new_s & pareto_c & pareto_t
                   & _ & Hnt & Hns & Hnd & Hnew & _ & _ & ->).
    exists new_c, new_t, new_s; simpl; repeat split; auto.
Qed.

Lemma round_without_growth (round_idx : nat) (inp : RoundInput)
  (st st' : State) :
  round is_feasible cfg round_idx inp st = inr st' ->
  length (pool_candidates st') = length (pool_candidates st) ->
  pool_candidates st' = pool_candidates st
  /\ pool_targets st' = pool_targets st
  /\ pool_seqs st' = pool_seqs st
  /\ all_seqs st' = all_seqs st
  /\ all_targets st' = all_targets st
  /\ pareto_candidates st' = pareto_candidates st
  /\ pareto_targets st' = pareto_targets st
  /\ pareto_seqs st' = pareto_seqs st
  /\ pareto_cand_history st' = pareto_cand_history st
  /\ pareto_seq_history st' = pareto_seq_history st
  /\ pareto_target_history st' = pareto_target_history st
  /\ norm_pareto_targets st' = norm_pareto_targets st
  /\ metrics st' = metrics st
  /\ inner_rounds (trace st') = inner_rounds (trace st) ++ [round_idx]
  /\ In (PrintNoNewCandidates round_idx) (trace st').
Proof.
  intros H Hlen.
  pose proof (round_inner_rounds _ _ _ _ _ H) as Hinner.
  apply round_inr in H; destruct H as (c & t & s & _ & H).
  apply absorb_inr in H; simpl in H.
  destruct H as [-> | [-> | H]]; simpl in *.
  - repeat split; auto.
    apply in_or_app; right; left; reflexivity.
  - repeat split; auto.
    apply in_or_app; left; apply in_or_app; right; left; reflexivity.
  - destruct H as (new_c & new_t & new_s & pareto_c & pareto_t
                   & Hne & _ & _ & _ & _ & _ & _ & ->).
    simpl in Hlen; rewrite length_app in Hlen.
    destruct new_c; [congruence | simpl in Hlen; lia].
Qed.

Lemma round_total_bb_evals (round_idx : nat) (inp : RoundInput)
  (st st' : State) :
  round is_feasible cfg round_idx inp st = inr st' ->
  total_bb_evals st' = total_bb_evals st + bb_evals inp.
Proof. intro H; apply round_metrics in H; tauto. Qed.

End Growth.

(** X13.  The pool and the all-time arrays only grow, and by the same
    entries: at every round they are their initial contents followed by the
    sequences and objective vectors accepted so far.  No sequence is
    accepted twice, and none that was in the initial all-time set. *)
Theorem pool_and_observations_grow_together
  (is_feasible : Candidate -> bool) (cfg : Config) (env : nat -> RoundInput)
  (candidate_pool : list Candidate) (pool_targets0 : list ObjVec)
  (all_seqs0 : list string) (all_targets0 : list ObjVec)
  (k : nat) (st : State) :
  state_after is_feasible cfg env candidate_pool pool_targets0 all_seqs0
    all_targets0 k = inr st ->
  exists added_c added_t added_s,
    pool_candidates st = filter is_feasible candidate_pool ++ added_c
    /\ pool_targets st
       = np.mask_filter (map is_feasible candidate_pool) pool_targets0
         ++ added_t
    /\ pool_seqs st
       = map mutant_residue_seq (filter is_feasible candidate_pool)
         ++ added_s
    /\ all_seqs st = all_seqs0 ++ added_s
    /\ all_targets st = all_targets0 ++ added_t
    /\ length added_t = length added_c
    /\ length added_s = length added_c
    /\ NoDup added_s
    /\ (forall s, In s added_s -> ~ In s all_seqs0).
Proof.
  revert st; induction k as [| k IH]; intros st H.
  - apply state_after_0 in H.
    exists [], [], []; rewrite !app_nil_r.
    unfold init in H.
    bind_inv_as H pool_c Hpool_c.
    bind_inv_as H pool_t Hpool_t.
    bind_inv_as H front Hfront; destruct front as [pareto_c pareto_t].
    bind_inv_as H tab Htab.
    inversion H; subst st; clear H; simpl.
    apply mask_index_inr in Hpool_c, Hpool_t.
    destruct Hpool_c as [_ ->], Hpool_t as [_ ->].
    rewrite mask_filter_map_pred.
    repeat split; auto; try constructor.
  - apply state_after_S in H; destruct H as (st0 & H0 & H).
    destruct (IH st0 H0)
      as (ac & at0 & as0 & Hpc & Hpt & Hps & Hall & Hallt & Lt & Ls
          & Hnd & Hfresh).
    apply round_growth in H.
    destruct H as (nc & nt & ns & Hpc' & Hpt' & Hps' & Hall' & Hallt'
                   & Lt' & Ls' & Hnd' & Hnew).
    exists (ac ++ nc), (at0 ++ nt), (as0 ++ ns).
    rewrite Hpc', Hpt', Hps', Hall', Hallt', Hpc, Hpt, Hps, Hall, Hallt.
    rewrite !app_assoc, !length_app.
    repeat split; auto.
    + apply NoDup_app; auto.
      intros a Ha Hn; apply (Hnew a Hn).
      rewrite Hall; apply in_or_app; right; exact Ha.
    + intros s Hs Hin; apply in_app_or in Hs; destruct Hs as [Hs | Hs].
      * exact (Hfresh s Hs Hin).
      * apply (Hnew s Hs); rewrite Hall; apply in_or_app; left; exact Hin.
Qed.

(** X14.  After [k] rounds the evaluation count is the sum of the counts
    reported for the rounds [1 .. k], whether or not their proposals
    survived the filters. *)
Theorem total_bb_evals_sums_the_rounds
  (is_feasible : Candidate -> bool) (cfg : Config) (env : nat -> RoundInput)
  (candidate_pool : list Candidate) (pool_targets0 : list ObjVec)
  (all_seqs0 : list string) (all_targets0 : list ObjVec)
  (k : nat) (st : State) :
  state_after is_feasible cfg env candidate_pool pool_targets0 all_seqs0
    all_targets0 k = inr st ->
  total_bb_evals st = list_sum (map (fun r => bb_evals (env r)) (seq 1 k)).
Proof.
  revert st; induction k as [| k IH]; intros st H.
  - apply state_after_0 in H.
    unfold init in H.
    bind_inv H; bind_inv H; bind_inv H; destruct x1; bind_inv H.
    inversion H; reflexivity.
  - apply state_after_S in H; destruct H as (st0 & H0 & H).
    apply round_total_bb_evals in H.
    rewrite H, (IH st0 H0), seq_S, map_app, list_sum_app; simpl; lia.
Qed.

(** X15.  With the result parsing of [ModelFreeGeneticOptimizer], every
    round counts [num_gens * pop_size] evaluations, so the count after [k]
    rounds is [k * (num_gens * pop_size)] whatever the populations hold. *)
Theorem model_free_evaluation_count
  (is_feasible : Candidate -> bool) (cfg : Config)
  (num_gens pop_size : nat) (draws : nat -> list nat * list nat)
  (pops : nat -> Population)
  (candidate_pool : list Candidate) (pool_targets0 : list ObjVec)
  (all_seqs0 : list string) (all_targets0 : list ObjVec)
  (k : nat) (st : State) :
  state_after is_feasible cfg
    (fun r => ModelFreeGeneticOptimizer.round_input num_gens pop_size
                (draws r) (pops r))
    candidate_pool pool_targets0 all_seqs0 all_targets0 k = inr st ->
  total_bb_evals st = k * (num_gens * pop_size).
Proof.
  revert st; induction k as [| k IH]; intros st H.
  - apply state_after_0 in H.
    unfold init in H.
    bind_inv H; bind_inv H; bind_inv H; destruct x1; bind_inv H.
    inversion H; reflexivity.
  - apply state_after_S in H; destruct H as (st0 & H0 & H).
    apply round_total_bb_evals in H.
    rewrite H, (IH st0 H0); simpl; lia.
Qed.

(** X16.  A round that leaves the size of the pool unchanged leaves the
    pool, the all-time arrays, the frontier, the history and the metrics
    record unchanged; it has called the inner optimizer and printed
    'no new candidates'. *)
Theorem round_without_survivors
  (is_feasible : Candidate -> bool) (cfg : Config) (round_idx : nat)
  (inp : RoundInput) (st st' : State) :
  round is_feasible cfg round_idx inp st = inr st' ->
  length (pool_candidates st') = length (pool_candidates st) ->
  pool_candidates st' = pool_candidates st
  /\ pool_targets st' = pool_targets st
  /\ pool_seqs st' = pool_seqs st
  /\ all_seqs st' = all_seqs st
  /\ all_targets st' = all_targets st
  /\ pareto_candidates st' = pareto_candidates st
  /\ pareto_targets st' = pareto_targets st
  /\ pareto_seqs st' = pareto_seqs st
  /\ pareto_cand_history st' = pareto_cand_history st
  /\ pareto_seq_history st' = pareto_seq_history st
  /\ pareto_target_history st' = pareto_target_history st
  /\ norm_pareto_targets st' = norm_pareto_targets st
  /\ metrics st' = metrics st
  /\ inner_rounds (trace st') = inner_rounds (trace st) ++ [round_idx]
  /\ In (PrintNoNewCandidates round_idx) (trace st').
Proof. apply round_without_growth. Qed.

(** ** An empty feasible pool *)

Lemma mask_filter_none {A : Type} (p : A -> bool) (xs : list A)
  {B : Type} (ys : list B) :
  Forall (fun a => p a = false) xs ->
  np.mask_filter (map p xs) ys = [].
Proof.
  intro H; revert ys; induction H as [| a xs Ha _ IH]; intros [| y ys];
    simpl; auto.
  rewrite Ha; apply IH.
Qed.

Lemma init_without_feasible_candidates (is_feasible : Candidate -> bool)
  (cfg : Config) (candidate_pool : list Candidate)
  (pool_targets0 : list ObjVec) (all_seqs0 : list string)
  (all_targets0 : list ObjVec) :
  length pool_targets0 = length candidate_pool ->
  Forall (fun c => is_feasible c = false) candidate_pool ->
  0 < obj_dim cfg ->
  init is_feasible cfg candidate_pool pool_targets0 all_seqs0 all_targets0
  = inl ValueError.
Proof.
  intros Hlen Hnone Hdim; unfold init.
  rewrite !mask_index_ok by (rewrite length_map; auto); simpl.
  rewrite (@mask_filter_none Candidate is_feasible candidate_pool
             Candidate candidate_pool Hnone).
  rewrite (@mask_filter_none Candidate is_feasible candidate_pool
             ObjVec pool_targets0 Hnone).
  simpl.
  unfold obj_vals_table.
  destruct (obj_dim cfg) as [| d]; [lia |]; reflexivity.
Qed.

(** X17.  If the oracle rejects every candidate of the initial pool and
    there is at least one objective, [optimize] raises instead of returning
    a metrics record: the frontier is empty and its column minima (line 124)
    do not exist. *)
Theorem optimize_raises_without_feasible_candidates
  (is_feasible : Candidate -> bool) (cfg : Config) (env : nat -> RoundInput)
  (candidate_pool : list Candidate) (pool_targets0 : list ObjVec)
  (all_seqs0 : list string) (all_targets0 : list ObjVec) :
  length pool_targets0 = length candidate_pool ->
  Forall (fun c => is_feasible c = false) candidate_pool ->
  0 < obj_dim cfg ->
  forall m,
    optimize is_feasible cfg env candidate_pool pool_targets0 all_seqs0
      all_targets0 <> inr m.
Proof.
  intros Hlen Hnone Hdim m; unfold optimize, run, state_after.
  rewrite init_without_feasible_candidates; auto.
  discriminate.
Qed.

(** ** Where the augmented active set comes from *)

(** X18.  Augmentation keeps the active set and appends to it first entries
    of the history, then entries of the pool, each with its own objective
    vector and sequence.  The history entries are drawn entries whose
    sequence is not active; the pool entries are drawn entries whose
    sequence is neither active nor just appended, and they are appended
    only while the set is below [batch_size]. *)
Theorem augment_appends_history_then_pool
  (cfg : Config) (inp : RoundInput) (st st' : State) :
  augment cfg inp st = inr st' ->
  exists h p,
    active_candidates st'
    = active_candidates st
      ++ map (fun i => nth i (pareto_cand_history st) no_candidate) h
      ++ map (fun i => nth i (pool_candidates st) no_candidate) p
    /\ active_targets st'
       = active_targets st
         ++ map (fun i => nth i (pareto_target_history st) ([] : ObjVec)) h
         ++ map (fun i => nth i (pool_targets st) ([] : ObjVec)) p
    /\ active_seqs st'
       = active_seqs st
         ++ map (fun i => nth i (pareto_seq_history st) ""%string) h
         ++ map (fun i => nth i (pool_seqs st) ""%string) p
    /\ Forall (fun i => In i (hist_draw inp)
                        /\ i < length (pareto_cand_history st)
                        /\ i < length (pareto_target_history st)
                        /\ i < length (pareto_seq_history st)
                        /\ ~ In (nth i (pareto_seq_history st) ""%string)
                                (active_seqs st)) h
    /\ Forall (fun i => In i (rand_draw inp)
                        /\ i < length (pool_candidates st)
                        /\ i < length (pool_targets st)
                        /\ i < length (pool_seqs st)
                        /\ ~ In (nth i (pool_seqs st) ""%string)
                                (active_seqs st
                                 ++ map (fun j => nth j (pareto_seq_history st)
                                                    ""%string) h)) p
    /\ (p <> [] -> length (active_candidates st) + length h < batch_size cfg)
    /\ length (active_candidates st')
       <= Nat.max (batch_size cfg) (length (active_candidates st)).
Proof.
  unfold augment; intro H; bind_inv_as H st_b Hb.
  pose proof (backtrack_augment_indices _ _ _ Hb) as [Eb Rb].
  pose proof (random_augment_indices _ _ _ H) as [Er Rr].
  set (h := backtrack_indices cfg (hist_draw inp) st) in *.
  set (p := random_indices cfg (rand_draw inp) st_b) in *.
  assert (Hlen_b : length (active_candidates st_b)
                   = length (active_candidates st) + length h)
    by (rewrite Eb; simpl; rewrite length_app, length_map; reflexivity).
  exists h, p.
  rewrite Er, Eb; simpl; rewrite <- !app_assoc.
  do 3 (split; [reflexivity |]).
  split.
  { apply Forall_forall; intros i Hi.
    rewrite Forall_forall in Rb; specialize (Rb i Hi).
    destruct (backtrack_indices_spec cfg (hist_draw inp) st i Hi); tauto. }
  split.
  { apply Forall_forall; intros i Hi.
    rewrite Forall_forall in Rr; specialize (Rr i Hi).
    destruct (random_indices_spec cfg (rand_draw inp) st_b i Hi)
      as [Hin Hfresh].
    rewrite Eb in Rr, Hfresh; simpl in Rr, Hfresh; tauto. }
  split.
  { intro Hne; unfold p, random_indices in Hne.
    destruct (_ <? _) eqn:E in Hne; [| congruence].
    apply Nat.ltb_lt in E; lia. }
  rewrite !length_app, !length_map.
  pose proof (backtrack_indices_length cfg (hist_draw inp) st) as Lb.
  pose proof (random_indices_length cfg (rand_draw inp) st_b) as Lr.
  fold h in Lb; fold p in Lr; lia.
Qed.

(** ** Rounds that do not raise *)

Lemma column_total (targets : list ObjVec) (i m : nat) :
  rectangular m targets -> i < m ->
  np.column targets i = inr (map (fun row => nth i row 0%Z) targets).
Proof.
  intros Hrect Hi; apply mapM_total.
  induction Hrect as [| row targets Hrow _ IH]; constructor; auto.
  rewrite (nth_error_nth' row 0%Z) by lia; reflexivity.
Qed.

Lemma obj_vals_table_total (cfg : Config) (targets : list ObjVec) :
  targets <> [] -> rectangular (obj_dim cfg) targets ->
  exists tab, obj_vals_table cfg targets = inr tab.
Proof.
  intros Hne Hrect; unfold obj_vals_table.
  eexists.
  apply (mapM_total _
           (fun i => match map (fun row => nth i row 0%Z) targets with
                     | [] => 0%Z
                     | x :: xs => fold_left Z.min xs x
                     end)).
  apply Forall_forall; intros i Hi; apply in_seq in Hi.
  rewrite (@column_total targets i (obj_dim cfg) Hrect) by lia; simpl.
  destruct targets; [congruence | reflexivity].
Qed.

Lemma rectangular_mask_filter (m : nat) (mask : list bool)
  (vals : list ObjVec) :
  rectangular m vals -> rectangular m (np.mask_filter mask vals).
Proof.
  unfold rectangular; rewrite !Forall_forall; intros H v Hv.
  apply H; exact (mask_filter_In _ _ _ Hv).
Qed.

Lemma rectangular_nth (m : nat) (vals : list ObjVec) (idxs : list nat) :
  rectangular m vals -> Forall (fun i => i < length vals) idxs ->
  rectangular m (map (fun i => nth i vals ([] : ObjVec)) idxs).
Proof.
  unfold rectangular; rewrite !Forall_forall; intros H Hr v Hv.
  apply in_map_iff in Hv; destruct Hv as (i & <- & Hi).
  apply H, nth_In, Hr, Hi.
Qed.

Lemma rectangular_snd_incl {A : Type} (m : nat) (xs xs' : list A)
  (ys ys' : list ObjVec) :
  length xs = length ys ->
  incl (combine xs ys) (combine xs' ys') ->
  rectangular m ys' -> rectangular m ys.
Proof.
  unfold rectangular; rewrite !Forall_forall; intros Hlen Hincl H v Hv.
  apply In_nth with (d := v) in Hv; destruct Hv as (i & Hi & <-).
  destruct xs as [| x0 xs0] eqn:Ex;
    [destruct ys; simpl in *; [lia | discriminate] |].
  rewrite <- Ex in *.
  assert (Hp : In (nth i xs x0, nth i ys v) (combine xs ys))
    by (apply nth_pair_In; unfold ObjVec in *; lia).
  apply Hincl, in_combine_r in Hp; apply H; exact Hp.
Qed.

Lemma unique_indices_range (ar : list string) :
  Forall (fun i => i < length ar) (snd (np.unique ar))
  /\ length (snd (np.unique ar)) = length (fst (np.unique ar)).
Proof.
  pose proof (unique_indices ar) as H.
  induction H as [| i s idxs u Hi _ [IH1 IH2]]; simpl; [auto |].
  split; [| rewrite IH2; reflexivity].
  constructor; [| exact IH1].
  apply nth_error_Some; rewrite Hi; discriminate.
Qed.

Section Totality.

Variable is_feasible : Candidate -> bool.
Variable cfg : Config.

Lemma contract_total (round_idx : nat) (st : State) :
  aligned st -> exists st', contract cfg round_idx st = inr st'.
Proof.
  intros (_ & _ & L3 & _); unfold contract.
  destruct (_ && _); [| eauto].
  destruct (pareto_frontier_total (active_candidates st) (active_targets st)
              false (eq_sym L3)) as (c & t & H).
  rewrite H; simpl; eauto.
Qed.

Lemma backtrack_augment_total (draw : list nat) (st : State) :
  aligned st ->
  np.valid_draw (length (pareto_cand_history st))
    (Nat.min (batch_size cfg) (length (pareto_cand_history st))) draw ->
  exists st', backtrack_augment cfg draw st = inr st'.
Proof.
  intros (_ & _ & _ & _ & _ & L6 & L7) Hdraw.
  destruct (length (active_candidates st) <? batch_size cfg) eqn:E.
  - apply Nat.ltb_lt in E.
    rewrite (@backtrack_augment_valid cfg draw st E L7 L6 Hdraw); eauto.
  - unfold backtrack_augment; rewrite E; eauto.
Qed.

Lemma random_augment_total (draw : list nat) (st : State) :
  aligned st ->
  np.valid_draw (length (pool_candidates st))
    (Nat.min (batch_size cfg) (length (pool_candidates st))) draw ->
  exists st', random_augment cfg draw st = inr st'.
Proof.
  intros (L1 & L2 & _) (_ & _ & Hrange).
  unfold random_augment.
  destruct (length (active_candidates st) <? batch_size cfg); [| eauto].
  rewrite random_choice_capped; simpl.
  rewrite (fancy_index_ok ""%string) by (rewrite L2; exact Hrange); simpl.
  rewrite mask_index_ok
    by (rewrite length_map, in1d_length, length_map; reflexivity).
  simpl; rewrite not_active_mask.
  set (idxs := firstn _ _).
  assert (Hidx : Forall (fun i => i < length (pool_candidates st)) idxs).
  { apply Forall_forall; intros i Hi.
    rewrite Forall_forall in Hrange; apply Hrange.
    apply (not_active_incl (pool_seqs st) (active_seqs st)).
    exact (firstn_incl _ _ i Hi). }
  rewrite (fancy_index_ok no_candidate) by exact Hidx; simpl.
  rewrite (fancy_index_ok ([] : ObjVec)) by (rewrite L1; exact Hidx); simpl.
  rewrite (fancy_index_ok ""%string) by (rewrite L2; exact Hidx); simpl.
  eauto.
Qed.

Lemma prepare_active_total (round_idx : nat) (inp : RoundInput) (st : State) :
  coherent st -> draws_valid cfg inp st ->
  exists st', prepare_active cfg round_idx inp st = inr st'.
Proof.
  intros Hco [Hd1 Hd2]; unfold prepare_active, augment.
  destruct (@contract_total round_idx st (proj1 Hco)) as (st1 & H1).
  rewrite H1; simpl.
  assert (Hco1 : coherent st1) by (eapply contract_coherent; eauto).
  apply contract_inr in H1; destruct H1 as (c & t & s & E1 & _).
  destruct (@backtrack_augment_total (hist_draw inp) st1 (proj1 Hco1))
    as (st2 & H2); [rewrite E1; exact Hd1 |].
  rewrite H2; simpl.
  assert (Hco2 : coherent st2) by (eapply backtrack_augment_coherent; eauto).
  apply backtrack_augment_inr in H2; destruct H2 as (c2 & t2 & s2 & E2 & _).
  apply random_augment_total; [exact (proj1 Hco2) |].
  rewrite E2, E1; exact Hd2.
Qed.

End Totality.

Lemma fancy_index_incl {A : Type} (xs : list A) (idxs : list nat)
  (ys : list A) :
  np.fancy_index xs idxs = inr ys -> incl ys xs.
Proof.
  intro H; apply fancy_index_inr in H.
  induction H as [| i y idxs ys Hi _ IH]; intros a Ha; [destruct Ha |].
  destruct Ha as [<- | Ha]; [| apply IH; exact Ha].
  exact (nth_error_In _ _ Hi).
Qed.

Section TotalRounds.

Variable is_feasible : Candidate -> bool.
Variable cfg : Config.

Lemma absorb_new_targets (round_idx : nat) (inp : RoundInput)
  (st st' : State) :
  absorb is_feasible cfg round_idx inp st = inr st' ->
  exists new_t,
    pool_targets st' = pool_targets st ++ new_t /\ incl new_t (F inp).
Proof.
  unfold absorb; intro H.
  bind_inv_as H seqs1 Hseqs1.
  bind_inv_as H cands1 Hcands1.
  bind_inv_as H targets1 Htargets1.
  destruct (length cands1 =? 0).
  { inversion H; subst; exists []; simpl; rewrite app_nil_r.
    split; [reflexivity | intros a []]. }
  destruct (np.unique seqs1) as [u idxs].
  bind_inv_as H cands2 Hcands2.
  bind_inv_as H targets2 Htargets2.
  bind_inv_as H new_s Hnew_s.
  bind_inv_as H new_c Hnew_c.
  bind_inv_as H new_t Hnew_t.
  destruct (length new_c =? 0).
  { inversion H; subst; exists []; simpl; rewrite app_nil_r.
    split; [reflexivity | intros a []]. }
  bind_inv_as H front Hfront; destruct front as [pareto_c pareto_t].
  bind_inv_as H tab1 Htab1.
  bind_inv_as H tab2 Htab2.
  bind_inv_as H hist_c Hhist_c.
  bind_inv_as H hist_s Hhist_s.
  bind_inv_as H hist_t Hhist_t.
  inversion H; subst st'; clear H; simpl.
  exists new_t; split; [reflexivity |].
  apply mask_index_inr in Hnew_t, Htargets1.
  destruct Hnew_t as [_ ->], Htargets1 as [_ ->].
  intros a Ha; apply mask_filter_In in Ha.
  apply (fancy_index_incl _ _ Htargets2) in Ha.
  exact (mask_filter_In _ _ _ Ha).
Qed.

Lemma round_keeps_pool_rectangular (round_idx : nat) (inp : RoundInput)
  (st st' : State) :
  round is_feasible cfg round_idx inp st = inr st' ->
  rectangular (obj_dim cfg) (pool_targets st) ->
  rectangular (obj_dim cfg) (F inp) ->
  rectangular (obj_dim cfg) (pool_targets st').
Proof.
  unfold round; intros H Hpool HF; bind_inv H.
  apply prepare_active_inr in Hx; destruct Hx as (c & t & s & -> & _).
  apply absorb_new_targets in H; simpl in H.
  destruct H as (new_t & -> & Hincl).
  apply Forall_app; split; [exact Hpool |].
  unfold rectangular in *; rewrite Forall_forall in *; auto.
Qed.

Lemma absorb_total (round_idx : nat) (inp : RoundInput) (st : State) :
  coherent st ->
  rectangular (obj_dim cfg) (pool_targets st) ->
  proposals_well_formed cfg inp ->
  exists st', absorb is_feasible cfg round_idx inp st = inr st'.
Proof.
  intros Hco Hpool (Ls & Lf & HF).
  destruct Hco as (Hal & _ & _ & _ & Hpar & _).
  destruct Hal as (_ & _ & _ & _ & L5 & _).
  assert (Hpt : rectangular (obj_dim cfg) (pareto_targets st))
    by (eapply rectangular_snd_incl; [symmetry; exact L5 | exact Hpar |
        exact Hpool]).
  unfold absorb.
  set (feas := map is_feasible (X_cand inp)).
  assert (Lfeas : length feas = length (X_cand inp))
    by (unfold feas; apply length_map).
  rewrite !mask_index_ok by congruence; simpl.
  set (seqs1 := np.mask_filter feas (X_seq inp)).
  set (cands1 := np.mask_filter feas (X_cand inp)).
  set (targets1 := np.mask_filter feas (F inp)).
  assert (L1 : length seqs1 = length cands1)
    by (unfold seqs1, cands1; rewrite !mask_filter_length by congruence;
        reflexivity).
  assert (L2 : length targets1 = length cands1)
    by (unfold targets1, cands1; rewrite !mask_filter_length by congruence;
        reflexivity).
  assert (R1 : rectangular (obj_dim cfg) targets1)
    by (apply rectangular_mask_filter, HF).
  destruct (length cands1 =? 0); [eauto |].
  pose proof (unique_indices_range seqs1) as [Hrange Hlen].
  unfold np.unique in Hrange, Hlen; cbn [fst snd] in Hrange, Hlen.
  set (u := StringSort.sort (nodup string_dec seqs1)) in *.
  set (idxs := map (fun s => np.first_index s seqs1) u) in *.
  rewrite (fancy_index_ok no_candidate) by (rewrite <- L1; exact Hrange).
  simpl.
  rewrite (fancy_index_ok ([] : ObjVec))
    by (rewrite L2, <- L1; exact Hrange).
  simpl.
  set (cands2 := map (fun i => nth i cands1 no_candidate) idxs).
  set (targets2 := map (fun i => nth i targets1 ([] : ObjVec)) idxs).
  assert (R2 : rectangular (obj_dim cfg) targets2)
    by (apply rectangular_nth; [exact R1 | rewrite L2, <- L1; exact Hrange]).
  set (is_new := np.in1d u _ true).
  assert (Lnew : length is_new = length u)
    by (unfold is_new; apply in1d_length).
  rewrite !mask_index_ok
    by (unfold cands2, targets2; rewrite ?length_map; congruence).
  simpl.
  set (new_c := np.mask_filter is_new cands2).
  set (new_t := np.mask_filter is_new targets2).
  assert (L3 : length new_t = length new_c)
    by (unfold new_t, new_c, targets2, cands2;
        rewrite !mask_filter_length by (rewrite length_map; congruence);
        reflexivity).
  destruct (length new_c =? 0) eqn:E0.
  { unfold _log_optimizer_metrics; simpl; eauto. }
  apply Nat.eqb_neq in E0.
  assert (R3 : rectangular (obj_dim cfg) new_t)
    by (apply rectangular_mask_filter, R2).
  assert (Hne : new_t <> [])
    by (intro E; rewrite E in L3; simpl in L3; lia).
  destruct (pareto_frontier_total (pareto_candidates st ++ new_c)
              (pareto_targets st ++ new_t) false) as (pc & pt & Hfront).
  { rewrite !length_app; congruence. }
  simpl; rewrite Hfront; simpl.
  destruct (obj_vals_table_total cfg Hne R3) as (tab1 & ->); simpl.
  pose proof (pareto_frontier_lengths _ _ _ Hfront) as [Lfront _].
  pose proof (pareto_frontier_inr _ _ _ Hfront) as Hspec; simpl in Hspec.
  destruct Hspec as (_ & _ & Hpt').
  assert (Rall : rectangular (obj_dim cfg) (pareto_targets st ++ new_t))
    by (apply Forall_app; split; assumption).
  assert (Rpt : rectangular (obj_dim cfg) pt).
  { rewrite Hpt'; unfold rectangular, spec_frontier in *.
    rewrite Forall_forall in *; intros v Hv; apply filter_In in Hv.
    apply Rall; tauto. }
  assert (Hpt_ne : pt <> []).
  { destruct new_t as [| v new_t'] eqn:En; [congruence |].
    destruct (@frontier_covers false (obj_dim cfg)
                (pareto_targets st ++ v :: new_t') v Rall)
      as (w & Hw & _); [apply in_or_app; right; left; reflexivity |].
    rewrite <- Hpt' in Hw; intro E; rewrite E in Hw; exact Hw. }
  destruct (obj_vals_table_total cfg Hpt_ne Rpt) as (tab2 & ->); simpl.
  rewrite !mask_index_ok
    by (rewrite in1d_length, ?length_map; congruence).
  simpl; eauto.
Qed.

Lemma round_total (round_idx : nat) (inp : RoundInput) (st : State) :
  coherent st ->
  rectangular (obj_dim cfg) (pool_targets st) ->
  proposals_well_formed cfg inp ->
  draws_valid cfg inp st ->
  exists st', round is_feasible cfg round_idx inp st = inr st'.
Proof.
  intros Hco Hpool Hwf Hdraws; unfold round.
  destruct (@prepare_active_total cfg round_idx inp st Hco Hdraws)
    as (st1 & H1).
  rewrite H1; simpl.
  assert (Hco1 : coherent st1) by (eapply prepare_active_coherent; eauto).
  apply prepare_active_inr in H1; destruct H1 as (c & t & s & E & _).
  apply absorb_total; [apply emit_coherent, Hco1 | | exact Hwf].
  rewrite E; exact Hpool.
Qed.

End TotalRounds.

Section TotalRuns.

Variable is_feasible : Candidate -> bool.
Variable cfg : Config.

Lemma init_total (candidate_pool : list Candidate)
  (pool_targets0 : list ObjVec) (all_seqs0 : list string)
  (all_targets0 : list ObjVec) :
  length pool_targets0 = length candidate_pool ->
  rectangular (obj_dim cfg) pool_targets0 ->
  filter is_feasible candidate_pool <> [] ->
  exists st,
    init is_feasible cfg candidate_pool pool_targets0 all_seqs0 all_targets0
    = inr st.
Proof.
  intros Hlen Hrect Hne; unfold init.
  rewrite !mask_index_ok by (rewrite length_map; auto); simpl.
  rewrite mask_filter_map_pred.
  set (pool_c := filter is_feasible candidate_pool) in *.
  set (pool_t := np.mask_filter (map is_feasible candidate_pool)
                   pool_targets0).
  assert (L : length pool_c = length pool_t).
  { unfold pool_c, pool_t; rewrite <- mask_filter_map_pred.
    rewrite !mask_filter_length by (rewrite length_map; auto).
    reflexivity. }
  assert (R : rectangular (obj_dim cfg) pool_t)
    by (apply rectangular_mask_filter, Hrect).
  destruct (pareto_frontier_total pool_c pool_t true L) as (pc & pt & Hf).
  rewrite Hf; simpl.
  pose proof (pareto_frontier_inr _ _ _ Hf) as Hspec; simpl in Hspec.
  destruct Hspec as (_ & _ & Hpt).
  assert (Rpt : rectangular (obj_dim cfg) pt).
  { rewrite Hpt; unfold rectangular, spec_frontier in *.
    rewrite Forall_forall in *; intros v Hv; apply filter_In in Hv.
    apply R; tauto. }
  assert (Hpt_ne : pt <> []).
  { destruct pool_t as [| v pool_t'] eqn:En;
      [destruct pool_c; [congruence | discriminate] |].
    destruct (@frontier_covers true (obj_dim cfg) (v :: pool_t') v R)
      as (w & Hw & _); [left; reflexivity |].
    rewrite <- Hpt in Hw; intro E; rewrite E in Hw; exact Hw. }
  destruct (obj_vals_table_total cfg Hpt_ne Rpt) as (tab & ->); simpl.
  eauto.
Qed.

Lemma init_pool_rectangular (candidate_pool : list Candidate)
  (pool_targets0 : list ObjVec) (all_seqs0 : list string)
  (all_targets0 : list ObjVec) (st : State) :
  init is_feasible cfg candidate_pool pool_targets0 all_seqs0 all_targets0
  = inr st ->
  rectangular (obj_dim cfg) pool_targets0 ->
  rectangular (obj_dim cfg) (pool_targets st).
Proof.
  intros H Hrect; apply init_inr in H.
  destruct H as (pc & pt & _ & _ & -> & _).
  apply rectangular_mask_filter, Hrect.
Qed.

Lemma state_after_pool_rectangular (env : nat -> RoundInput)
  (candidate_pool : list Candidate) (pool_targets0 : list ObjVec)
  (all_seqs0 : list string) (all_targets0 : list ObjVec) (k : nat)
  (st : State) :
  rectangular (obj_dim cfg) pool_targets0 ->
  (forall r, rectangular (obj_dim cfg) (F (env r))) ->
  state_after is_feasible cfg env candidate_pool pool_targets0 all_seqs0
    all_targets0 k = inr st ->
  rectangular (obj_dim cfg) (pool_targets st).
Proof.
  intros Hrect HF; revert st; induction k as [| k IH]; intros st H.
  - apply state_after_0 in H; eapply init_pool_rectangular; eauto.
  - apply state_after_S in H; destruct H as (st0 & H0 & H).
    eapply round_keeps_pool_rectangular; eauto.
Qed.

Lemma state_after_total (env : nat -> RoundInput)
  (candidate_pool : list Candidate) (pool_targets0 : list ObjVec)
  (all_seqs0 : list string) (all_targets0 : list ObjVec) (n k : nat) :
  length pool_targets0 = length candidate_pool ->
  rectangular (obj_dim cfg) pool_targets0 ->
  filter is_feasible candidate_pool <> [] ->
  (forall r, proposals_well_formed cfg (env r)) ->
  (forall j st,
      j < n ->
      state_after is_feasible cfg env candidate_pool pool_targets0
        all_seqs0 all_targets0 j = inr st ->
      draws_valid cfg (env (S j)) st) ->
  k <= n ->
  exists st,
    state_after is_feasible cfg env candidate_pool pool_targets0 all_seqs0
      all_targets0 k = inr st.
Proof.
  intros Hlen Hrect Hne Hwf Hdraws.
  induction k as [| k IH]; intro Hk.
  - destruct (init_total candidate_pool all_seqs0 all_targets0 Hlen Hrect Hne)
      as (st & H).
    exists st; unfold state_after; rewrite H; reflexivity.
  - destruct IH as (st & H); [lia |].
    destruct (@round_total is_feasible cfg (S k) (env (S k)) st)
      as (st' & H').
    + eapply state_after_coherent; eauto.
    + eapply state_after_pool_rectangular; eauto.
      intro r; apply Hwf.
    + apply Hwf.
    + apply (Hdraws k st); [lia | exact H].
    + exists st'; unfold state_after in *.
      bind_inv H; rewrite Hx; cbn [bind].
      rewrite rounds_snoc, H; exact H'.
Qed.

End TotalRuns.

(** X19.  [optimize] returns a metrics record, and none of its array
    operations raises (assertion, index, draw or empty minimum), when the
    initial arrays agree in length, the objective matrices (of the pool and
    of every proposal batch) have [obj_dim] columns, the proposal arrays
    agree in length, some candidate of the pool is feasible, and every draw
    is a without-replacement draw of the requested size. *)
Theorem optimize_returns_on_well_formed_input
  (is_feasible : Candidate -> bool) (cfg : Config) (env : nat -> RoundInput)
  (candidate_pool : list Candidate) (pool_targets0 : list ObjVec)
  (all_seqs0 : list string) (all_targets0 : list ObjVec) :
  length pool_targets0 = length candidate_pool ->
  rectangular (obj_dim cfg) pool_targets0 ->
  filter is_feasible candidate_pool <> [] ->
  (forall r, proposals_well_formed cfg (env r)) ->
  (forall j st,
      j < num_rounds cfg ->
      state_after is_feasible cfg env candidate_pool pool_targets0
        all_seqs0 all_targets0 j = inr st ->
      draws_valid cfg (env (S j)) st) ->
  exists m,
    optimize is_feasible cfg env candidate_pool pool_targets0 all_seqs0
      all_targets0 = inr m.
Proof.
  intros Hlen Hrect Hne Hwf Hdraws.
  destruct (@state_after_total is_feasible cfg env candidate_pool
              pool_targets0 all_seqs0 all_targets0 (num_rounds cfg)
              (num_rounds cfg) Hlen Hrect Hne Hwf Hdraws (Nat.le_refl _))
    as (st & H).
  exists (metrics st); unfold optimize, run; rewrite H; reflexivity.
Qed.

(** X20.  A run that ends has called the inner optimizer exactly once in
    each of the rounds [1 .. num_rounds], in this order: no round is
    skipped and none is repeated, whatever the filters leave. *)
Theorem inner_optimizer_runs_once_per_round
  (is_feasible : Candidate -> bool) (cfg : Config) (env : nat -> RoundInput)
  (candidate_pool : list Candidate) (pool_targets0 : list ObjVec)
  (all_seqs0 : list string) (all_targets0 : list ObjVec) (st : State) :
  run is_feasible cfg env candidate_pool pool_targets0 all_seqs0 all_targets0
  = inr st ->
  inner_rounds (trace st) = seq 1 (num_rounds cfg).
Proof.
  unfold run, state_after; intro H; bind_inv H.
  apply init_inner_rounds in Hx; apply rounds_inner_rounds in H.
  rewrite H, Hx; reflexivity.
Qed.

(** X21.  If the maximizing and the minimizing frontier of the feasible
    initial pool coincide, then at every round the reported frontier is
    exactly the minimizing non-dominated subset of the pool, although each
    round recomputes it from the previous frontier and the accepted
    proposals only. *)
Theorem reported_frontier_is_pool_frontier_when_directions_agree
  (is_feasible : Candidate -> bool) (cfg : Config) (env : nat -> RoundInput)
  (candidate_pool : list Candidate) (pool_targets0 : list ObjVec)
  (all_seqs0 : list string) (all_targets0 : list ObjVec)
  (k : nat) (st : State) :
  rectangular (obj_dim cfg) pool_targets0 ->
  (forall r, rectangular (obj_dim cfg) (F (env r))) ->
  spec_frontier true
    (np.mask_filter (map is_feasible candidate_pool) pool_targets0)
  = spec_frontier false
      (np.mask_filter (map is_feasible candidate_pool) pool_targets0) ->
  state_after is_feasible cfg env candidate_pool pool_targets0 all_seqs0
    all_targets0 k = inr st ->
  pareto_targets st = spec_frontier false (pool_targets st).
Proof.
  intros Hrect HF Hagree; revert st.
  induction k as [| k IH]; intros st H.
  - apply state_after_0, init_inr in H.
    destruct H as (pc & pt & Hf & _ & -> & _ & -> & _).
    apply pareto_frontier_inr in Hf; simpl in Hf.
    destruct Hf as (_ & _ & ->); exact Hagree.
  - pose proof H as HS.
    apply state_after_S in H; destruct H as (st0 & H0 & H).
    eapply round_preserves_minimizing_frontier; [exact H | | apply IH, H0].
    eapply state_after_pool_rectangular; eauto.
Qed.

(** ** What the tracker receives *)




Section Tracker.

Variable is_feasible : Candidate -> bool.
Variable cfg : Config.



End Tracker.


(** ** Instances of the further properties *)

Lemma pareto_frontier_raises_iff_lengths_differ_witness :
  pareto_frontier ex_pool ([[1; 1]]%Z : list ObjVec) true
  = inl AssertionError.
Proof.
  apply (proj1 (proj1 (@pareto_frontier_raises_iff_lengths_differ
                         Candidate ex_pool [[1; 1]]%Z true))).
  simpl; lia.
Defined.

Lemma pareto_frontier_mutually_non_dominated_witness :
  mutually_non_dominated ex2_targets.
Proof.
  apply (@pareto_frontier_mutually_non_dominated Candidate ex_pool
           ex2_targets true ex_pool ex2_targets).
  reflexivity.
Defined.

Lemma pareto_frontier_selects_rows_witness :
  length [cand 2 "B"] = length ([[2; 2]]%Z : list ObjVec)
  /\ combine [cand 2 "B"] ([[2; 2]]%Z : list ObjVec)
     = filter (fun row => spec_non_dominated true ex_targets (snd row))
         (combine ex_pool ex_targets).
Proof.
  apply (@pareto_frontier_selects_rows Candidate ex_pool ex_targets true
           [cand 2 "B"] [[2; 2]]%Z).
  reflexivity.
Defined.

Lemma pareto_frontier_covers_pool_witness :
  (forall v, In v ex_targets ->
     exists w, In w ([[2; 2]]%Z : list ObjVec)
               /\ (w = v \/ spec_dominates true w v = true))
  /\ (ex_targets <> [] ->
      ([[2; 2]]%Z : list ObjVec) <> [] /\ [cand 2 "B"] <> []).
Proof.
  apply (@pareto_frontier_covers_pool Candidate ex_pool ex_targets true
           [cand 2 "B"] [[2; 2]]%Z 2).
  - reflexivity.
  - repeat constructor.
Defined.

Lemma pareto_frontier_minimize_is_maximize_negated_witness :
  pareto_frontier ex_pool (neg ex_targets) true
  = inr ([cand 1 "A"], neg [[1; 1]]%Z).
Proof.
  apply (@pareto_frontier_minimize_is_maximize_negated Candidate ex_pool
           ex_targets [cand 1 "A"] [[1; 1]]%Z).
  reflexivity.
Defined.

Lemma reported_frontier_mutually_non_dominated_witness :
  mutually_non_dominated (pareto_targets ex_st1)
  /\ norm_pareto_targets ex_st1 = pareto_targets ex_st1.
Proof.
  apply (@reported_frontier_mutually_non_dominated all_feasible ex_cfg
           ex_new ex_pool ex_targets ex_seqs ex_targets 1 ex_st1).
  reflexivity.
Defined.

Lemma frontier_sequences_in_history_witness :
  incl (pareto_seqs ex_st1) (pareto_seq_history ex_st1)
  /\ pareto_seqs ex_st1 = map mutant_residue_seq (pareto_candidates ex_st1)
  /\ pareto_seq_history ex_st1
     = map mutant_residue_seq (pareto_cand_history ex_st1).
Proof.
  apply (@frontier_sequences_in_history all_feasible ex_cfg ex_new ex_pool
           ex_targets ex_seqs ex_targets 1 ex_st1).
  reflexivity.
Defined.

Lemma parallel_arrays_stay_aligned_witness :
  aligned ex_st1
  /\ length (pareto_seqs ex_st1) = length (pareto_candidates ex_st1).
Proof.
  apply (@parallel_arrays_stay_aligned all_feasible ex_cfg ex_new ex_pool
           ex_targets ex_seqs ex_targets 1 ex_st1).
  reflexivity.
Defined.

Lemma rows_come_from_the_pool_witness :
  paired_in_pool ex_st1 (active_candidates ex_st1) (active_targets ex_st1)
  /\ paired_in_pool ex_st1 (pareto_candidates ex_st1)
       (pareto_targets ex_st1)
  /\ paired_in_pool ex_st1 (pareto_cand_history ex_st1)
       (pareto_target_history ex_st1).
Proof.
  apply (@rows_come_from_the_pool all_feasible ex_cfg ex_new ex_pool
           ex_targets ex_seqs ex_targets 1 ex_st1).
  reflexivity.
Defined.

Lemma optimize_returns_a_logged_record_witness :
  exists st,
    run all_feasible ex_cfg ex_new ex_pool ex_targets ex_seqs ex_targets
    = inr st
    /\ metrics ex_st1 = metrics st
    /\ In (LogMetrics (metrics ex_st1)) (trace st)
    /\ m_normed_targets (metrics ex_st1) = pareto_targets st
    /\ m_round_idx (metrics ex_st1) <= num_rounds ex_cfg
    /\ m_num_bb_evals (metrics ex_st1) <= total_bb_evals st.
Proof.
  apply (@optimize_returns_a_logged_record all_feasible ex_cfg ex_new
           ex_pool ex_targets ex_seqs ex_targets (metrics ex_st1)).
  reflexivity.
Defined.

Lemma round_updates_metrics_iff_pool_grows_witness :
  total_bb_evals ex_st1 = total_bb_evals ex_st0 + bb_evals (ex_new 1)
  /\ ((length (pool_candidates ex_st1) = length (pool_candidates ex_st0)
       /\ metrics ex_st1 = metrics ex_st0)
      \/ (length (pool_candidates ex_st0) < length (pool_candidates ex_st1)
          /\ metrics ex_st1
             = mkMetrics 1 (pareto_targets ex_st1)
                 (total_bb_evals ex_st1))).
Proof.
  apply (@round_updates_metrics_iff_pool_grows all_feasible ex_cfg 1
           (ex_new 1) ex_st0 ex_st1).
  reflexivity.
Defined.

Lemma pool_and_active_set_hold_distinct_sequences_witness :
  NoDup (pool_seqs ex_st1) /\ NoDup (active_seqs ex_st1).
Proof.
  destruct (@pool_and_active_set_hold_distinct_sequences all_feasible
              ex_cfg ex_drawn ex_pool ex_targets ex_seqs ex_targets 1
              ex_st1) as (H1 & H2 & _).
  - apply concrete_NoDup_strings; reflexivity.
  - intros s Hs; exact Hs.
  - intro r; reflexivity.
  - intro r; split; apply concrete_NoDup_nats; reflexivity.
  - reflexivity.
  - exact (conj H1 H2).
Defined.

Lemma pool_and_observations_grow_together_witness :
  exists added_s,
    all_seqs ex_st1 = ex_seqs ++ added_s
    /\ NoDup added_s
    /\ (forall s, In s added_s -> ~ In s ex_seqs).
Proof.
  destruct (@pool_and_observations_grow_together all_feasible ex_cfg
              ex_new ex_pool ex_targets ex_seqs ex_targets 1 ex_st1)
    as (ac & at0 & as0 & _ & _ & _ & H1 & _ & _ & _ & H2 & H3).
  - reflexivity.
  - exists as0; auto.
Defined.

Lemma total_bb_evals_sums_the_rounds_witness :
  total_bb_evals ex_st1
  = list_sum (map (fun r => bb_evals (ex_new r)) (seq 1 1)).
Proof.
  apply (@total_bb_evals_sums_the_rounds all_feasible ex_cfg ex_new
           ex_pool ex_targets ex_seqs ex_targets 1 ex_st1).
  reflexivity.
Defined.

Lemma model_free_evaluation_count_witness :
  total_bb_evals mf_st1 = 1 * (2 * 3).
Proof.
  apply (@model_free_evaluation_count all_feasible ex_cfg 2 3 mf_draws
           mf_pop ex_pool ex_targets ex_seqs ex_targets 1 mf_st1).
  reflexivity.
Defined.

Lemma round_without_survivors_witness :
  metrics ex_seen_st1 = metrics ex_st0
  /\ pareto_target_history ex_seen_st1 = pareto_target_history ex_st0
  /\ In (PrintNoNewCandidates 1) (trace ex_seen_st1).
Proof.
  destruct (@round_without_survivors all_feasible ex_cfg 1 (ex_seen 1)
              ex_st0 ex_seen_st1)
    as (_ & _ & _ & _ & _ & _ & _ & _ & _ & _ & H1 & _ & H2 & _ & H3).
  - reflexivity.
  - reflexivity.
  - auto.
Defined.

Lemma optimize_raises_without_feasible_candidates_witness :
  optimize none_feasible ex_cfg ex_new ex_pool ex_targets ex_seqs ex_targets
  <> inr (mkMetrics 0 [] 0).
Proof.
  apply (@optimize_raises_without_feasible_candidates none_feasible ex_cfg
           ex_new ex_pool ex_targets ex_seqs ex_targets).
  - reflexivity.
  - repeat constructor.
  - simpl; lia.
Defined.

Lemma augment_appends_history_then_pool_witness :
  length (active_candidates sc_state1)
  <= Nat.max (batch_size sc_cfg) (length (active_candidates sc_state)).
Proof.
  destruct (@augment_appends_history_then_pool sc_cfg sc_input sc_state
              sc_state1) as (h & p & _ & _ & _ & _ & _ & _ & H).
  - reflexivity.
  - exact H.
Defined.

Lemma optimize_returns_on_well_formed_input_witness :
  exists m,
    optimize all_feasible ex_cfg ex_drawn ex_pool ex_targets ex_seqs
      ex_targets = inr m.
Proof.
  apply (@optimize_returns_on_well_formed_input all_feasible ex_cfg
           ex_drawn ex_pool ex_targets ex_seqs ex_targets).
  - reflexivity.
  - repeat constructor.
  - discriminate.
  - intro r; split; [reflexivity | split; [reflexivity |]].
    repeat constructor.
  - intros j st Hj H.
    assert (E : j = 0) by (simpl in Hj; lia).
    subst j.
    change (@inr error State ex_st0 = inr st) in H.
    injection H as <-.
    split; (split; [reflexivity | split;
                     [apply concrete_NoDup_nats; reflexivity
                     | repeat constructor]]).
Defined.

Lemma inner_optimizer_runs_once_per_round_witness :
  inner_rounds (trace ex_st1) = seq 1 (num_rounds ex_cfg).
Proof.
  apply (@inner_optimizer_runs_once_per_round all_feasible ex_cfg ex_new
           ex_pool ex_targets ex_seqs ex_targets ex_st1).
  reflexivity.
Defined.

Lemma reported_frontier_is_pool_frontier_when_directions_agree_witness :
  pareto_targets ag_st1 = spec_frontier false (pool_targets ag_st1).
Proof.
  apply (@reported_frontier_is_pool_frontier_when_directions_agree
           all_feasible ex2_cfg ag_env ex_pool ex2_targets ex_seqs
           ex2_targets 1 ag_st1).
  - repeat constructor.
  - intro r; repeat constructor.
  - reflexivity.
  - reflexivity.
Defined.


(** * The size of the prepared active set *)

Section ActiveSize.

Variable cfg : Config.

Lemma contract_keeps (round_idx : nat) (st st_c : State) :
  contract cfg round_idx st = inr st_c ->
  length (active_candidates st_c) <= length (active_candidates st)
  /\ (length (active_seqs st) = length (active_candidates st) ->
      length (active_seqs st_c) = length (active_candidates st_c))
  /\ pool_candidates st_c = pool_candidates st
  /\ pool_seqs st_c = pool_seqs st
  /\ pareto_cand_history st_c = pareto_cand_history st
  /\ pareto_seq_history st_c = pareto_seq_history st.
Proof.
  unfold contract; intro H.
  destruct ((0 <? concentrate_pool cfg)
            && (round_idx mod concentrate_pool cfg =? 0)).
  - bind_inv_as H front Hfront; destruct front as [c t].
    inversion H; subst st_c; simpl.
    apply pareto_frontier_lengths in Hfront; destruct Hfront as [_ Hle].
    rewrite length_map; auto 10.
  - inversion H; subst; auto 10.
Qed.

(** What the two augmentation steps leave, by the indices they append. *)
Lemma augment_inr_indices (inp : RoundInput) (st st' : State) :
  augment cfg inp st = inr st' ->
  exists st_b,
    let h := backtrack_indices cfg (hist_draw inp) st in
    let p := random_indices cfg (rand_draw inp) st_b in
    active_candidates st_b
    = active_candidates st
      ++ map (fun i => nth i (pareto_cand_history st) no_candidate) h
    /\ active_seqs st_b
       = active_seqs st
         ++ map (fun i => nth i (pareto_seq_history st) ""%string) h
    /\ active_targets st_b
       = active_targets st
         ++ map (fun i => nth i (pareto_target_history st) ([] : ObjVec)) h
    /\ pool_candidates st_b = pool_candidates st
    /\ pool_seqs st_b = pool_seqs st
    /\ pool_targets st_b = pool_targets st
    /\ active_candidates st'
       = active_candidates st_b
         ++ map (fun i => nth i (pool_candidates st) no_candidate) p
    /\ active_seqs st'
       = active_seqs st_b
         ++ map (fun i => nth i (pool_seqs st) ""%string) p
    /\ active_targets st'
       = active_targets st_b
         ++ map (fun i => nth i (pool_targets st) ([] : ObjVec)) p.
Proof.
  unfold augment; intro H; bind_inv_as H st_b Hb.
  apply backtrack_augment_indices in Hb; destruct Hb as [Eb _].
  apply random_augment_indices in H; destruct H as [Er _].
  exists st_b; cbv zeta.
  assert (Ec : pool_candidates st_b = pool_candidates st)
    by (rewrite Eb; reflexivity).
  assert (Es : pool_seqs st_b = pool_seqs st) by (rewrite Eb; reflexivity).
  assert (Et : pool_targets st_b = pool_targets st)
    by (rewrite Eb; reflexivity).
  do 3 (split; [rewrite Eb at 1; reflexivity |]).
  do 3 (split; [assumption |]).
  rewrite <- Ec, <- Es, <- Et.
  do 2 (split; [rewrite Er at 1; reflexivity |]).
  rewrite Er at 1; reflexivity.
Qed.

Lemma backtrack_indices_full (draw : list nat) (st : State) :
  batch_size cfg <= length (active_candidates st) ->
  backtrack_indices cfg draw st = [].
Proof.
  intro H; unfold backtrack_indices.
  destruct (length (active_candidates st) <? batch_size cfg) eqn:E;
    [apply Nat.ltb_lt in E; lia | reflexivity].
Qed.

Lemma random_indices_full (draw : list nat) (st : State) :
  batch_size cfg <= length (active_candidates st) ->
  random_indices cfg draw st = [].
Proof.
  intro H; unfold random_indices.
  destruct (length (active_candidates st) <? batch_size cfg) eqn:E;
    [apply Nat.ltb_lt in E; lia | reflexivity].
Qed.

Lemma not_active_length_le (seqs active : list string) (draw : list nat) :
  length (not_active seqs active draw) <= length draw.
Proof. apply filter_length_le. Qed.

(** Below [batch_size], a step that appends fewer entries than are missing
    has appended every drawn entry whose sequence is not active. *)
Lemma backtrack_indices_short (draw : list nat) (st : State) :
  length draw
  = Nat.min (batch_size cfg) (length (pareto_cand_history st)) ->
  length (active_candidates st)
  + length (backtrack_indices cfg draw st) < batch_size cfg ->
  backtrack_indices cfg draw st
  = not_active (pareto_seq_history st) (active_seqs st) draw.
Proof.
  intros Hd Hlt; unfold backtrack_indices in *.
  pose proof (not_active_length_le (pareto_seq_history st) (active_seqs st)
                draw) as Hle.
  set (fresh := not_active (pareto_seq_history st) (active_seqs st) draw)
    in *.
  destruct (length (active_candidates st) <? batch_size cfg) eqn:E;
    [| apply Nat.ltb_ge in E; simpl in Hlt; lia].
  rewrite length_firstn in Hlt.
  apply firstn_all2; lia.
Qed.

Lemma random_indices_short (draw : list nat) (st : State) :
  length draw = Nat.min (batch_size cfg) (length (pool_candidates st)) ->
  length (active_candidates st)
  + length (random_indices cfg draw st) < batch_size cfg ->
  random_indices cfg draw st
  = not_active (pool_seqs st) (active_seqs st) draw.
Proof.
  intros Hd Hlt; unfold random_indices in *.
  pose proof (not_active_length_le (pool_seqs st) (active_seqs st) draw)
    as Hle.
  set (fresh := not_active (pool_seqs st) (active_seqs st) draw) in *.
  destruct (length (active_candidates st) <? batch_size cfg) eqn:E;
    [| apply Nat.ltb_ge in E; simpl in Hlt; lia].
  rewrite length_firstn in Hlt.
  apply firstn_all2; lia.
Qed.

(** A pool of at least [batch_size] distinct sequences fills the active
    set. *)
Lemma random_indices_fill (draw : list nat) (st : State) :
  length (active_seqs st) = length (active_candidates st) ->
  length (pool_seqs st) = length (pool_candidates st) ->
  NoDup (pool_seqs st) ->
  np.valid_draw (length (pool_candidates st))
    (Nat.min (batch_size cfg) (length (pool_candidates st))) draw ->
  batch_size cfg <= length (pool_candidates st) ->
  length (active_candidates st) <= batch_size cfg ->
  length (active_candidates st) + length (random_indices cfg draw st)
  = batch_size cfg.
Proof.
  intros Ha Hp Hnd (Hlen & Hndd & Hrange) Hsupply Hle.
  unfold random_indices.
  destruct (length (active_candidates st) <? batch_size cfg) eqn:E;
    [| apply Nat.ltb_ge in E; simpl; lia].
  apply Nat.ltb_lt in E.
  rewrite <- Hp in Hrange.
  pose proof (@not_active_length (pool_seqs st) (active_seqs st) draw Hnd
                Hndd Hrange) as Hfresh.
  rewrite length_firstn; lia.
Qed.

Lemma augment_size (inp : RoundInput) (st st' : State) :
  augment cfg inp st = inr st' ->
  length (active_candidates st')
  <= Nat.max (batch_size cfg) (length (active_candidates st))
  /\ (batch_size cfg <= length (active_candidates st) ->
      active_candidates st' = active_candidates st
      /\ active_targets st' = active_targets st
      /\ active_seqs st' = active_seqs st)
  /\ (length (active_candidates st) < batch_size cfg ->
      length (active_candidates st) <= length (active_candidates st')
      /\ length (active_candidates st') <= batch_size cfg
      /\ (length (active_seqs st) = length (active_candidates st) ->
          length (pool_seqs st) = length (pool_candidates st) ->
          NoDup (pool_seqs st) ->
          np.valid_draw (length (pool_candidates st))
            (Nat.min (batch_size cfg) (length (pool_candidates st)))
            (rand_draw inp) ->
          batch_size cfg <= length (pool_candidates st) ->
          length (active_candidates st') = batch_size cfg)
      /\ (length (hist_draw inp)
          = Nat.min (batch_size cfg) (length (pareto_cand_history st)) ->
          length (rand_draw inp)
          = Nat.min (batch_size cfg) (length (pool_candidates st)) ->
          length (active_candidates st') < batch_size cfg ->
          let fresh_h :=
            not_active (pareto_seq_history st) (active_seqs st)
              (hist_draw inp) in
          let seqs_b :=
            active_seqs st
            ++ map (fun i => nth i (pareto_seq_history st) ""%string)
                   fresh_h in
          let fresh_p := not_active (pool_seqs st) seqs_b (rand_draw inp) in
          active_candidates st'
          = active_candidates st
            ++ map (fun i => nth i (pareto_cand_history st) no_candidate)
                   fresh_h
            ++ map (fun i => nth i (pool_candidates st) no_candidate)
                   fresh_p
          /\ active_seqs st'
             = seqs_b
               ++ map (fun i => nth i (pool_seqs st) ""%string) fresh_p)).
Proof.
  intro H; apply augment_inr_indices in H.
  destruct H as (st_b & Hcb & Hsb & Htb & Hpc & Hps & Hpt & Hc' & Hs' & Ht').
  cbv zeta in *.
  set (h := backtrack_indices cfg (hist_draw inp) st) in *.
  set (p := random_indices cfg (rand_draw inp) st_b) in *.
  pose proof (backtrack_indices_length cfg (hist_draw inp) st) as Lh.
  pose proof (random_indices_length cfg (rand_draw inp) st_b) as Lp.
  fold h in Lh; fold p in Lp.
  assert (Lb : length (active_candidates st_b)
               = length (active_candidates st) + length h)
    by (rewrite Hcb, length_app, length_map; reflexivity).
  assert (L' : length (active_candidates st')
               = length (active_candidates st_b) + length p)
    by (rewrite Hc', length_app, length_map; reflexivity).
  split; [lia |].
  split.
  { intro Hfull.
    assert (Eh : h = []) by (apply backtrack_indices_full; exact Hfull).
    assert (Ep : p = [])
      by (apply random_indices_full; rewrite Lb, Eh; simpl; lia).
    rewrite Hc', Ht', Hs', Hcb, Htb, Hsb, Ep, Eh; simpl.
    rewrite !app_nil_r; auto. }
  intro Hlt.
  split; [lia |].
  split; [lia |].
  split.
  { intros Ha Hp Hnd Hdraw Hsupply.
    rewrite L'.
    apply random_indices_fill.
    - rewrite Hsb, Hcb, !length_app, !length_map, Ha; reflexivity.
    - rewrite Hps, Hpc; exact Hp.
    - rewrite Hps; exact Hnd.
    - rewrite Hpc; exact Hdraw.
    - rewrite Hpc; exact Hsupply.
    - lia. }
  intros Hhd Hrd Hshort.
  assert (Eh : h = not_active (pareto_seq_history st) (active_seqs st)
                     (hist_draw inp))
    by (apply backtrack_indices_short; [exact Hhd | fold h; lia]).
  assert (Ep : p = not_active (pool_seqs st_b) (active_seqs st_b)
                     (rand_draw inp))
    by (apply random_indices_short;
        [rewrite Hpc; exact Hrd | fold p; lia]).
  rewrite Hps, Hsb, Eh in Ep.
  rewrite Hc', Hs', Hcb, Hsb, Ep, Eh, <- !app_assoc; auto.
Qed.

End ActiveSize.

(** C3, as amended.  Let [c] be the size of the active set after the
    contraction step of a round (at most its size when the round starts).
    When the two augmentation steps complete, the active set has at most
    [max batch_size c] elements.  If [c] is [batch_size] or more, it is the
    contracted set, untouched.  If [c] is below [batch_size], it has between
    [c] and [batch_size] elements: exactly [batch_size] when the pool holds
    at least [batch_size] candidates with distinct sequences, and fewer only
    when the two draws supply too few entries whose sequence is not active,
    every such drawn entry having been appended. *)
Theorem prepare_active_size_bound (cfg : Config) (round_idx : nat)
  (inp : RoundInput) (st st' : State) :
  prepare_active cfg round_idx inp st = inr st' ->
  exists st_c,
    contract cfg round_idx st = inr st_c
    /\ length (active_candidates st_c) <= length (active_candidates st)
    /\ length (active_candidates st')
       <= Nat.max (batch_size cfg) (length (active_candidates st_c))
    /\ (batch_size cfg <= length (active_candidates st_c) ->
        active_candidates st' = active_candidates st_c
        /\ active_targets st' = active_targets st_c
        /\ active_seqs st' = active_seqs st_c)
    /\ (length (active_candidates st_c) < batch_size cfg ->
        length (active_candidates st_c) <= length (active_candidates st')
        /\ length (active_candidates st') <= batch_size cfg
        /\ (length (active_seqs st) = length (active_candidates st) ->
            length (pool_seqs st) = length (pool_candidates st) ->
            NoDup (pool_seqs st) ->
            np.valid_draw (length (pool_candidates st))
              (Nat.min (batch_size cfg) (length (pool_candidates st)))
              (rand_draw inp) ->
            batch_size cfg <= length (pool_candidates st) ->
            length (active_candidates st') = batch_size cfg)
        /\ (length (hist_draw inp)
            = Nat.min (batch_size cfg) (length (pareto_cand_history st)) ->
            length (rand_draw inp)
            = Nat.min (batch_size cfg) (length (pool_candidates st)) ->
            length (active_candidates st') < batch_size cfg ->
            let fresh_h :=
              not_active (pareto_seq_history st) (active_seqs st_c)
                (hist_draw inp) in
            let seqs_b :=
              active_seqs st_c
              ++ map (fun i => nth i (pareto_seq_history st) ""%string)
                     fresh_h in
            let fresh_p :=
              not_active (pool_seqs st) seqs_b (rand_draw inp) in
            active_candidates st'
            = active_candidates st_c
              ++ map (fun i => nth i (pareto_cand_history st) no_candidate)
                     fresh_h
              ++ map (fun i => nth i (pool_candidates st) no_candidate)
                     fresh_p
            /\ active_seqs st'
               = seqs_b
                 ++ map (fun i => nth i (pool_seqs st) ""%string) fresh_p)).
Proof.
  unfold prepare_active; intro H; bind_inv_as H st_c Hc.
  exists st_c; split; [exact Hc |].
  apply contract_keeps in Hc.
  destruct Hc as (Hle & Hal & Hpc & Hps & Hhc & Hhs).
  apply augment_size in H.
  rewrite Hpc, Hps, Hhc, Hhs in H.
  destruct H as (Hmax & Hfull & Hbelow).
  split; [exact Hle |].
  split; [exact Hmax |].
  split; [exact Hfull |].
  intro Hlt; destruct (Hbelow Hlt) as (H1 & H2 & Hfill & Hshort).
  split; [exact H1 |].
  split; [exact H2 |].
  split; [| exact Hshort].
  intros Ha; apply Hfill, Hal, Ha.
Qed.

(** Two instances of C3.  The round on [chain_pool] starts with four
    active candidates, contraction leaves one, the history draw supplies one
    and the pool draw one, and the active set ends with [batch_size = 3]
    candidates.  The round on the two-candidate pool with [batch_size = 3]
    ends with the two candidates there are: the draws supply no third
    sequence. *)
Lemma prepare_active_size_bound_witness :
  (length (active_candidates chain_st0) = 4
   /\ length (active_candidates chain_st_c) = 1
   /\ length (active_candidates chain_st1) = batch_size chain_cfg)
  /\ (length (active_candidates short_st_c) = 1
      /\ active_seqs short_st1 = ["A"; "B"]%string
      /\ length (active_candidates short_st1) < batch_size short_cfg).
Proof.
  split.
  - destruct (@prepare_active_size_bound chain_cfg 1 chain_input chain_st0
                chain_st1) as (st_c & Hc & _ & _ & _ & Hbelow).
    + reflexivity.
    + change (@inr error State chain_st_c = inr st_c) in Hc.
      injection Hc as <-.
      split; [reflexivity |].
      split; [reflexivity |].
      destruct Hbelow as (_ & _ & Hfill & _).
      * vm_compute; lia.
      * apply Hfill.
        -- reflexivity.
        -- reflexivity.
        -- apply concrete_NoDup_strings; reflexivity.
        -- split; [reflexivity |].
           split; [apply concrete_NoDup_nats; reflexivity |].
           repeat constructor.
        -- vm_compute; lia.
  - destruct (@prepare_active_size_bound short_cfg 1 short_input short_st0
                short_st1) as (st_c & Hc & _ & _ & _ & Hbelow).
    + reflexivity.
    + change (@inr error State short_st_c = inr st_c) in Hc.
      injection Hc as <-.
      split; [reflexivity |].
      destruct Hbelow as (_ & _ & _ & Hshort).
      * vm_compute; lia.
      * split; [| vm_compute; lia].
        refine (proj2 (Hshort _ _ _)).
        -- reflexivity.
        -- reflexivity.
        -- vm_compute; lia.
Defined.
